(** * Erdos-Guy-Selfridge factorization counter (egs.c): shallow embedding

    The development follows [src/fastegs/egs.c].  Machine integers are
    modelled by [Z]; C arrays are lists indexed by [Z]; a pointer into the
    zero-terminated factorization arena [F] is the suffix of the arena it
    points at; [assert] failures and division by zero abort the
    computation.  Sums and products that can leave their type wrap
    around: [wrap64] for the [int64_t] of [cdiv], of the valuations and
    of [tbound], [sint32] for the [int] of the ratio a/b; only the
    products of [main] with the ratio stop the computation when they
    leave [int64_t] ([mul64]). *)

From Stdlib Require Import ZArith Zdivisibility List Lia Bool.
Import ListNotations.
Open Scope Z_scope.

(** ** Arrays indexed by machine integers *)

Section Arrays.
Context {A : Type}.

(** [a[i]]; reading outside the allocated block yields the default. *)
Definition zget (d : A) (a : list A) (i : Z) : A :=
  if i <? 0 then d else nth (Z.to_nat i) a d.

Fixpoint upd_nat (n : nat) (v : A) (a : list A) {struct a} : list A :=
  match a with
  | [] => []
  | x :: a' =>
      match n with
      | O => v :: a'
      | S n' => x :: upd_nat n' v a'
      end
  end.

(** [a[i] = v]; a store outside the allocated block is dropped. *)
Definition zset (a : list A) (i : Z) (v : A) : list A :=
  if i <? 0 then a else upd_nat (Z.to_nat i) v a.

(** [p + k] for a pointer [p] into an array. *)
Definition zskip (k : Z) (a : list A) : list A :=
  if k <? 0 then a else skipn (Z.to_nat k) a.

End Arrays.

(** [calloc(n, ...)] *)
Definition calloc (n : Z) : list Z := repeat 0 (Z.to_nat n).

Notation "a .[ i ]" := (zget 0 a i) (at level 1, format "a .[ i ]").

(** ** Prime powers and factorizations

    [struct pp { unsigned pi : 24; unsigned e : 8; }] *)

Record pp := mkpp { pp_pi : Z; pp_e : Z }.

Definition pp0 : pp := mkpp 0 0.

(** The entries of a zero-terminated factorization, sentinel excluded. *)
Fixpoint entries (f : list pp) : list pp :=
  match f with
  | [] => []
  | x :: f' => if pp_pi x =? 0 then [] else x :: entries f'
  end.

(** [static inline int64_t min (int64_t a, int64_t b)] and [max] *)
Definition min (a b : Z) : Z := if a >? b then b else a.
Definition max (a b : Z) : Z := if a <? b then b else a.

(** The value an [int64_t] takes when a sum or a product leaves the
    type: the representative in -2^63 .. 2^63 - 1 modulo 2^64. *)
Definition wrap64 (z : Z) : Z := (z + 2 ^ 63) mod 2 ^ 64 - 2 ^ 63.

(** [static inline int64_t cdiv (int64_t a, int64_t b)]: the sum is
    taken in [int64_t], and C division truncates, which is [Z.quot]. *)
Definition cdiv (a b : Z) : Z := wrap64 (a + b - 1) ÷ b.

(** [fcnt]: [for ( ; f->pi ; f++ ) e = min(e,E[f->pi]/f->e); return e;] *)
Fixpoint fcnt (E : list Z) (e : Z) (f : list pp) : Z :=
  match f with
  | [] => e
  | x :: f' =>
      if pp_pi x =? 0 then e
      else fcnt E (min e (E.[pp_pi x] ÷ pp_e x)) f'
  end.

(** The update [for ( ; f->pi ; f++ ) E[f->pi] -= k*f->e;] that follows
    every use of a cofactor in [tfac]. *)
Fixpoint fsub (E : list Z) (k : Z) (f : list pp) : list Z :=
  match f with
  | [] => E
  | x :: f' =>
      if pp_pi x =? 0 then E
      else fsub (zset E (pp_pi x) (E.[pp_pi x] - k * pp_e x)) k f'
  end.

(** The capacity as the specification words it:
    min(cap, min over the pairs (i,e) of f of floor(E[i]/e)). *)
Definition capacity_spec (E : list Z) (cap : Z) (f : list pp) : Z :=
  fold_right Z.min cap (map (fun x => E.[pp_pi x] / pp_e x) (entries f)).

(** A recorded factorization: prime indices strictly descending,
    exponents at least one. *)
Fixpoint descending (b : Z) (l : list pp) : Prop :=
  match l with
  | [] => True
  | x :: l' => 0 < pp_pi x < b /\ 1 <= pp_e x /\ descending (pp_pi x) l'
  end.

Definition fac_wf (f : list pp) : Prop :=
  exists b, descending b (entries f).

Definition nonneg (E : list Z) : Prop := forall i, 0 <= E.[i].


(** ** Outcomes

    A C computation either returns, or stops at a failed [assert] or an
    undefined operation; the loops of the model carry fuel, and [Fuel]
    marks a loop that was cut off before the source's exit test held. *)

Inductive res (A : Type) : Type :=
  | Ok (a : A)
  | Abort
  | Fuel.
Arguments Ok {A} a.
Arguments Abort {A}.
Arguments Fuel {A}.

Definition bind {A B} (c : res A) (k : A -> res B) : res B :=
  match c with
  | Ok a => k a
  | Abort => Abort
  | Fuel => Fuel
  end.

Notation "x <- c ;; k" := (bind c (fun x => k))
  (at level 61, c at next level, right associativity).
Notation "' pat <- c ;; k" := (bind c (fun x => match x with pat => k end))
  (at level 61, pat pattern, c at next level, right associativity).

(** [assert (b)] *)
Definition assert (b : bool) : res unit := if b then Ok tt else Abort.

(** ** External collaborators: primesieve and primecount

    Both are assumed exact by the source; they are modelled by trial
    division. *)

Fixpoint no_divisor (fuel : nat) (d n : Z) : bool :=
  match fuel with
  | O => true
  | S k => negb (n mod d =? 0) && no_divisor k (d + 1) n
  end.

Definition is_prime (n : Z) : bool :=
  (2 <=? n) && no_divisor (Z.to_nat (n - 2)) 2 n.

(** The integers lo, lo+1, ..., lo+len-1. *)
Fixpoint zrange (lo : Z) (len : nat) : list Z :=
  match len with
  | O => []
  | S k => lo :: zrange (lo + 1) k
  end.

(** The primes p <= n in ascending order: what a primesieve iterator
    started at 0 yields before its first value above n. *)
Definition primes_upto (n : Z) : list Z :=
  filter is_prime (zrange 2 (Z.to_nat (n - 1))).

(** [primecount_pi(n)] *)
Definition primecount_pi (n : Z) : Z := Z.of_nat (length (primes_upto n)).

(** ** The process-wide tables *)

Record tables := mkTables {
  MAXP : Z;          (* largest prime of the tables *)
  MAXPI : Z;         (* pi(MAXP) *)
  MAXM : Z;          (* largest m for which M[m] is valid *)
  P : list Z;        (* P[n] is the nth prime, P[0] = 1 *)
  PI : list Z;       (* PI[n] = pi(n) for n <= MAXP *)
  F : list pp;       (* concatenated zero-terminated factorizations *)
  M : list Z         (* F[M[m]] holds the factorization of m, M[m]=0 ow *)
}.

(** The static initialisers of [MAXP], [MAXPI] and [MAXM]. *)
Definition MAXP_init : Z := 310248233.
Definition MAXPI_init : Z := 2 ^ 24 - 1.
Definition MAXM_init : Z := 0x7FFFFFFF.

Definition INT32_MAX : Z := 2 ^ 31 - 1.

(** Conversion of an [int64_t] to [int32_t] (the store [MAXP = maxp]). *)
Definition sint32 (z : Z) : Z := (z + 2 ^ 31) mod 2 ^ 32 - 2 ^ 31.

(** Stores into the bit fields [pi : 24] and [e : 8]. *)
Definition mk_pp (pi e : Z) : pp := mkpp (pi mod 2 ^ 24) (e mod 2 ^ 8).

(** [static inline int v2 (uint32_t x) { return __builtin_ctz(x); }] *)
Fixpoint ctz_pos (p : positive) : Z :=
  match p with
  | xO p' => 1 + ctz_pos p'
  | _ => 0
  end.

Definition v2 (x : Z) : Z :=
  match x with
  | Zpos p => ctz_pos p
  | _ => 0
  end.

(** [F + off], and the pointer difference [f - F] for the write cursor [f]
    at the end of the arena built so far. *)
Definition fptr (F : list pp) (off : Z) : list pp := zskip off F.
Definition foff (F : list pp) : Z := Z.of_nat (length F).

(** [for ( p = 0, n = 1 ; (p = primesieve_next_prime(&ctx)) <= MAXP ; )
      { P[n] = p; PI[p] = n++; }] *)
Fixpoint fill_primes (ps : list Z) (n : Z) (P PI : list Z)
  : list Z * list Z :=
  match ps with
  | [] => (P, PI)
  | p :: ps' => fill_primes ps' (n + 1) (zset P n p) (zset PI p n)
  end.

(** [for ( n = 1 ; n <= MAXP ; n++ ) if ( !PI[n] ) PI[n] = PI[n-1];] *)
Fixpoint fill_pi (ns : list Z) (PI : list Z) : list Z :=
  match ns with
  | [] => PI
  | n :: ns' =>
      fill_pi ns' (if PI.[n] =? 0 then zset PI n PI.[n - 1] else PI)
  end.

(** [for ( p = P[pi], q = p ; q <= maxm ; q += p ) M[q] = pi;] with [q] an
    [int32_t]: the increment must not leave the type. *)
Fixpoint sieve_mark (fuel : nat) (pi p q maxm : Z) (M : list Z)
  : res (list Z) :=
  match fuel with
  | O => Fuel
  | S k =>
      if q <=? maxm then
        _ <- assert (q + p <=? INT32_MAX) ;;
        sieve_mark k pi p (q + p) maxm (zset M q pi)
      else Ok M
  end.

(** [for ( pi = 1 ; pi <= MAXPI ; pi++ ) ...] *)
Fixpoint sieve (fuel : nat) (pi maxpi maxm : Z) (P M : list Z)
  : res (list Z) :=
  match fuel with
  | O => Fuel
  | S k =>
      if pi <=? maxpi then
        M' <- sieve_mark (Z.to_nat maxm + 1) pi P.[pi] P.[pi] maxm M ;;
        sieve k (pi + 1) maxpi maxm P M'
      else Ok M
  end.

(** [for ( ; M[q] ; q /= P[M[q]] ) {
       if ( M[q] == g->pi ) { g->e++; }
       else { (++g)->pi = M[q]; g->e = 1; } }]
    [done] holds the entries written below [g], most recent first, and
    [g] the entry under the cursor. *)
Fixpoint factor_odd (fuel : nat) (P M : list Z) (q : Z)
    (done : list pp) (g : pp) : res (Z * list pp * pp) :=
  match fuel with
  | O => Fuel
  | S k =>
      if M.[q] =? 0 then Ok (q, done, g)
      else
        _ <- assert (negb (P.[M.[q]] =? 0)) ;;
        let q' := q ÷ P.[M.[q]] in
        if M.[q] =? pp_pi g
        then factor_odd k P M q' done (mk_pp (pp_pi g) (pp_e g + 1))
        else factor_odd k P M q' (g :: done) (mk_pp M.[q] 1)
  end.

(** [for ( m = maxm ; m > 1 ; m -= 2 )]: the odd m, largest first. *)
Fixpoint odd_loop (fuel : nat) (P : list Z) (m : Z)
    (M : list Z) (F : list pp) : res (list Z * list pp) :=
  match fuel with
  | O => Fuel
  | S k =>
      if m >? 1 then
        '(q, done, g) <- factor_odd (Z.to_nat m) P M m []
                           (mk_pp M.[m] 0) ;;
        if negb (q =? 1) then odd_loop k P (m - 2) (zset M m 0) F
        else
          odd_loop k P (m - 2) (zset M m (foff F))
            (F ++ rev (g :: done) ++ [pp0])
      else Ok (M, F)
  end.

(** [for ( m = maxm-1 ; m > 1 ; m -= 2 )]: the even m, from the
    factorization of their odd part. *)
Fixpoint even_loop (fuel : nat) (m : Z) (M : list Z) (F : list pp)
  : res (list Z * list pp) :=
  match fuel with
  | O => Fuel
  | S k =>
      if m >? 1 then
        let e := v2 m in
        let q := Z.shiftr m e in
        if M.[q] =? 0 then even_loop k (m - 2) (zset M m 0) F
        else
          even_loop k (m - 2) (zset M m (foff F))
            (F ++ entries (fptr F M.[q]) ++ [mk_pp 1 e; pp0])
      else Ok (M, F)
  end.

(** [void setup (int64_t maxp, int64_t maxm)], from the initial values of
    the globals. *)
Definition setup (maxp maxm : Z) : res tables :=
  _ <- assert (maxp <=? MAXP_init) ;;
  let MAXP := sint32 maxp in
  let maxpi := primecount_pi MAXP in
  _ <- assert (maxpi <=? MAXPI_init) ;;
  let MAXPI := maxpi in
  let maxm := if Z.land maxm 1 =? 0 then maxm + 1 else maxm in
  _ <- assert (maxm <=? MAXM_init) ;;
  _ <- assert ((0 <=? maxm) && (maxm <? MAXP * MAXP)) ;;
  _ <- assert (0 <=? MAXP + 1) ;;
  let P0 := zset (calloc (MAXPI + 1)) 0 1 in
  let PI0 := calloc (MAXP + 1) in
  let '(P, PI1) := fill_primes (primes_upto MAXP) 1 P0 PI0 in
  let PI := fill_pi (zrange 1 (Z.to_nat MAXP)) PI1 in
  M0 <- sieve (Z.to_nat MAXPI + 1) 1 MAXPI maxm P (calloc (maxm + 1)) ;;
  '(M1, F1) <- odd_loop (Z.to_nat maxm) P maxm M0 [pp0] ;;
  let M2 := zset M1 1 (foff F1) in
  let F2 := F1 ++ [pp0] in
  '(M, F) <- even_loop (Z.to_nat maxm) (maxm - 1) M2 F2 ;;
  _ <- assert (foff F <? 2 ^ 32) ;;
  Ok (mkTables MAXP MAXPI maxm P PI F M).

(** The number a factorization stands for: the product of P[pi]^e over
    its entries. *)
Fixpoint pprod (P : list Z) (l : list pp) : Z :=
  match l with
  | [] => 1
  | x :: l' => P.[pp_pi x] ^ pp_e x * pprod P l'
  end.

Definition fprod (P : list Z) (f : list pp) : Z := pprod P (entries f).

(** m is smooth for the bound B: every prime factor of m is at most B. *)
Definition smooth (B m : Z) : Prop :=
  forall p, Z.prime p -> (p | m) -> p <= B.

(** ** Loops *)

(** [while (cond) body] *)
Fixpoint while_ {S : Type} (fuel : nat) (cond : S -> bool)
    (body : S -> res S) (s : S) : res S :=
  match fuel with
  | O => Fuel
  | S k => if cond s then s' <- body s ;; while_ k cond body s' else Ok s
  end.

(** A loop left by [break] or by its test: the body says whether to go
    round again ([inl]) or to leave with a result ([inr]). *)
Fixpoint loop {S R : Type} (fuel : nat) (body : S -> res (S + R)) (s : S)
  : res R :=
  match fuel with
  | O => Fuel
  | S k =>
      x <- body s ;;
      match x with
      | inl s' => loop k body s'
      | inr r => Ok r
      end
  end.

(** [a / b] on [int64_t]: truncating, undefined for b = 0. *)
Definition divz (a b : Z) : res Z :=
  if b =? 0 then Abort else Ok (a ÷ b).

(** [cdiv(a,b)] where the divisor is not known to be nonzero. *)
Definition cdivz (a b : Z) : res Z := divz (wrap64 (a + b - 1)) b.

(** [f->pi] and [f->e] for a pointer [f] into a factorization. *)
Definition fpi (f : list pp) : Z :=
  match f with
  | [] => 0
  | x :: _ => pp_pi x
  end.

Definition fe (f : list pp) : Z :=
  match f with
  | [] => 0
  | x :: _ => pp_e x
  end.

(** Where [f] points after [for ( ; f->pi ; f++ )]. *)
Fixpoint fend (f : list pp) : list pp :=
  match f with
  | [] => []
  | x :: f' => if pp_pi x =? 0 then f else fend f'
  end.

(** [static inline int64_t pi (int64_t n)] *)
Definition pi (T : tables) (n : Z) : Z :=
  if n <=? MAXP T then (PI T).[n] else primecount_pi n.

(** [primesieve_next_prime(&ctx)]: the iterator is the least value it may
    still yield; the search is cut off at twice that value. *)
Fixpoint next_prime_from (fuel : nat) (n : Z) : res Z :=
  match fuel with
  | O => Fuel
  | S k => if is_prime n then Ok n else next_prime_from k (n + 1)
  end.

Definition primesieve_next_prime (ctx : Z) : res (Z * Z) :=
  p <- next_prime_from (Z.to_nat ctx + 3) ctx ;;
  Ok (p, p + 1).

(** [fcnti]: v_{pm}(P^E) for p = P[i] and m with factorization f. *)
Definition fcnti (E : list Z) (i : Z) (f : list pp) : res Z :=
  _ <- assert (negb (length f =? 0)%nat) ;;   (* f >= F && f < Fend *)
  _ <- assert (fpi f <=? i) ;;
  let e := if i >? fpi f then E.[i] else E.[i] ÷ (fe f + 1) in
  Ok (fcnt E e f).

(** [static int32_t fac_s (int64_t t)].  [sqrt] of a negative t is not
    a number and its conversion to [int64_t] is undefined: the model
    stops there; [tfac] calls [fac_s] with t >= 3 only. *)
Definition fac_s (T : tables) (t : Z) : res Z :=
  _ <- assert (0 <=? t) ;;                    (* sqrt of a negative *)
  let s := Z.sqrt t in
  _ <- assert (s * (s - 1) <? t) ;;
  s <- while_ 3 (fun s => s * (s - 1) <? t) (fun s => Ok (s + 1)) s ;;
  _ <- assert (s <=? MAXP T) ;;
  Ok s.

(** ** Certificates

    [struct fac_item { int64_t n; int64_t m; struct pp f[12];
                       int64_t p; int64_t q; int64_t c; };] *)

Record fac_item := mkItem {
  it_n : Z;          (* multiplicity of each factor m*p *)
  it_m : Z;          (* cofactor *)
  it_f : list pp;    (* its factorization, zero-terminated *)
  it_p : Z;          (* primes p' with it_p < p' <= it_q *)
  it_q : Z;
  it_c : Z           (* number of such primes *)
}.

(** [struct fac]: the array [L] with its [cnt] items, [N] and [t]. *)
Record fac := mkFac {
  fac_L : list fac_item;
  fac_N : Z;
  fac_t : Z
}.

Definition fac_alloc (N t : Z) : fac := mkFac [] N t.

(** [fac_extend]: the factorization is copied, sentinel included, into
    the twelve slots of the item. *)
Definition fac_extend (v : fac) (n m : Z) (f : list pp) (p q c : Z)
  : res fac :=
  _ <- assert (m * (p + 1) >=? fac_t v) ;;
  let r_f := entries f ++ [pp0] in
  _ <- assert (length r_f <=? 12)%nat ;;
  Ok (mkFac (fac_L v ++ [mkItem n m r_f p q c]) (fac_N v) (fac_t v)).

Definition fac_extend_mp (v : fac) (n m : Z) (f : list pp) (p : Z)
  : res fac :=
  fac_extend v n m f (p - 1) p 1.

Definition fac_extend_mp2 (T : tables) (v : fac) (n m : Z) (f : list pp)
    (i : Z) : res fac :=
  _ <- assert ((i >? fpi f) && (i <=? MAXPI T)) ;;
  let h := mk_pp i 1 :: entries f ++ [pp0] in
  _ <- assert (length h <=? 16)%nat ;;
  fac_extend_mp v n (m * (P T).[i]) h (P T).[i].

(** [fac_extend_m]: the largest prime of the factorization [f] of m is
    split off; [f->e--] and [f->e++] bracket the call. *)
Definition fac_extend_m (T : tables) (v : fac) (n m : Z) (f : list pp)
  : res fac :=
  let p := (P T).[fpi f] in
  let f1 := mk_pp (fpi f) (fe f - 1) :: tl f in
  m' <- divz m p ;;
  fac_extend_mp v n m' (if fe f1 =? 0 then tl f1 else f1) p.

(** [if ( v ) ...] *)
Definition when_cert (v : option fac) (k : fac -> res fac)
  : res (option fac) :=
  match v with
  | None => Ok None
  | Some v0 => v1 <- k v0 ;; Ok (Some v1)
  end.

Definition INT64_MAX : Z := 2 ^ 63 - 1.

(** 2^k rounds of a loop whose body either goes on with a new state or
    leaves with a result. *)
Fixpoint rounds {St R : Type} (k : nat) (body : St -> res (St + R)) (s : St)
  : res (St + R) :=
  match k with
  | O => body s
  | S k' =>
      x <- rounds k' body s ;;
      match x with
      | inl s' => rounds k' body s'
      | inr r => Ok (inr r)
      end
  end.

(** [for ( i = 1 ; i <= maxpi ; i++ )
      for ( q = P[i] ; q <= N ; q *= P[i] ) E[i] += N/q;]
    q is an [int64_t]: the product that leaves the type wraps around,
    and the loop goes on from the wrapped value.  One round of the inner
    loop, on the state (q, E[i]): *)
Definition val_round (N p : Z) (s : Z * Z) : res (Z * Z + Z) :=
  let '(q, e) := s in
  if q <=? N then
    d <- divz N q ;;
    Ok (inl (wrap64 (q * p), wrap64 (e + d)))
  else Ok (inr e).

(** The inner loop.  The state after a round is a function of the state
    before it and q takes at most 2^64 values, so the rounds are counted
    in binary up to 2^64. *)
Definition valuation (N p : Z) : res Z :=
  x <- rounds 64 (val_round N p) (p, 0) ;;
  match x with
  | inl _ => Fuel
  | inr e => Ok e
  end.

Definition valuations (T : tables) (N maxpi : Z) : res (list Z) :=
  '(_, E) <- while_ (Z.to_nat maxpi + 1)
               (fun '(i, E) => i <=? maxpi)
               (fun '(i, E) =>
                  e <- valuation N (P T).[i] ;;
                  Ok (i + 1, zset E i (E.[i] + e)))
               (1, calloc (maxpi + 1)) ;;
  Ok E.

(** [for ( i = 1 ; i <= maxpi ; i++ ) assert (E[i] >= 0);] *)
Definition all_nonneg (E : list Z) (maxpi : Z) : bool :=
  forallb (fun i => E.[i] >=? 0) (zrange 1 (Z.to_nat maxpi)).

(** Conversion to [int32_t] of the sum accumulated in [int32_t x]. *)
Definition add32 (x n : Z) : Z := sint32 (x + n).

(** One record of [fac_verify]'s replay. The state is E, cnt, lastp,
    lastpi and nextpi. *)
Definition verify_item (T : tables) (N sqrtN t maxp : Z)
    (st : list Z * Z * Z * Z * Z) (r : fac_item)
  : res (list Z * Z * Z * Z * Z) :=
  let '(E, cnt, lastp, lastpi, nextpi) := st in
  _ <- assert (negb (it_n r =? 0) && (it_p r <? it_q r)
               && (it_q r <=? N)) ;;
  _ <- assert (it_m r * (it_p r + 1) >=? t) ;;
  if it_q r <=? maxp then
    '(_, E1, x) <- while_ (Z.to_nat (MAXPI T) + 1)
        (fun '(k, E, x) => k <=? (PI T).[it_q r])
        (fun '(k, E, x) =>
           Ok (k + 1, zset E k (E.[k] - it_n r), add32 x (it_n r)))
        ((PI T).[it_p r] + 1, E, 0) ;;
    let E2 := fsub E1 x (it_f r) in
    Ok (E2, cnt + x, it_q r, lastpi, nextpi)
  else
    let lastpi := if (it_p r =? lastp) && negb (nextpi =? 0)
                  then nextpi else pi T (it_p r) in
    let nextpi := pi T (it_q r) in
    _ <- assert (it_p r + 1 >? maxp) ;;
    _ <- (if it_q r <=? sqrtN then
            _ <- assert (N ÷ it_q r + N ÷ (it_q r * it_q r) =? it_n r) ;;
            assert (N ÷ (it_p r + 1)
                    + N ÷ ((it_p r + 1) * (it_p r + 1)) =? it_n r)
          else
            assert ((N ÷ (it_p r + 1) =? it_n r)
                    && (N ÷ it_q r =? it_n r))) ;;
    let x := it_n r * (nextpi - lastpi) in
    let E2 := fsub E x (fptr (F T) (M T).[it_m r]) in
    Ok (E2, cnt + x, it_q r, lastpi, nextpi).

Fixpoint verify_items (T : tables) (N sqrtN t maxp : Z)
    (st : list Z * Z * Z * Z * Z) (L : list fac_item)
  : res (list Z * Z * Z * Z * Z) :=
  match L with
  | [] => Ok st
  | r :: L' =>
      st' <- verify_item T N sqrtN t maxp st r ;;
      verify_items T N sqrtN t maxp st' L'
  end.

(** [fac_verify]; the model returns the final E together with the count
    that the source prints. *)
Definition fac_verify (T : tables) (v : fac) : res (list Z * Z) :=
  let N := fac_N v in
  let sqrtN := Z.sqrt N in
  let t := fac_t v in
  s <- fac_s T t ;;
  let maxpi := (PI T).[s - 1] in
  let maxp := (P T).[maxpi] in
  E <- valuations T N maxpi ;;
  '(E, cnt, _, _, _) <- verify_items T N sqrtN t maxp (E, 0, 0, 0, 0)
                          (fac_L v) ;;
  _ <- assert (all_nonneg E maxpi) ;;
  Ok (E, cnt).

(** ** Floating point

    [tfac] and [tbound] go through [double] arithmetic in four places; the
    model takes the integers that come out of them as parameters. *)

Record libm := mkLibm {
  pow_0625 : Z -> Z;        (* (int64_t)pow(t,0.625) *)
  pow_mcutoff : Z -> Z;     (* (int64_t)pow(t,MCUTOFF) *)
  feas_floor : list Z -> list Z -> Z -> Z -> Z;
      (* floorl(ebits/log(t-epsilon)) for ebits = sum of
         E[i]*log(P[i]+epsilon), from E, P, maxpi and t *)
  extrapolate : Z -> Z -> Z -> Z
      (* round(exp(log(t)+(cnt-N)*log(t)/N)), from t, cnt and N *)
}.

(** The largest k >= 1 with k^den <= t^num, that is floor(t^(num/den)),
    for t >= 1 and num <= den. *)
Definition root_floor (num den t : Z) : Z :=
  match while_ (Z.to_nat t + 1)
          (fun k => (k + 1) ^ den <=? t ^ num)
          (fun k => Ok (k + 1)) 1 with
  | Ok k => k
  | _ => 0
  end.

(** The largest k with t^k <= x, for t >= 2 and x >= 1. *)
Definition log_floor (t x : Z) : Z :=
  match while_ (Z.to_nat (Z.log2 x) + 2)
          (fun k => t ^ (k + 1) <=? x)
          (fun k => Ok (k + 1)) 0 with
  | Ok k => k
  | _ => 0
  end.

(** The product of P[i]^E[i] for i = 1..maxpi. *)
Definition eprod (P E : list Z) (maxpi : Z) : Z :=
  fold_right (fun i a => P.[i] ^ E.[i] * a) 1 (zrange 1 (Z.to_nat maxpi)).

(** The nearest integer to t^(num/den): the largest k with
    (2k-1)^den <= 2^den * t^num. *)
Definition root_round (num den t : Z) : Z :=
  match while_ (Z.to_nat (t * t) + 2)
          (fun k => (2 * k + 1) ^ den <=? 2 ^ den * t ^ num)
          (fun k => Ok (k + 1)) 0 with
  | Ok k => k
  | _ => 0
  end.

(** The four operations in exact arithmetic, with MCUTOFF = 0.225;
    exp(log(t)+(cnt-N)*log(t)/N) is t^(cnt/N). *)
Definition exact_libm : libm :=
  mkLibm (root_floor 5 8) (root_floor 9 40)
    (fun E P maxpi t => log_floor t (eprod P E maxpi))
    (fun t cnt N => root_round cnt N t).

Definition MAXN : Z := 2 ^ 48 - 1.

(** ** The counter [tfac] *)

Section Tfac.
Variable lm : libm.
Variable T : tables.
Variables N t : Z.
Variable fuel : nat.

Let sqrtN : Z := Z.sqrt N.

(** [F+M[m]] *)
Definition FM (m : Z) : list pp := fptr (F T) (M T).[m].

(** The candidate list [Ms]: every m < s, then the m in [s,maxm] with
    F[M[m]].pi nonzero and at most PI[t/m] (fast) or maxpi. *)
Definition build_Ms (fast : bool) (s maxpi maxm : Z) : list Z :=
  zrange 0 (Z.to_nat s) ++
  filter (fun m => negb (fpi (FM m) =? 0) &&
                   (fpi (FM m) <=? (if fast then (PI T).[t ÷ m] else maxpi)))
         (zrange s (Z.to_nat (maxm + 1 - s))).

(** Tier (a): [while ( (p = primesieve_next_prime(&ctx)) <= sqrtN )].
    State: E, cnt, v, m, ctx; the result adds the prime that ended the
    loop. *)
Definition tier_a (st : list Z * Z * option fac * Z * Z)
  : res (list Z * Z * option fac * Z * Z * Z) :=
  loop fuel
    (fun '(E, cnt, v, m, ctx) =>
       '(p, ctx) <- primesieve_next_prime ctx ;;
       if p <=? sqrtN then
         m <- while_ fuel (fun m => (m - 1) * p >=? t)
                (fun m => Ok (m - 1)) m ;;
         let n := N ÷ p + N ÷ (p * p) in
         let E := fsub E n (FM m) in
         let cnt := cnt + n in
         v <- when_cert v (fun v => fac_extend_mp v n m (FM m) p) ;;
         Ok (inl (E, cnt, v, m, ctx))
       else Ok (inr (E, cnt, v, m, ctx, p)))
    st.

(** Tier (b): [for ( ; p <= plmmax ; )].
    State: E, cnt, v, m, ctx, p, pmmax, n, pnmax, pmin. *)
Definition tier_b (plmmax : Z)
    (st : list Z * Z * option fac * Z * Z * Z * Z * Z * Z * Z)
  : res (list Z * Z * option fac * Z * Z * Z * Z * Z * Z * Z) :=
  while_ fuel
    (fun '(E, cnt, v, m, ctx, p, pmmax, n, pnmax, pmin) => p <=? plmmax)
    (fun '(E, cnt, v, m, ctx, p, pmmax, n, pnmax, pmin) =>
       '(m, pmmax) <- while_ fuel (fun '(m, pmmax) => p >? pmmax)
                        (fun '(m, pmmax) =>
                           pmmax <- divz (t - 1) (m - 1 - 1) ;;
                           Ok (m - 1, pmmax))
                        (m, pmmax) ;;
       '(n, pnmax) <- while_ fuel (fun '(n, pnmax) => p >? pnmax)
                        (fun '(n, pnmax) =>
                           pnmax <- divz N (n - 1) ;;
                           Ok (n - 1, pnmax))
                        (n, pnmax) ;;
       let pmax := min pmmax pnmax in
       _ <- assert (p <=? pmax) ;;
       '(c, ctx, p') <- loop fuel
                          (fun '(c, ctx) =>
                             '(p, ctx) <- primesieve_next_prime ctx ;;
                             if p <=? pmax then Ok (inl (c + 1, ctx))
                             else Ok (inr (c, ctx, p)))
                          (1, ctx) ;;
       let E := fsub E (c * n) (FM m) in
       let cnt := cnt + c * n in
       match v with
       | Some v0 =>
           v1 <- fac_extend v0 n m (FM m) pmin pmax c ;;
           Ok (E, cnt, Some v1, m, ctx, p', pmmax, n, pnmax, p' - 1)
       | None => Ok (E, cnt, None, m, ctx, p', pmmax, n, pnmax, pmin)
       end)
    st.

(** Tier (c): [for ( m = mid ; m > 1 ; m-- )] with its inner
    [while ( pmin < pmax )].  State: E, cnt, v, pmin, lastpi, m. *)
Definition tier_c (st : list Z * Z * option fac * Z * Z * Z)
  : res (list Z * Z * option fac * Z * Z * Z) :=
  while_ fuel
    (fun '(E, cnt, v, pmin, lastpi, m) => m >? 1)
    (fun '(E, cnt, v, pmin, lastpi, m) =>
       p <- cdivz t m ;;
       pmax <- divz (t - 1) (m - 1) ;;
       n <- divz N p ;;
       d <- divz N n ;;
       let pnmax := min d pmax in
       '(E, cnt, v, pmin, lastpi, n, pnmax) <-
         while_ fuel
           (fun '(E, cnt, v, pmin, lastpi, n, pnmax) => pmin <? pmax)
           (fun '(E, cnt, v, pmin, lastpi, n, pnmax) =>
              let nextpi := pi T pnmax in
              let c := nextpi - lastpi in
              let cnt := cnt + c * n in
              let E := fsub E (c * n) (FM m) in
              v <- when_cert v
                     (fun v => fac_extend v n m (FM m) pmin pnmax c) ;;
              d <- divz N (n - 1) ;;
              Ok (E, cnt, v, pnmax, nextpi, n - 1, min d pmax))
           (E, cnt, v, pmin, lastpi, n, pnmax) ;;
       Ok (E, cnt, v, pmin, lastpi, m - 1))
    st.

(** The primes in [t,N]: cofactor 3, 2 and 1. *)
Definition bands (cnt : Z) (v : option fac) (lastpi : Z)
  : res (Z * option fac) :=
  '(cnt, v, lastpi) <-
    (if 3 * t <=? N then
       let nextpi := pi T (N ÷ 3) in
       v <- when_cert v
              (fun v => fac_extend v 3 1 (FM 1) (t - 1) (N ÷ 3)
                          (nextpi - lastpi)) ;;
       Ok (cnt + 3 * (nextpi - lastpi), v, nextpi)
     else Ok (cnt, v, lastpi)) ;;
  let nextpi := pi T (N ÷ 2) in
  let cnt := cnt + 2 * (nextpi - lastpi) in
  v <- when_cert v
         (fun v => fac_extend v 2 1 (FM 1) (max (t - 1) (N ÷ 3)) (N ÷ 2)
                     (nextpi - lastpi)) ;;
  let lastpi := nextpi in
  let nextpi := pi T N in
  let cnt := cnt + (nextpi - lastpi) in
  v <- when_cert v
         (fun v => fac_extend v 1 1 (FM 1) (N ÷ 2) N (nextpi - lastpi)) ;;
  Ok (cnt, v).

(** The shared first phase, from the candidate list on.  Returns E, cnt
    and v. *)
Definition phase1 (s maxpi maxm : Z) (Ms : list Z) (E : list Z)
    (v : option fac) : res (list Z * Z * option fac) :=
  m <- cdivz t s ;;
  _ <- assert ((m <=? maxm) && (Ms.[m] =? m)) ;;
  d <- divz (t - 1) sqrtN ;;
  let mid := min (pow_mcutoff lm t) d in
  let mid := if sqrtN * mid >=? t then d else mid in
  plmmax <- divz (t - 1) mid ;;          (* primesieve_start(s,(t-1)/mid) *)
  '(E, cnt, v, m, ctx, p) <- tier_a (E, 0, v, m, s) ;;
  pmmax <- divz (t - 1) (m - 1) ;;
  c <- cdivz t p ;;
  _ <- assert ((p >? pmmax) || (m =? c)) ;;
  n <- divz N (sqrtN + 1) ;;
  pnmax <- divz N n ;;
  let pmin := p - 1 in
  '(E, cnt, v, _, _, _, _, _, _, _) <-
    tier_b plmmax (E, cnt, v, m, ctx, p, pmmax, n, pnmax, pmin) ;;
  let lastpi := pi T plmmax in
  let pmin := plmmax in
  '(E, cnt, v, _, lastpi, _) <- tier_c (E, cnt, v, pmin, lastpi, mid) ;;
  _ <- assert (lastpi =? pi T (t - 1)) ;;
  '(cnt, v) <- bands cnt v lastpi ;;
  _ <- assert (all_nonneg E maxpi) ;;
  Ok (E, cnt, v).

(** [while ( i && !E[i] ) i--;] *)
Definition skip_zeros (E : list Z) (i : Z) : res Z :=
  while_ fuel (fun i => negb (i =? 0) && (E.[i] =? 0))
    (fun i => Ok (i - 1)) i.

(** [for ( ii = i ; ii && q < t ; ii-- )
      for ( x = 0 ; x < E[ii] && q < t ; x++ ) q *= P[ii];] *)
Definition residue_upto (E : list Z) (i : Z) : res Z :=
  '(_, q) <- while_ fuel
               (fun '(ii, q) => negb (ii =? 0) && (q <? t))
               (fun '(ii, q) =>
                  '(_, q) <- while_ fuel
                               (fun '(x, q) => (x <? E.[ii]) && (q <? t))
                               (fun '(x, q) => Ok (x + 1, q * (P T).[ii]))
                               (0, q) ;;
                  Ok (ii - 1, q))
               (i, 1) ;;
  Ok q.

(** The standard greedy second phase.  State: E, cnt, v, pcnt, i, j. *)
Definition greedy (s maxpi numm : Z) (Ms : list Z) (E : list Z) (cnt : Z)
    (v : option fac) : res (list Z * Z * option fac) :=
  let pcnt := fold_right Z.add 0
                (map (fun i => E.[i]) (zrange 0 (Z.to_nat (maxpi + 1)))) in
  j <- cdivz t s ;;
  loop fuel
    (fun '(E, cnt, v, pcnt, i, j) =>
       if i =? 0 then Ok (inr (E, cnt, v))
       else
         j <- while_ fuel
                (fun j => (j <=? numm) &&
                          (((P T).[i] * Ms.[j] <? t)
                           || (fpi (FM Ms.[j]) >? i)))
                (fun j => Ok (j + 1)) j ;;
         let f := FM Ms.[j] in
         if j >? numm then Ok (inr (E, cnt, v))
         else
           e <- fcnti E i f ;;
           if e =? 0 then
             if pcnt <? 40 then
               q <- residue_upto E i ;;
               if q <? t then Ok (inr (E, cnt, v))
               else Ok (inl (E, cnt, v, pcnt, i, j + 1))
             else Ok (inl (E, cnt, v, pcnt, i, j + 1))
           else
             let cnt := cnt + e in
             let E := zset E i (E.[i] - e) in
             let pcnt := pcnt - e in
             let pcnt := fold_left (fun a x => a - e * pp_e x)
                           (entries f) pcnt in
             let E := fsub E e f in
             (* f now points at the sentinel *)
             v <- when_cert v
                    (fun v => fac_extend_mp v e Ms.[j] (fend f)
                                (P T).[i]) ;;
             i <- skip_zeros E i ;;
             Ok (inl (E, cnt, v, pcnt, i, j)))
    (E, cnt, v, pcnt, maxpi, j).

(** [for ( k = k0 ; k <= numm ; k++ )
      { g = F+M[Ms[k]]; x = fcnt(E,cap,g);
        if ( x > e ) { e = x; f = g; m = Ms[k]; if ( e == E[i] ) break; } }]
    from e = 0.  Returns e, f and m. *)
Definition best_cofactor (Ms : list Z) (E : list Z) (cap Ei numm k0 : Z)
    (f0 : list pp) (m0 : Z) : res (Z * list pp * Z) :=
  loop fuel
    (fun '(k, e, f, m) =>
       if k <=? numm then
         let g := FM Ms.[k] in
         let x := fcnt E cap g in
         if x >? e then
           if x =? Ei then Ok (inr (x, g, Ms.[k]))
           else Ok (inl (k + 1, x, g, Ms.[k]))
         else Ok (inl (k + 1, e, f, m))
       else Ok (inr (e, f, m)))
    (k0, 0, f0, m0).

(** One prime of the first pass of the fast variant: the body of
    [for ( i = maxpi, j = cdiv(t,s) ; i >= pimin ; i-- )]. *)
Definition fast_prime (numm : Z) (Ms : list Z)
    (st : list Z * Z * option fac * Z * Z)
  : res (list Z * Z * option fac * Z * Z) :=
  let '(E, cnt, v, i, j) := st in
  let Pi := (P T).[i] in
  j <- while_ fuel
         (fun j => (Pi * Ms.[j] <? t) || (fpi (FM Ms.[j]) >=? i))
         (fun j => _ <- assert (j <=? numm) ;; Ok (j + 1)) j ;;
  let f := FM Ms.[j] in
  let e := fcnt E E.[i] f in
  '(E, cnt, v, e) <-
    (if e <? E.[i] then
       m <- cdivz t (Pi * Pi) ;;
       let g := FM m in
       let e := fcnt E (E.[i] ÷ 2) g in
       '(E, cnt, v) <-
         (if negb (e =? 0) then
            v <- when_cert v (fun v => fac_extend_mp2 T v e m g i) ;;
            Ok (fsub (zset E i (E.[i] - 2 * e)) e g, cnt + e, v)
          else Ok (E, cnt, v)) ;;
       Ok (E, cnt, v, fcnt E E.[i] f)
     else Ok (E, cnt, v, e)) ;;
  '(E, cnt, v) <-
    (if negb (e =? 0) then
       v <- when_cert v (fun v => fac_extend_mp v e Ms.[j] f Pi) ;;
       Ok (fsub (zset E i (E.[i] - e)) e f, cnt + e, v)
     else Ok (E, cnt, v)) ;;
  '(E, cnt, v) <-
    (if negb (E.[i] =? 0) then
       '(e, f, m) <- best_cofactor Ms E E.[i] E.[i] numm (j + 1) f 0 ;;
       '(E, cnt, v) <-
         (if negb (e =? 0) then
            v <- when_cert v (fun v => fac_extend_mp v e m f Pi) ;;
            Ok (fsub (zset E i (E.[i] - e)) e f, cnt + e, v)
          else Ok (E, cnt, v)) ;;
       if negb (E.[i] =? 0) then
         m <- cdivz t (Pi * Pi) ;;
         let m := m + 1 in
         _ <- assert (Ms.[m] =? m) ;;
         '(e, f, m) <- best_cofactor Ms E (E.[i] ÷ 2) E.[i] numm m [] m ;;
         if negb (e =? 0) then
           v <- when_cert v (fun v => fac_extend_mp2 T v e m f i) ;;
           Ok (fsub (zset E i (E.[i] - 2 * e)) e f, cnt + e, v)
         else Ok (E, cnt, v)
       else Ok (E, cnt, v)
     else Ok (E, cnt, v)) ;;
  Ok (E, cnt, v, i - 1, j).

(** [q *= P[i]; E[i]--;
     if ( (f-1)->pi == i ) { (f-1)->e++; }
     else { f->pi = i; f->e = 1; (++f)->pi = 0; }]
    The array [c] is kept without its sentinel, last entry first. *)
Definition push_prime (c : list pp) (i : Z) : list pp :=
  match c with
  | x :: c' =>
      if pp_pi x =? i then mk_pp (pp_pi x) (pp_e x + 1) :: c'
      else mk_pp i 1 :: c
  | [] => [mk_pp i 1]
  end.

(** [c] as the zero-terminated array the source holds. *)
Definition carr (c : list pp) : list pp := rev c ++ [pp0].

(** The packing loop of the fast variant, [while ( maxpi )].  State: E,
    cnt, v, maxpi and the outer [m]; the loop ends with the partial
    factor [c] that was not removed. *)
Definition pack (s : Z) (st : list Z * Z * option fac * Z * Z)
  : res (list Z * Z * option fac * Z * list pp) :=
  let good := 5 * cdiv t 4 in
  loop fuel
    (fun '(E, cnt, v, maxpi, m) =>
       if maxpi =? 0 then Ok (inr (E, cnt, v, maxpi, []))
       else
         maxpi <- skip_zeros E maxpi ;;
         if maxpi =? 0 then Ok (inr (E, cnt, v, maxpi, []))
         else
           let i := maxpi in
           let q := (P T).[i] in
           let c := [mk_pp i 1] in
           let E := zset E i (E.[i] - 1) in
           i <- skip_zeros E i ;;
           if i =? 0 then Ok (inr (E, cnt, v, maxpi, c))
           else
             '(E, q, c, i) <-
               while_ fuel
                 (fun '(E, q, c, i) =>
                    negb (i =? 0) && (q * (P T).[i] <? good))
                 (fun '(E, q, c, i) =>
                    let q := q * (P T).[i] in
                    let E := zset E i (E.[i] - 1) in
                    let c := push_prime c i in
                    i <- skip_zeros E i ;;
                    Ok (E, q, c, i))
                 (E, q, c, i) ;;
             if (i =? 0) && (q <? t) then Ok (inr (E, cnt, v, maxpi, c))
             else
               let e := 1 + fcnt E (E.[fpi (carr c)] ÷ fe (carr c))
                              (tl (carr c)) in
               x <- (if q <? t then
                       _ <- assert (q >? s) ;;
                       m0 <- cdivz t q ;;
                       '(b, g, m) <-
                         loop fuel
                           (fun '(b, g, m) =>
                              if m <? (P T).[fpi c] then
                                let x := fcnt E e (FM m) in
                                let '(b, g) :=
                                  if x >? b then (x, FM m) else (b, g) in
                                if x =? e then Ok (inr (b, g, m))
                                else Ok (inl (b, g, m + 1))
                              else Ok (inr (b, g, m)))
                           (0, [], m0) ;;
                       if negb (b =? 0) then
                         let E := fsub E 1 g in
                         let c := rev (entries g) ++ c in
                         let q := q * m in
                         _ <- assert (q >=? t) ;;
                         Ok (Some (E, q, c, i, b, m))
                       else if i =? 0 then Ok None
                       else
                         let q := q * (P T).[i] in
                         let E := zset E i (E.[i] - 1) in
                         let c := push_prime c i in
                         let b := 1 + fcnt E (E.[fpi (carr c)] ÷ fe (carr c))
                                        (tl (carr c)) in
                         _ <- assert (negb (b =? 0)) ;;
                         _ <- assert (q >=? t) ;;
                         Ok (Some (E, q, c, i, b, m))
                     else Ok (Some (E, q, c, i, e, m))) ;;
               match x with
               | None => Ok (inr (E, cnt, v, maxpi, c))
               | Some (E, q, c, i, e, m) =>
                   v <- when_cert v
                          (fun v => fac_extend_m T v e q (carr c)) ;;
                   let cnt := cnt + e in
                   let E := fsub E (e - 1) (carr c) in
                   Ok (inl (E, cnt, v, i, m))
               end)
    st.

(** The fast second phase.  Returns E, cnt, v and the lowered maxpi. *)
Definition fast_greedy (s maxpi maxm numm : Z) (Ms : list Z) (E : list Z)
    (cnt : Z) (v : option fac) : res (list Z * Z * option fac * Z) :=
  c <- cdivz t maxm ;;
  let pimin := pi T c + 1 in
  j <- cdivz t s ;;
  '(E, cnt, v, _, _) <-
    while_ fuel (fun '(E, cnt, v, i, j) => i >=? pimin)
      (fast_prime numm Ms) (E, cnt, v, maxpi, j) ;;
  maxpi <- skip_zeros E maxpi ;;
  m <- cdivz t s ;;
  '(E, cnt, v, maxpi, c) <- pack s (E, cnt, v, maxpi, m) ;;
  (* restore any partial factor that was not removed *)
  let E := fsub E (-1) (carr c) in
  Ok (E, cnt, v, maxpi).

(** [q = 1; for ( i = 1 ; i <= maxpi ; i++ ) { assert (E[i] >= 0);
      for ( e = 0 ; e < E[i] ; e++ ) { q *= P[i]; assert (q<t); } }] *)
Definition closing (E : list Z) (maxpi : Z) : res Z :=
  '(_, q) <-
    while_ fuel (fun '(i, q) => i <=? maxpi)
      (fun '(i, q) =>
         _ <- assert (E.[i] >=? 0) ;;
         '(_, q) <- while_ fuel (fun '(e, q) => e <? E.[i])
                      (fun '(e, q) =>
                         let q := q * (P T).[i] in
                         _ <- assert (q <? t) ;;
                         Ok (e + 1, q))
                      (0, q) ;;
         Ok (i + 1, q))
      (1, 1) ;;
  Ok q.

(** [tfac], returning with the count the state the source ends with: the
    valuation vector, the residue q and the certificate. *)
Definition tfac_run (fast feasible verify : bool)
  : res (Z * list Z * Z * option fac) :=
  _ <- assert ((N >=? 10) && (N <? MAXN) && (4 * t >? N) && (2 * t <? N)) ;;
  s <- fac_s T t ;;
  let maxpi := (PI T).[s - 1] in
  E <- valuations T N maxpi ;;
  _ <- (if negb fast then assert (t <=? MAXM T + 1) else Ok tt) ;;
  let maxm := if fast then pow_0625 lm t else t - 1 in
  _ <- assert (maxm <=? MAXM T) ;;
  _ <- assert (s - 1 <=? maxm) ;;         (* Ms[1..s-1] lie in the block *)
  let Ms := build_Ms fast s maxpi maxm in
  let numm := Z.of_nat (length Ms) - 1 in
  let maxm := Ms.[numm] in
  let v := if verify then Some (fac_alloc N t) else None in
  '(E, cnt, v) <- phase1 s maxpi maxm Ms E v ;;
  if feasible then Ok (cnt + feas_floor lm E (P T) maxpi t, E, 0, v)
  else
    '(E, cnt, v, maxpi) <-
      (if negb fast then
         '(E, cnt, v) <- greedy s maxpi numm Ms E cnt v ;;
         Ok (E, cnt, v, maxpi)
       else fast_greedy s maxpi maxm numm Ms E cnt v) ;;
    maxpi <- skip_zeros E maxpi ;;
    q <- closing E maxpi ;;
    _ <- match v with
         | Some v0 => if verify then _ <- fac_verify T v0 ;; Ok tt else Ok tt
         | None => Ok tt
         end ;;
    Ok (cnt, E, q, v).

End Tfac.

(** The fuel handed to every loop of [tfac]. *)
Definition tfac_fuel (N : Z) : nat := Z.to_nat (4 * N + 64).

(** [int64_t tfac (N, t, fast, feasible, verbosity, verify, dumpfile)]:
    verbosity and the dump file only drive output. *)
Definition tfac (lm : libm) (T : tables) (N t : Z)
    (fast feasible verify : bool) : res Z :=
  '(cnt, _, _, _) <- tfac_run lm T N t (tfac_fuel N) fast feasible verify ;;
  Ok cnt.

(** ** The search [tbound] *)

Section Tbound.
Variable lm : libm.
Variable T : tables.
Variables (N : Z) (fast verify : bool).

(** [tfac(N,t,fast,0,verbosity,verify,0)] *)
Definition count (t : Z) : res Z := tfac lm T N t fast false verify.

(** [while ( cnt < N ) cnt = tfac(N,--t,...);] *)
Fixpoint descend (fuel : nat) (t cnt : Z) : res (Z * Z) :=
  match fuel with
  | O => Fuel
  | S k =>
      if cnt <? N then
        cnt' <- count (t - 1) ;;
        descend k (t - 1) cnt'
      else Ok (t, cnt)
  end.

(** The probe of the modified bisection, clamped into (tmin,tmax). *)
Definition next_probe (tmin tmax t cnt : Z) : Z :=
  let t := extrapolate lm t cnt N in
  let t := if t <=? tmin then max ((3 * tmin + tmax) ÷ 4) (tmin + 1)
           else t in
  if t >=? tmax then min ((tmin + 3 * tmax) ÷ 4) (tmax - 1) else t.

(** [while ( tmin < tmax-1 ) { ... }] *)
Fixpoint bisect (fuel : nat) (tmin tmax t cnt : Z) : res (Z * Z) :=
  match fuel with
  | O => Fuel
  | S k =>
      if tmin <? tmax - 1 then
        let tmin := if cnt >=? N then max t tmin else tmin in
        let tmax := if cnt >=? N then tmax else min t tmax in
        let t := next_probe tmin tmax t cnt in
        cnt <- count t ;;
        bisect k tmin tmax t cnt
      else Ok (tmin, tmax)
  end.

(** The binary search in feasibility mode for an upper bound:
    [while ( low < high-1 ) { ... }].  State: low, high, tmax. *)
Fixpoint upper (fuel : nat) (low high tmax : Z) : res Z :=
  match fuel with
  | O => Fuel
  | S k =>
      if low <? high - 1 then
        let mid := (low + high) ÷ 2 in
        cnt <- tfac lm T N mid fast true false ;;
        if cnt <? N then upper k low mid mid else upper k mid high tmax
      else Ok tmax
  end.

(** The exhaustive pass over tmin < t < tmax.  The source splits the
    values of t over threads, each raising the shared tmin under a lock;
    the maximum that results does not depend on the schedule, and the
    model takes the values in ascending order. *)
Fixpoint exhaust (ts : list Z) (tmin : Z) : res Z :=
  match ts with
  | [] => Ok tmin
  | t :: ts' =>
      cnt <- tfac lm T N t fast false false ;;
      exhaust ts' (if cnt >=? N then max tmin t else tmin)
  end.

(** [int64_t tbound (N, a, b, fast, exhaustive, verbosity, verify)].
    a and b are [int]: the products of
    [assert (a*5 <= 2*b && a*4 >= b)] are taken in 32 bits, and the
    product of [cdiv(a*N,b)] in [int64_t]. *)
Definition tbound (a b : Z) (exhaustive : bool) : res Z :=
  _ <- assert ((sint32 (a * 5) <=? sint32 (2 * b))
               && (sint32 (a * 4) >=? b)) ;;
  t <- cdivz (wrap64 (a * N)) b ;;
  cnt <- count t ;;
  '(t, cnt) <- descend (Z.to_nat t + 1) t cnt ;;
  let tmin := t in
  let tmax := (2 * N) ÷ 5 in
  '(tmin, tmax) <- bisect (Z.to_nat (tmax - tmin) + 2) tmin tmax t cnt ;;
  _ <- assert (tmax <? (2 * N) ÷ 5) ;;
  if negb exhaustive then Ok tmin
  else
    let low := tmin in
    let high := (2 * N) ÷ 5 in
    cnt <- tfac lm T N high fast true false ;;
    _ <- assert (cnt <? N) ;;
    tmax <- upper (Z.to_nat (high - low) + 1) low high tmax ;;
    _ <- assert (tmax >? tmin) ;;
    tmin <- exhaust (zrange (tmin + 1) (Z.to_nat (tmax - tmin - 1))) tmin ;;
    _ <- (if verify then _ <- tfac lm T N tmin fast false verify ;; Ok tt
          else Ok tt) ;;
    Ok tmin.

End Tbound.

(** A target that reaches N factors, and one that does not. *)
Definition good_t (lm : libm) (T : tables) (N : Z) (fast verify : bool)
    (x : Z) : Prop :=
  exists c, count lm T N fast verify x = Ok c /\ N <= c.

Definition bad_t (lm : libm) (T : tables) (N : Z) (fast verify : bool)
    (x : Z) : Prop :=
  exists c, count lm T N fast verify x = Ok c /\ c < N.

(** ** Preconditions of the counter *)

(** The s of [fac_s]: the least s >= floor(sqrt t) with s(s-1) >= t. *)
Definition s_of (t : Z) : Z :=
  let s := Z.sqrt t in
  if (s + 1) * s <? t then s + 2 else s + 1.

(** The bound on the cofactors: t-1, or t^0.625 for the fast variant. *)
Definition maxm_of (lm : libm) (t : Z) (fast : bool) : Z :=
  if fast then pow_0625 lm t else t - 1.

(** The precondition as the specification states it. *)
Definition spec_pre (lm : libm) (T : tables) (N t : Z) (fast : bool)
  : Prop :=
  14 <= N < 2 ^ 48 /\ 2 * t < N < 4 * t /\
  s_of t <= MAXP T /\ maxm_of lm t fast <= MAXM T.

(** The precondition that [tfac] asserts. *)
Definition code_pre (lm : libm) (T : tables) (N t : Z) (fast : bool)
  : Prop :=
  10 <= N < 2 ^ 48 - 1 /\ 2 * t < N < 4 * t /\
  s_of t <= MAXP T /\ maxm_of lm t fast <= MAXM T.

(** ** Fixed tables for the examples: primes up to 17, cofactors up to
    201. *)
Definition empty_tables : tables := mkTables 0 0 0 [] [] [] [].

Definition T17 : tables :=
  match setup 17 201 with
  | Ok T => T
  | _ => empty_tables
  end.

Definition is_ok (r : res Z) : bool :=
  match r with
  | Ok _ => true
  | _ => false
  end.

Definition res_val (r : res Z) : Z :=
  match r with
  | Ok z => z
  | _ => 0
  end.

(** The invariant of the records of a certificate for target t. *)
Definition item_ok (t : Z) (r : fac_item) : Prop :=
  it_m r * (it_p r + 1) >= t.

(** The counts over a row of targets are non-increasing. *)
Fixpoint non_increasing (l : list Z) : bool :=
  match l with
  | a :: ((b :: _) as l') => (a >=? b) && non_increasing l'
  | _ => true
  end.

(** The valid targets for N: N/4 < t < N/2. *)
Definition targets (N : Z) : list Z :=
  zrange (N ÷ 4 + 1) (Z.to_nat ((N - 1) ÷ 2 - N ÷ 4)).

(** Every valid target returns, and the counts do not increase with t. *)
Definition row_monotone (fast : bool) (N : Z) : bool :=
  let row := map (fun t => tfac exact_libm T17 N t fast false false)
                 (targets N) in
  forallb is_ok row && non_increasing (map res_val row).

(** ** Invariants of the table construction *)

(** P[1..MAXPI] lists exactly the primes up to MAXP. *)
Definition prime_table (P : list Z) (MAXP MAXPI : Z) : Prop :=
  (forall i, 1 <= i <= MAXPI -> Z.prime P.[i] /\ P.[i] <= MAXP) /\
  (forall p, Z.prime p -> p <= MAXP -> exists i, 1 <= i <= MAXPI /\ P.[i] = p).

(** v is the largest index j in [1,hi] with P[j] | q, or 0 without one:
    what the sieve leaves in M[q]. *)
Definition largest_idx (P : list Z) (hi q v : Z) : Prop :=
  (v = 0 \/ (1 <= v <= hi /\ (P.[v] | q))) /\
  (forall j, v < j <= hi -> ~ (P.[j] | q)).

(** The factorization l is stored at offset off of the arena F, followed
    by its sentinel. *)
Definition fac_at (F : list pp) (off : Z) (l : list pp) : Prop :=
  exists pre rest,
    F = pre ++ l ++ pp0 :: rest /\
    Z.of_nat (length pre) = off /\
    Forall (fun x => pp_pi x <> 0) l.

(** The finished entry M[q] = v: nonzero exactly for smooth q, and then
    the offset of a factorization of q. *)
Definition entry_ok (P : list Z) (B : Z) (F : list pp) (q v : Z) : Prop :=
  (v <> 0 <-> smooth B q) /\
  (v <> 0 -> exists l, fac_at F v l /\ pprod P l = q /\ fac_wf l).

(** Entries written by the factoring loop, most recent first: strictly
    increasing prime indices above b. *)
Fixpoint ascending (b : Z) (l : list pp) : Prop :=
  match l with
  | [] => True
  | x :: l' => b < pp_pi x /\ ascending (pp_pi x) l'
  end.

Definition ok_entry (hi : Z) (x : pp) : Prop :=
  1 <= pp_pi x <= hi /\ 1 <= pp_e x.

(** ** Invariants of the certificate *)

(** A certificate for target t whose records all satisfy the invariant. *)
Definition cert_ok (t : Z) (v : fac) : Prop :=
  fac_t v = t /\ Forall (item_ok t) (fac_L v).

Definition opt_ok (t : Z) (v : option fac) : Prop :=
  match v with
  | Some v0 => cert_ok t v0
  | None => True
  end.

(** ** Invariants of the second phase *)

(** No negative valuation among E[1..hi]. *)
Definition nonneg_upto (E : list Z) (hi : Z) : Prop :=
  forall i, 1 <= i <= hi -> 0 <= E.[i].

(** What the second phase has removed from the vector E0 when it has
    reached E with d more factors: d factors of size at least t. *)
Definition removed (P : list Z) (hi t : Z) (E0 E : list Z) (d : Z) : Prop :=
  0 <= d /\ nonneg_upto E hi /\ t ^ d * eprod P E hi <= eprod P E0 hi.

(** What the second phase needs of the floating-point bound of the
    feasibility mode: it is not below the exact floor of the logarithm to
    base t of the product that remains. *)
Definition feas_sound (lm : libm) (P : list Z) (hi t : Z) : Prop :=
  forall E d, nonneg_upto E hi -> 0 <= d -> t ^ d <= eprod P E hi ->
              d <= feas_floor lm E P hi t.

(** ** The inner loop of the valuations, round by round *)

(** The state (q, E[i]) after one more round that goes on. *)
Definition val_next (N p : Z) (s : Z * Z) : Z * Z :=
  (wrap64 (fst s * p), wrap64 (snd s + N ÷ fst s)).

(** The state after j rounds that go on. *)
Fixpoint val_states (N p : Z) (j : nat) : Z * Z :=
  match j with
  | O => (p, 0)
  | S j' => val_next N p (val_states N p j')
  end.

Definition val_state (N p j : Z) : Z * Z := val_states N p (Z.to_nat j).

(** ** Notions for the helpers of [tfac] *)

(** k copies of P[i]*m fit into E, for m with factorization f: k times the
    exponent of every prime of P[i]*m is available. *)
Definition uses (E : list Z) (i : Z) (f : list pp) (k : Z) : Prop :=
  k * (1 + (if fpi f =? i then fe f else 0)) <= E.[i] /\
  forall x, In x (entries f) -> pp_pi x <> i -> k * pp_e x <= E.[pp_pi x].

(** The record that a call of [fac_extend] appended. *)
Definition last_item (v : fac) : fac_item :=
  last (fac_L v) (mkItem 0 0 [] 0 0 0).

(** k! as an integer. *)
Fixpoint zfact (k : nat) : Z :=
  match k with
  | O => 1
  | S k' => Z.of_nat k * zfact k'
  end.

(** ** Notions for the certificates *)

(** A record for one prime that carries no factorization of its
    cofactor: what [fac_extend_mp] writes when [f] points at a
    terminator. *)
Definition bare (r : fac_item) : Prop :=
  it_f r = [pp0] /\ it_q r = it_p r + 1 /\ it_c r = 1 /\ it_n r <> 0.

(** The sum of the multiplicities of a list of records. *)
Definition total_n (L : list fac_item) : Z :=
  fold_right Z.add 0 (map it_n L).

(** The certificate of the standard variant for N = 30 and t = 8. *)
Definition cert_30_8 : fac :=
  match tfac_run exact_libm T17 30 8 (tfac_fuel 30) false false true with
  | Ok (_, _, _, Some v) => v
  | _ => fac_alloc 30 8
  end.

(** ** [main]: table sizes, the sweep over a range of N, the hint file

    The parsing of the command line and of the lines of the hint file,
    and the messages, are outside the model: it starts from the parsed
    values and returns what the source decides from them. *)

(** The tables before [setup]: only the static bounds are set. *)
Definition initial_tables : tables :=
  mkTables MAXP_init MAXPI_init MAXM_init [] [] [] [].

(** What [main] does between the parsing of its arguments and the first
    query: the range checks, the sizes of the tables and [setup].  [None]
    stands for the exits with an error message ([return -1]). *)
Definition main_setup (lm : libm) (fast : bool) (minN maxN t : Z)
  : res (option tables) :=
  if (minN <? 14) || (maxN >? MAXN) then Ok None
  else if negb (t =? 0) && (4 * t <=? maxN) then Ok None
  else
    let maxt := 2 * maxN ÷ 5 in
    maxp <- fac_s initial_tables maxt ;;
    let maxm := if fast then pow_0625 lm maxt else maxt - 1 in
    if (maxp >? MAXP_init) || (maxm >? MAXM_init) then
      _ <- assert (negb fast) ;;
      Ok None
    else
      T <- setup maxp maxm ;;
      Ok (Some T).

(** A product of the [int] a or b with an [int64_t], taken in
    [int64_t]. *)
Definition mul64 (x y : Z) : res Z :=
  _ <- assert ((- INT64_MAX - 1 <=? x * y) && (x * y <=? INT64_MAX)) ;;
  Ok (x * y).

Section MainLoops.
Variable lm : libm.
Variable T : tables.
Variables (fast exhaustive verify : bool).
Variables (a b : Z).
Variables (minN maxN : Z).

(** The sweep over minN..maxN when the hints are created:
    [while ( N <= maxN ) { t = tbound(N,a,b,...);
       if ( b*t < a*N ) break;
       if ( fp ) fprintf(fp,"%ld:%ld\n",N,t);
       N = b*t/a+1; }]
    The model returns the N the loop ends with and the pairs N:t of the
    lines written, in order. *)
Fixpoint sweep (fuel : nat) (N : Z) : res (Z * list (Z * Z)) :=
  match fuel with
  | O => Fuel
  | S k =>
      if N <=? maxN then
        t <- tbound lm T N fast verify a b exhaustive ;;
        bt <- mul64 b t ;;
        aN <- mul64 a N ;;
        if bt <? aN then Ok (N, [])
        else
          N1 <- divz bt a ;;
          '(N', hints) <- sweep k (N1 + 1) ;;
          Ok (N', (N, t) :: hints)
      else Ok (N, [])
  end.

(** The ratio a/b with which [main] reaches the sweep: 1/3, or the
    argument a/b, on which the parsing has
    [assert (a > 0 && b > 0 && 4*a >= b && 5*a <= 2*b)], the products
    taken in 32 bits. *)
Definition ratio_ok : bool :=
  (a >? 0) && (b >? 0) && (sint32 (4 * a) >=? b)
  && (sint32 (5 * a) <=? sint32 (2 * b)).

Definition main_sweep : res (Z * list (Z * Z)) :=
  _ <- assert ratio_ok ;;
  sweep (Z.to_nat (maxN - minN) + 2) minN.

(** The pass over the lines N:t of a hint file:
    [while ( fgets(buf,sizeof(buf),fp) ) { ... }], with minV and maxV the
    ends of the range verified so far.  [None] stands for the exits with
    an error message. *)
Fixpoint read_hints (hints : list (Z * Z)) (minV maxV : Z)
  : res (option (Z * Z)) :=
  match hints with
  | [] => Ok (Some (minV, maxV))
  | (N, t) :: rest =>
      bt <- mul64 b t ;;
      aN <- mul64 a N ;;
      if bt <? aN then Ok None
      else
        cnt <- tfac lm T N t fast false verify ;;
        if cnt <? N then Ok None
        else if minV =? 0 then
          if N >? minN then Ok None
          else
            maxV <- divz bt a ;;
            if maxV >=? maxN then Ok (Some (N, maxV))
            else read_hints rest N maxV
        else if N >? maxV + 1 then Ok None
        else
          aV <- mul64 a maxV ;;
          if bt <=? aV then Ok None
          else
            maxV <- divz bt a ;;
            if maxV >=? maxN then Ok (Some (minV, maxV))
            else read_hints rest minV maxV
  end.

(** Whether the pass ends with the message that the range minN..maxN is
    verified. *)
Definition hints_verified (hints : list (Z * Z)) : res bool :=
  r <- read_hints hints 0 0 ;;
  match r with
  | None => Ok false
  | Some (minV, maxV) => Ok (negb ((minV >? minN) || (maxV <? maxN)))
  end.

(** The integer n lies in the range that one of the hints verifies: a
    line N:t with N <= n <= b*t/a whose target the counter reaches. *)
Definition covered (vf : bool) (hints : list (Z * Z)) (n : Z) : Prop :=
  exists N t, In (N, t) hints /\ N <= n /\ a * n <= b * t /\
              good_t lm T N fast vf t.

End MainLoops.
(** * Properties *)

(** ** Array lemmas *)

Lemma upd_nat_length {A} (n : nat) (v : A) (a : list A) :
  length (upd_nat n v a) = length a.
Proof.
  revert n; induction a as [|x a IH]; intros [|n]; simpl; auto.
Qed.

Lemma nth_upd_nat {A} (d : A) (a : list A) (n k : nat) (v : A) :
  nth k (upd_nat n v a) d =
  if (Nat.eqb k n && Nat.ltb n (length a))%bool then v else nth k a d.
Proof.
  revert n k; induction a as [|x a IH]; intros n k; simpl.
  - rewrite andb_false_r. destruct k; reflexivity.
  - destruct n as [|n], k as [|k]; simpl; auto.
Qed.

Lemma zset_length {A} (a : list A) (i : Z) (v : A) :
  length (zset a i v) = length a.
Proof.
  unfold zset. destruct (i <? 0); auto using upd_nat_length.
Qed.

Lemma zget_zset {A} (d : A) (a : list A) (i j : Z) (v : A) :
  zget d (zset a i v) j =
  if ((j =? i) && (0 <=? i) && (i <? Z.of_nat (length a)))%bool
  then v else zget d a j.
Proof.
  unfold zget, zset.
  destruct (Z.ltb_spec j 0), (Z.ltb_spec i 0), (Z.eqb_spec j i),
    (Z.leb_spec 0 i), (Z.ltb_spec i (Z.of_nat (length a)));
    simpl; try lia; auto; rewrite nth_upd_nat.
  - subst. rewrite Nat.eqb_refl.
    destruct (Nat.ltb_spec (Z.to_nat i) (length a)); simpl; auto; lia.
  - subst. rewrite Nat.eqb_refl.
    destruct (Nat.ltb_spec (Z.to_nat i) (length a)); simpl; auto; lia.
  - destruct (Nat.eqb_spec (Z.to_nat j) (Z.to_nat i)); simpl; auto; lia.
  - destruct (Nat.eqb_spec (Z.to_nat j) (Z.to_nat i)); simpl; auto; lia.
Qed.

Lemma zget_zset_neq {A} (d : A) (a : list A) (i j : Z) (v : A) :
  j <> i -> zget d (zset a i v) j = zget d a j.
Proof.
  intros H. rewrite zget_zset.
  destruct (Z.eqb_spec j i); simpl; auto; lia.
Qed.

Lemma zget_out {A} (d : A) (a : list A) (i : Z) :
  i < 0 \/ Z.of_nat (length a) <= i -> zget d a i = d.
Proof.
  unfold zget. intros H. destruct (Z.ltb_spec i 0); auto.
  apply nth_overflow. lia.
Qed.

Lemma min_spec (a b : Z) : min a b = Z.min a b.
Proof. unfold min. destruct (Z.gtb_spec a b); lia. Qed.

Lemma max_spec (a b : Z) : max a b = Z.max a b.
Proof. unfold max. destruct (Z.ltb_spec a b); lia. Qed.

(** ** The capacity helper [fcnt] *)

Lemma fold_min_assoc (l : list Z) (e a : Z) :
  fold_right Z.min (Z.min e a) l = Z.min a (fold_right Z.min e l).
Proof. induction l as [|y l IH]; simpl; lia. Qed.

Lemma fold_min_le (l : list Z) (e : Z) : fold_right Z.min e l <= e.
Proof. induction l as [|y l IH]; simpl; lia. Qed.

Lemma fold_min_In (l : list Z) (e y : Z) :
  In y l -> fold_right Z.min e l <= y.
Proof.
  induction l as [|z l IH]; simpl; [tauto|].
  intros [->|H]; [|specialize (IH H)]; lia.
Qed.

Lemma fold_min_lb (l : list Z) (e c : Z) :
  c <= e -> (forall y, In y l -> c <= y) -> c <= fold_right Z.min e l.
Proof.
  intros He; induction l as [|z l IH]; simpl; intros H; auto.
  assert (c <= z) by auto. assert (c <= fold_right Z.min e l) by auto. lia.
Qed.

Lemma fcnt_fold (E : list Z) (f : list pp) (e : Z) :
  fcnt E e f =
  fold_right Z.min e (map (fun x => E.[pp_pi x] ÷ pp_e x) (entries f)).
Proof.
  revert e; induction f as [|x f IH]; intros e; simpl; auto.
  destruct (pp_pi x =? 0); simpl; auto.
  rewrite IH, min_spec, fold_min_assoc. reflexivity.
Qed.

Lemma descending_In (l : list pp) (b : Z) (x : pp) :
  descending b l -> In x l -> 0 < pp_pi x < b /\ 1 <= pp_e x.
Proof.
  revert b; induction l as [|y l IH]; simpl; intros b H HI; [tauto|].
  destruct H as (H1 & H2 & H3). destruct HI as [->|HI]; auto.
  specialize (IH _ H3 HI). lia.
Qed.

Lemma fsub_above (f : list pp) (b : Z) (E : list Z) (k i : Z) :
  descending b (entries f) -> b <= i -> (fsub E k f).[i] = E.[i].
Proof.
  revert b E; induction f as [|x f IH]; simpl; intros b E H Hi; auto.
  destruct (pp_pi x =? 0); auto. simpl in H. destruct H as (H1 & H2 & H3).
  rewrite (IH (pp_pi x)); auto; [|lia]. apply zget_zset_neq. lia.
Qed.

Lemma fsub_nonneg (f : list pp) (b : Z) (E : list Z) (k : Z) :
  descending b (entries f) -> nonneg E ->
  (forall x, In x (entries f) -> k * pp_e x <= E.[pp_pi x]) ->
  nonneg (fsub E k f).
Proof.
  revert b E; induction f as [|x f IH]; simpl; intros b E H HE Hk; auto.
  destruct (pp_pi x =? 0); auto. simpl in H. destruct H as (H1 & H2 & H3).
  apply (IH (pp_pi x)); auto.
  - intros i. rewrite zget_zset.
    destruct (_ && _)%bool; auto. specialize (Hk x (or_introl eq_refl)). lia.
  - intros y Hy. rewrite zget_zset_neq; [apply Hk; simpl; auto|].
    pose proof (descending_In _ _ _ H3 Hy). lia.
Qed.

(** C5. [fcnt] computes min(cap, min over the pairs of f of floor(E[i]/e));
    the result never exceeds cap, and removing that many copies of f from
    E leaves every component nonnegative. *)
Theorem fcnt_capacity (E : list Z) (cap : Z) (f : list pp) :
  nonneg E -> 0 <= cap -> fac_wf f ->
  fcnt E cap f = capacity_spec E cap f /\
  fcnt E cap f <= cap /\
  nonneg (fsub E (fcnt E cap f) f).
Proof.
  intros HE Hc [b Hd].
  assert (Hq : forall x, In x (entries f) ->
             E.[pp_pi x] ÷ pp_e x = E.[pp_pi x] / pp_e x).
  { intros x Hx. destruct (descending_In _ _ _ Hd Hx).
    apply Z.quot_div_nonneg; [apply HE | lia]. }
  rewrite fcnt_fold. unfold capacity_spec.
  rewrite (map_ext_in _ _ _ Hq).
  split; [reflexivity|]. split; [apply fold_min_le|].
  apply (fsub_nonneg f b); auto.
  intros x Hx. destruct (descending_In _ _ _ Hd Hx) as [_ He].
  assert (H1 : fold_right Z.min cap
                 (map (fun x => E.[pp_pi x] / pp_e x) (entries f))
               <= E.[pp_pi x] / pp_e x).
  { apply fold_min_In. apply (in_map (fun x => E.[pp_pi x] / pp_e x)), Hx. }
  pose proof (Z.mul_div_le (E.[pp_pi x]) (pp_e x) ltac:(lia)).
  pose proof (HE (pp_pi x)).
  assert (0 <= E.[pp_pi x] / pp_e x) by (apply Z.div_pos; lia).
  nia.
Qed.

(** The theorem at E = [0;5;3], cap = 4 and f = 2^2 * 3 (prime indices 2
    and 1). *)
Lemma fcnt_capacity_witness :
  let E := [0; 5; 3] in
  let f := [mkpp 2 1; mkpp 1 2; pp0] in
  fcnt E 4 f = capacity_spec E 4 f /\
  fcnt E 4 f <= 4 /\
  nonneg (fsub E (fcnt E 4 f) f).
Proof.
  apply fcnt_capacity.
  - intros i. unfold zget. destruct (i <? 0); [lia|].
    destruct (Z.to_nat i) as [|[|[|[|n]]]]; simpl; lia.
  - lia.
  - exists 3. simpl. lia.
Defined.

(** ** The prime oracle *)

Lemma no_divisor_true (fuel : nat) (d n : Z) :
  0 < d ->
  (no_divisor fuel d n = true <->
   forall k, d <= k < d + Z.of_nat fuel -> ~ (k | n)).
Proof.
  revert d; induction fuel as [|f IH]; intros d Hd; simpl no_divisor.
  - split; auto. intros _ k Hk. lia.
  - rewrite andb_true_iff, negb_true_iff, Z.eqb_neq, (IH (d + 1)) by lia.
    rewrite Z.mod_divide by lia. split.
    + intros [H1 H2] k Hk. destruct (Z.eq_dec k d) as [->|Hne]; auto.
      apply H2. lia.
    + intros H. split; [apply H; lia|]. intros k Hk. apply H. lia.
Qed.

Lemma is_prime_spec (n : Z) : is_prime n = true <-> Z.prime n.
Proof.
  unfold is_prime, Z.prime.
  rewrite andb_true_iff, Z.leb_le, no_divisor_true by lia.
  split; intros [H1 H2]; (split; [lia|]); intros k Hk; apply H2; lia.
Qed.

Lemma prime_divisor_exists (n : Z) :
  1 < n -> exists p, Z.prime p /\ (p | n).
Proof.
  intros Hn. assert (H0 : 0 <= n) by lia. revert Hn.
  pattern n. apply Zlt_0_ind; auto. clear n H0.
  intros n IH _ Hn.
  destruct (is_prime n) eqn:E.
  - exists n. split; [apply is_prime_spec, E | apply Z.divide_refl].
  - assert (Hd : exists d, 1 < d < n /\ (d | n)).
    { destruct (Z.ltb_spec 2 n) as [H2|H2].
      - assert (Hex : forall f d, 0 < d -> no_divisor f d n = false ->
                  exists k, d <= k < d + Z.of_nat f /\ (k | n)).
        { induction f as [|f IHf]; intros d Hd; simpl no_divisor;
            [discriminate|].
          rewrite andb_false_iff, negb_false_iff, Z.eqb_eq.
          intros [H|H].
          - exists d. rewrite <- Z.mod_divide by lia. split; [lia|auto].
          - destruct (IHf (d + 1) ltac:(lia) H) as (k & Hk & Hkn).
            exists k. split; [lia|auto]. }
        unfold is_prime in E. rewrite andb_false_iff, Z.leb_gt in E.
        destruct E as [E|E]; [lia|].
        destruct (Hex (Z.to_nat (n - 2)) 2 ltac:(lia) E) as (k & Hk & Hkn).
        exists k. split; [lia|auto].
      - assert (n = 2) by lia. subst n. discriminate E. }
    destruct Hd as (d & Hd & Hdn).
    destruct (IH d ltac:(lia) ltac:(lia)) as (p & Hp & Hpd).
    exists p. split; auto. eapply Z.divide_trans; eauto.
Qed.

Lemma zrange_In (len : nat) (lo x : Z) :
  In x (zrange lo len) <-> lo <= x < lo + Z.of_nat len.
Proof.
  revert lo; induction len as [|k IH]; intros lo; simpl zrange; simpl In.
  - lia.
  - rewrite IH. lia.
Qed.

Lemma primes_upto_In (n p : Z) :
  In p (primes_upto n) <-> Z.prime p /\ p <= n.
Proof.
  unfold primes_upto. rewrite filter_In, zrange_In, is_prime_spec.
  split.
  - intros [H1 H2]. split; auto. lia.
  - intros [H1 H2]. pose proof (Z.prime_ge_2 _ H1). split; auto. lia.
Qed.

Lemma primes_upto_2 (n : Z) :
  2 <= n -> exists l, primes_upto n = 2 :: l.
Proof.
  intros H. unfold primes_upto.
  destruct (Z.to_nat (n - 1)) as [|k] eqn:E; [lia|].
  simpl. eexists. reflexivity.
Qed.

(** ** The tables P and M after the sieve *)

Lemma upd_nat_app_at {A} (pre : list A) (x v : A) (rest : list A) :
  upd_nat (length pre) v (pre ++ x :: rest) = pre ++ v :: rest.
Proof. induction pre as [|y pre IH]; simpl; congruence. Qed.

Lemma zset_app_at {A} (pre : list A) (x v : A) (rest : list A) :
  zset (pre ++ x :: rest) (Z.of_nat (length pre)) v = pre ++ v :: rest.
Proof.
  unfold zset. destruct (Z.ltb_spec (Z.of_nat (length pre)) 0); [lia|].
  rewrite Nat2Z.id. apply upd_nat_app_at.
Qed.

Lemma fill_primes_fst (ps pre zs PI : list Z) :
  length zs = length ps ->
  fst (fill_primes ps (Z.of_nat (length pre)) (pre ++ zs) PI) = pre ++ ps.
Proof.
  revert pre zs PI; induction ps as [|p ps IH]; intros pre zs PI Hl.
  - destruct zs; [|discriminate]. reflexivity.
  - destruct zs as [|z zs]; [discriminate|]. simpl fill_primes.
    rewrite zset_app_at.
    replace (Z.of_nat (length pre) + 1) with (Z.of_nat (length (pre ++ [p])))
      by (rewrite length_app; simpl; lia).
    replace (pre ++ p :: zs) with ((pre ++ [p]) ++ zs)
      by (rewrite <- app_assoc; reflexivity).
    rewrite IH by (simpl in Hl; lia).
    rewrite <- app_assoc. reflexivity.
Qed.

Lemma setup_P (n : Z) (PI0 : list Z) :
  fst (fill_primes (primes_upto n) 1
         (zset (calloc (primecount_pi n + 1)) 0 1) PI0)
  = 1 :: primes_upto n.
Proof.
  unfold primecount_pi, calloc.
  replace (Z.to_nat (Z.of_nat (length (primes_upto n)) + 1))
    with (S (length (primes_upto n))) by lia.
  change (zset (repeat 0 (S (length (primes_upto n)))) 0 1)
    with ([1] ++ repeat 0 (length (primes_upto n))).
  apply (fill_primes_fst _ [1]). apply repeat_length.
Qed.

Lemma zget_cons {A} (d x : A) (l : list A) (i : Z) :
  1 <= i -> zget d (x :: l) i = zget d l (i - 1).
Proof.
  intros H. unfold zget.
  destruct (Z.ltb_spec i 0), (Z.ltb_spec (i - 1) 0); try lia.
  replace (Z.to_nat i) with (S (Z.to_nat (i - 1))) by lia. reflexivity.
Qed.

Lemma prime_table_setup (n : Z) :
  prime_table (1 :: primes_upto n) n (primecount_pi n).
Proof.
  unfold primecount_pi. split.
  - intros i Hi. rewrite zget_cons by lia. unfold zget.
    destruct (Z.ltb_spec (i - 1) 0); [lia|].
    apply primes_upto_In, nth_In. lia.
  - intros p Hp Hle.
    destruct (In_nth _ _ 0 (proj2 (primes_upto_In n p) (conj Hp Hle)))
      as (k & Hk & Hnth).
    exists (Z.of_nat k + 1). split; [lia|].
    rewrite zget_cons by lia. unfold zget.
    destruct (Z.ltb_spec (Z.of_nat k + 1 - 1) 0); [lia|].
    replace (Z.to_nat (Z.of_nat k + 1 - 1)) with k by lia. exact Hnth.
Qed.

Lemma prime_table_2 (n : Z) : 2 <= n -> (1 :: primes_upto n).[1] = 2.
Proof.
  intros H. destruct (primes_upto_2 n H) as [l ->]. reflexivity.
Qed.

Lemma bind_Ok {A B} (c : res A) (k : A -> res B) (b : B) :
  bind c k = Ok b -> exists a, c = Ok a /\ k a = Ok b.
Proof. destruct c; simpl; try discriminate. eauto. Qed.

Lemma assert_Ok (b : bool) (u : unit) : assert b = Ok u -> b = true.
Proof. destruct b; simpl; [auto|discriminate]. Qed.

Ltac inv_bind H :=
  let a := fresh "a" in
  let Ha := fresh "Ha" in
  apply bind_Ok in H; destruct H as (a & Ha & H);
  try (apply assert_Ok in Ha).

Lemma sieve_mark_spec (fuel : nat) (pi p maxm : Z) :
  0 < p ->
  forall (q : Z) (M M' : list Z),
  0 < q -> (p | q) ->
  Z.of_nat (length M) = maxm + 1 ->
  sieve_mark fuel pi p q maxm M = Ok M' ->
  length M' = length M /\
  forall x, M'.[x] = if ((q <=? x) && (x <=? maxm) && (x mod p =? 0))%bool
                     then pi else M.[x].
Proof.
  intros Hp. induction fuel as [|k IH]; intros q M M' Hq Hdiv Hlen H;
    simpl in H; [discriminate|].
  destruct (Z.leb_spec q maxm) as [Hle|Hgt].
  - inv_bind H. apply IH in H; [|lia| |rewrite zset_length; auto].
    2:{ apply Z.divide_add_r; auto. apply Z.divide_refl. }
    destruct H as [Hl Hx]. rewrite zset_length in Hl. split; auto.
    intros x. rewrite Hx, zget_zset.
    destruct (Z.leb_spec (q + p) x), (Z.leb_spec q x), (Z.leb_spec x maxm),
      (Z.eqb_spec (x mod p) 0), (Z.eqb_spec x q), (Z.leb_spec 0 q),
      (Z.ltb_spec q (Z.of_nat (length M))); simpl; auto; try lia.
    + exfalso. apply Z.mod_divide in e; [|lia].
      assert (Hd : (p | x - q)) by (apply Z.divide_sub_r; auto).
      destruct Hd as [c Hc]. assert (0 < c) by nia. nia.
    + exfalso. subst x. apply n. apply Z.mod_divide; auto. lia.
  - injection H as <-. split; auto. intros x.
    destruct (Z.leb_spec q x), (Z.leb_spec x maxm); simpl; auto; lia.
Qed.

Lemma largest_idx_step (P : list Z) (hi q v : Z) :
  0 <= hi -> 0 < P.[hi + 1] ->
  largest_idx P hi q v ->
  largest_idx P (hi + 1) q (if q mod P.[hi + 1] =? 0 then hi + 1 else v).
Proof.
  intros Hhi Hp [H1 H2].
  destruct (Z.eqb_spec (q mod P.[hi + 1]) 0) as [E|E].
  - rewrite Z.mod_divide in E by lia. split.
    + right. split; [lia|auto].
    + intros j Hj. lia.
  - rewrite Z.mod_divide in E by lia. split.
    + destruct H1 as [->|[Hv Hd]]; [left; auto|right; split; auto; lia].
    + intros j Hj. destruct (Z.eq_dec j (hi + 1)) as [->|Hne]; auto.
      apply H2. lia.
Qed.

Lemma sieve_spec (fuel : nat) (maxpi maxm : Z) (P : list Z) :
  (forall i, 1 <= i <= maxpi -> 0 < P.[i]) ->
  forall (pi : Z) (M M' : list Z),
  1 <= pi ->
  Z.of_nat (length M) = maxm + 1 ->
  (forall q, 1 <= q <= maxm -> largest_idx P (pi - 1) q M.[q]) ->
  M.[0] = 0 ->
  sieve fuel pi maxpi maxm P M = Ok M' ->
  Z.of_nat (length M') = maxm + 1 /\ M'.[0] = 0 /\
  forall q, 1 <= q <= maxm -> largest_idx P (Z.max (pi - 1) maxpi) q M'.[q].
Proof.
  intros HP. induction fuel as [|k IH]; intros pi M M' Hpi Hlen HM H0 H;
    simpl in H; [discriminate|].
  destruct (Z.leb_spec pi maxpi) as [Hle|Hgt].
  - inv_bind H.
    assert (Hp : 0 < P.[pi]) by (apply HP; lia).
    apply sieve_mark_spec in Ha; auto; [|apply Z.divide_refl].
    destruct Ha as [Hl Hx].
    apply IH in H; try lia.
    + replace (Z.max (pi + 1 - 1) maxpi) with (Z.max (pi - 1) maxpi) in H
        by lia. exact H.
    + intros q Hq. rewrite Hx.
      replace (pi + 1 - 1) with (pi - 1 + 1) by lia.
      assert (Hs := largest_idx_step P (pi - 1) q M.[q] ltac:(lia)).
      replace (pi - 1 + 1) with pi in * by lia.
      specialize (Hs Hp (HM q Hq)).
      destruct (Z.leb_spec P.[pi] q), (Z.leb_spec q maxm),
        (Z.eqb_spec (q mod P.[pi]) 0); simpl; auto; try lia.
      exfalso. apply Z.mod_divide in e; [|lia].
      destruct e as [c Hc]. assert (0 < c) by nia. nia.
    + rewrite Hx.
      destruct (Z.leb_spec P.[pi] 0); simpl; auto. lia.
  - injection H as <-. repeat split; auto; try apply HM; auto.
    + replace (Z.max (pi - 1) maxpi) with (pi - 1) by lia. apply HM; auto.
    + replace (Z.max (pi - 1) maxpi) with (pi - 1) by lia. apply HM; auto.
Qed.

(** ** Factorizations in the arena *)

Lemma mk_pp_id (pi e : Z) :
  0 <= pi < 2 ^ 24 -> 0 <= e < 2 ^ 8 -> mk_pp pi e = mkpp pi e.
Proof.
  intros H1 H2. unfold mk_pp. rewrite !Z.mod_small by lia. reflexivity.
Qed.

Lemma pprod_app (P : list Z) (l1 l2 : list pp) :
  pprod P (l1 ++ l2) = pprod P l1 * pprod P l2.
Proof.
  induction l1 as [|x l1 IH]; cbn [pprod app]; [ring|]. rewrite IH. ring.
Qed.

Lemma pprod_rev (P : list Z) (l : list pp) : pprod P (rev l) = pprod P l.
Proof.
  induction l as [|x l IH]; simpl; auto.
  rewrite pprod_app, IH. simpl. ring.
Qed.

Lemma entries_nz (l rest : list pp) :
  Forall (fun x => pp_pi x <> 0) l -> entries (l ++ pp0 :: rest) = l.
Proof.
  induction 1 as [|x l Hx Hl IH]; simpl; auto.
  destruct (Z.eqb_spec (pp_pi x) 0); [contradiction|]. congruence.
Qed.

Lemma entries_self (l : list pp) :
  Forall (fun x => pp_pi x <> 0) l -> entries l = l.
Proof.
  induction 1 as [|x l Hx Hl IH]; simpl; auto.
  destruct (Z.eqb_spec (pp_pi x) 0); [contradiction|]. congruence.
Qed.

Lemma skipn_app_at {A} (pre l : list A) : skipn (length pre) (pre ++ l) = l.
Proof. induction pre; simpl; auto. Qed.

Lemma fac_at_entries (F : list pp) (off : Z) (l : list pp) :
  fac_at F off l -> entries (fptr F off) = l.
Proof.
  intros (pre & rest & -> & <- & Hnz). unfold fptr, zskip.
  destruct (Z.ltb_spec (Z.of_nat (length pre)) 0); [lia|].
  rewrite Nat2Z.id, skipn_app_at. apply entries_nz, Hnz.
Qed.

Lemma fac_at_app (F G : list pp) (off : Z) (l : list pp) :
  fac_at F off l -> fac_at (F ++ G) off l.
Proof.
  intros (pre & rest & -> & Hoff & Hnz). exists pre, (rest ++ G).
  repeat split; auto. rewrite <- !app_assoc. reflexivity.
Qed.

Lemma fac_at_end (F l G : list pp) :
  Forall (fun x => pp_pi x <> 0) l ->
  fac_at (F ++ l ++ pp0 :: G) (foff F) l.
Proof. intros H. exists F, G. repeat split; auto. Qed.

Lemma entry_ok_app (P : list Z) (B : Z) (F G : list pp) (q v : Z) :
  entry_ok P B F q v -> entry_ok P B (F ++ G) q v.
Proof.
  intros [H1 H2]. split; auto. intros Hv.
  destruct (H2 Hv) as (l & Hl & Hp). exists l. split; auto using fac_at_app.
Qed.

Lemma ascending_lt (l : list pp) (b : Z) (x : pp) :
  ascending b l -> In x l -> b < pp_pi x.
Proof.
  revert b; induction l as [|y l IH]; simpl; intros b H HI; [tauto|].
  destruct H as [H1 H2]. destruct HI as [->|HI]; auto.
  specialize (IH _ H2 HI). lia.
Qed.

Lemma descending_snoc (l : list pp) (B : Z) (x : pp) :
  descending B l -> (forall y, In y l -> pp_pi x < pp_pi y) ->
  0 < pp_pi x < B -> 1 <= pp_e x -> descending B (l ++ [x]).
Proof.
  revert B; induction l as [|y l IH]; simpl; intros B H Hlt Hx He.
  - repeat split; auto; lia.
  - destruct H as (H1 & H2 & H3). repeat split; auto; try lia.
    apply IH; auto. split; [lia|]. apply Hlt. auto.
Qed.

Lemma ascending_rev (l : list pp) (b hi : Z) :
  0 <= b -> ascending b l -> Forall (ok_entry hi) l ->
  descending (hi + 1) (rev l).
Proof.
  revert b; induction l as [|x l IH]; simpl; intros b Hb H Hok; auto.
  destruct H as [H1 H2]. inversion Hok as [|? ? [Hx He] Hok']; subst.
  apply descending_snoc; auto; try lia.
  - apply (IH (pp_pi x)); auto. lia.
  - intros y Hy. apply in_rev in Hy. apply (ascending_lt l); auto.
Qed.

Lemma pprod_pos (P : list Z) (hi : Z) (l : list pp) :
  (forall i, 1 <= i <= hi -> 2 <= P.[i]) ->
  Forall (ok_entry hi) l -> 1 <= pprod P l.
Proof.
  intros HP; induction 1 as [|x l [Hx He] Hl IH]; simpl; [lia|].
  assert (0 < P.[pp_pi x] ^ pp_e x)
    by (apply Z.pow_pos_nonneg; [specialize (HP _ Hx)|]; lia).
  nia.
Qed.

Lemma pow_bound_31 (p e : Z) : 2 <= p -> 0 <= e -> p ^ e < 2 ^ 31 -> e < 31.
Proof.
  intros Hp He H. destruct (Z.lt_ge_cases e 31) as [|Hge]; auto.
  exfalso. assert (2 ^ 31 <= p ^ e); [|lia].
  transitivity (2 ^ e).
  - apply Z.pow_le_mono_r; lia.
  - apply Z.pow_le_mono_l; lia.
Qed.

Lemma pprod_smooth (P : list Z) (B hi : Z) (l : list pp) :
  prime_table P B hi -> Forall (ok_entry hi) l -> smooth B (pprod P l).
Proof.
  intros [HP1 HP2]; induction 1 as [|x l [Hx He] Hl IH];
    simpl; intros r Hr Hd.
  - apply Z.divide_1_r in Hd. destruct Hr as [Hr _]. lia.
  - apply Z.divide_prime_mul in Hd; auto. destruct Hd as [Hd|Hd]; auto.
    destruct (HP1 _ Hx) as [Hpr Hle].
    apply Z.divide_prime_pp in Hd; auto; lia.
Qed.

Lemma not_smooth_mult (P : list Z) (B hi q k : Z) :
  prime_table P B hi -> 1 < q ->
  (forall j, 1 <= j <= hi -> ~ (P.[j] | q)) ->
  ~ smooth B (q * k).
Proof.
  intros [HP1 HP2] Hq Hno Hs.
  destruct (prime_divisor_exists q Hq) as (r & Hr & Hd).
  assert (Hle : r <= B) by (apply Hs; auto using Z.divide_mul_l).
  destruct (HP2 r Hr Hle) as (j & Hj & <-).
  exact (Hno j Hj Hd).
Qed.

Lemma largest_idx_0 (P : list Z) (hi q : Z) :
  largest_idx P hi q 0 -> forall j, 1 <= j <= hi -> ~ (P.[j] | q).
Proof. intros [_ H] j Hj. apply H. lia. Qed.

Section FactorOdd.
Variables (P M : list Z) (hi : Z).
Hypothesis HP : forall i, 1 <= i <= hi -> 2 <= P.[i].
Hypothesis Hhi : 0 <= hi < 2 ^ 24.

Lemma factor_odd_spec (fuel : nat) :
  forall (q : Z) (done : list pp) (g : pp) (q' : Z) (done' : list pp)
         (g' : pp),
  (forall x, 1 <= x <= q -> largest_idx P hi x M.[x]) ->
  1 <= q ->
  (forall j, pp_pi g < j <= hi -> ~ (P.[j] | q)) ->
  ascending 0 (g :: done) ->
  Forall (ok_entry hi) (g :: done) ->
  q * pprod P (g :: done) < 2 ^ 31 ->
  factor_odd fuel P M q done g = Ok (q', done', g') ->
  1 <= q' /\ M.[q'] = 0 /\
  q' * pprod P (g' :: done') = q * pprod P (g :: done) /\
  ascending 0 (g' :: done') /\ Forall (ok_entry hi) (g' :: done').
Proof.
  induction fuel as [|k IH]; intros q done g q' done' g' HM Hq Hg Hasc Hok Hb H;
    simpl in H; [discriminate|].
  destruct (Z.eqb_spec M.[q] 0) as [E|E].
  - injection H as <- <- <-. auto.
  - inv_bind H.
    destruct (HM q ltac:(lia)) as [[Hv|[Hv Hd]] Hmax]; [contradiction|].
    assert (Hp2 := HP _ Hv).
    destruct Hd as [c Hc].
    pose proof (Z.quot_mul c P.[M.[q]] ltac:(lia)) as Hquot.
    rewrite <- Hc in Hquot.
    rewrite Hquot in H.
    assert (Hc1 : 1 <= c <= q) by nia.
    assert (HMc : forall x, 1 <= x <= c -> largest_idx P hi x M.[x])
      by (intros; apply HM; lia).
    assert (Hdc : forall r, (r | c) -> (r | q))
      by (intros r Hr; rewrite Hc; apply Z.divide_mul_l, Hr).
    pose proof (Forall_inv Hok) as [Hgx Hge].
    pose proof (Forall_inv_tail Hok) as Hok'.
    assert (Hle : M.[q] <= pp_pi g).
    { destruct (Z.le_gt_cases M.[q] (pp_pi g)); auto.
      exfalso. apply (Hg M.[q]); [lia|]. exists c. lia. }
    assert (Hpd : 1 <= pprod P done) by (apply (pprod_pos P hi); auto).
    destruct (Z.eqb_spec M.[q] (pp_pi g)) as [Eg|Eg].
    + assert (Hpw : 0 < P.[pp_pi g] ^ pp_e g)
        by (apply Z.pow_pos_nonneg; [specialize (HP _ Hgx)|]; lia).
      assert (He31 : pp_e g < 31).
      { apply (pow_bound_31 P.[pp_pi g]); [apply HP; auto|lia|].
        simpl in Hb. nia. }
      rewrite mk_pp_id in H by lia.
      assert (Hg1 : forall j, pp_pi (mkpp (pp_pi g) (pp_e g + 1)) < j <= hi ->
                ~ (P.[j] | c)).
      { simpl. intros j Hj Hdj. apply (Hg j Hj). auto. }
      assert (Ha1 : ascending 0 (mkpp (pp_pi g) (pp_e g + 1) :: done)).
      { simpl in *. tauto. }
      assert (Ho1 : Forall (ok_entry hi)
                      (mkpp (pp_pi g) (pp_e g + 1) :: done)).
      { constructor; auto. split; simpl; lia. }
      assert (Hb1 : c * pprod P (mkpp (pp_pi g) (pp_e g + 1) :: done)
                    = q * pprod P (g :: done)).
      { assert (Hq2 : q = c * P.[pp_pi g]) by (rewrite <- Eg; exact Hc).
        cbn [pprod pp_pi pp_e]. rewrite Z.pow_add_r, Z.pow_1_r by lia.
        rewrite Hq2. ring. }
      destruct (IH _ _ _ _ _ _ HMc (proj1 Hc1) Hg1 Ha1 Ho1 ltac:(lia) H)
        as (H1 & H2 & H3 & H4 & H5).
      refine (conj H1 (conj H2 (conj _ (conj H4 H5)))). lia.
    + rewrite mk_pp_id in H by lia.
      assert (Hg1 : forall j, pp_pi (mkpp M.[q] 1) < j <= hi ->
                ~ (P.[j] | c)).
      { simpl. intros j Hj Hdj. apply (Hmax j Hj). auto. }
      assert (Ha1 : ascending 0 (mkpp M.[q] 1 :: g :: done)).
      { simpl in *. repeat split; try lia. tauto. }
      assert (Ho1 : Forall (ok_entry hi) (mkpp M.[q] 1 :: g :: done)).
      { constructor; auto. split; simpl; lia. }
      assert (Hb1 : c * pprod P (mkpp M.[q] 1 :: g :: done)
                    = q * pprod P (g :: done)).
      { cbn [pprod pp_pi pp_e]. rewrite Z.pow_1_r.
        replace (q * (P.[pp_pi g] ^ pp_e g * pprod P done))
          with (c * P.[M.[q]] * (P.[pp_pi g] ^ pp_e g * pprod P done))
          by (now rewrite <- Hc).
        ring. }
      destruct (IH _ _ _ _ _ _ HMc (proj1 Hc1) Hg1 Ha1 Ho1 ltac:(lia) H)
        as (H1 & H2 & H3 & H4 & H5).
      refine (conj H1 (conj H2 (conj _ (conj H4 H5)))). lia.
Qed.

Lemma factor_odd_init (m q : Z) (done : list pp) (g : pp) :
  1 < m < 2 ^ 31 ->
  (forall x, 1 <= x <= m -> largest_idx P hi x M.[x]) ->
  factor_odd (Z.to_nat m) P M m [] (mk_pp M.[m] 0) = Ok (q, done, g) ->
  (q = m /\ M.[m] = 0) \/
  (M.[m] <> 0 /\ 1 <= q /\ M.[q] = 0 /\ q * pprod P (g :: done) = m /\
   ascending 0 (g :: done) /\ Forall (ok_entry hi) (g :: done)).
Proof.
  intros Hm HM H.
  destruct (Z.to_nat m) as [|k] eqn:Ek; [lia|].
  assert (Hr : 0 <= M.[m] <= hi)
    by (destruct (HM m ltac:(lia)) as [[Hv|[Hv Hd]] Hmax]; lia).
  rewrite mk_pp_id in H by lia. simpl in H.
  destruct (Z.eqb_spec M.[m] 0) as [E|E].
  - injection H as <- <- <-. auto.
  - right. inv_bind H.
    destruct (HM m ltac:(lia)) as [[Hv|[Hv Hd]] Hmax]; [contradiction|].
    assert (Hp2 := HP _ Hv).
    destruct Hd as [c Hc].
    rewrite Z.eqb_refl in H.
    pose proof (Z.quot_mul c P.[M.[m]] ltac:(lia)) as Hquot.
    rewrite <- Hc in Hquot.
    rewrite Hquot in H. assert (Hc1 : 1 <= c <= m) by nia.
    rewrite mk_pp_id in H by lia.
    assert (Hg1 : forall j, pp_pi (mkpp M.[m] 1) < j <= hi -> ~ (P.[j] | c)).
    { simpl. intros j Hj Hdj. apply (Hmax j Hj).
      rewrite Hc. apply Z.divide_mul_l, Hdj. }
    assert (Ha1 : ascending 0 [mkpp M.[m] 1]) by (simpl; lia).
    assert (Ho1 : Forall (ok_entry hi) [mkpp M.[m] 1]).
    { constructor; auto. split; simpl; lia. }
    assert (Hb1 : c * pprod P [mkpp M.[m] 1] = m).
    { cbn [pprod pp_pi pp_e]. rewrite Z.pow_1_r. lia. }
    assert (HMc : forall x, 1 <= x <= c -> largest_idx P hi x M.[x])
      by (intros; apply HM; lia).
    destruct (factor_odd_spec _ _ _ _ _ _ _ HMc (proj1 Hc1) Hg1 Ha1 Ho1
                ltac:(lia) H) as (H1 & H2 & H3 & H4 & H5).
    refine (conj E (conj H1 (conj H2 (conj _ (conj H4 H5))))). lia.
Qed.

End FactorOdd.

(** ** The two passes that build the factorizations *)

Ltac zlia := Z.div_mod_to_equations; lia.

Lemma v2_spec (m : Z) :
  0 < m ->
  0 <= v2 m /\ m = Z.shiftr m (v2 m) * 2 ^ v2 m /\
  Z.shiftr m (v2 m) mod 2 = 1 /\ (m mod 2 = 0 -> 1 <= v2 m).
Proof.
  destruct m as [|p|p]; try lia. intros _. simpl v2.
  induction p as [p IH|p IH|].
  - change (ctz_pos p~1) with 0. rewrite Z.shiftr_0_r, Z.pow_0_r.
    repeat split; try lia; rewrite Pos2Z.inj_xI; zlia.
  - change (ctz_pos p~0) with (1 + ctz_pos p).
    destruct IH as (H0 & H1 & H2 & H3).
    assert (Hs : Z.shiftr (Z.pos p~0) (1 + ctz_pos p)
                 = Z.shiftr (Z.pos p) (ctz_pos p)).
    { rewrite !Z.shiftr_div_pow2 by lia.
      rewrite Z.pow_add_r, Z.pow_1_r by lia.
      rewrite <- Z.div_div by lia. f_equal.
      rewrite Pos2Z.inj_xO, Z.mul_comm. apply Z.div_mul. lia. }
    rewrite Hs. repeat split; try lia.
    rewrite Z.pow_add_r, Z.pow_1_r by lia.
    rewrite Pos2Z.inj_xO. rewrite H1 at 1. ring.
  - simpl. repeat split; try lia. intros H. discriminate H.
Qed.

Lemma descending_mono (l : list pp) (b b' : Z) :
  descending b l -> b <= b' -> descending b' l.
Proof. destruct l; simpl; auto. intros (H1 & H2 & H3) H. repeat split; auto; lia. Qed.

Lemma descending_ok (l : list pp) (b : Z) :
  descending b l -> Forall (fun x => 1 <= pp_pi x /\ 1 <= pp_e x) l.
Proof.
  revert b; induction l as [|x l IH]; simpl; intros b H; constructor.
  - lia.
  - apply (IH (pp_pi x)). tauto.
Qed.

Lemma pprod_divide (P : list Z) (l : list pp) (y : pp) :
  In y l -> 1 <= pp_e y -> (P.[pp_pi y] | pprod P l).
Proof.
  induction l as [|x l IH]; simpl; [tauto|]. intros [->|H] He.
  - apply Z.divide_mul_l, Z.divide_pow_same_r, He.
  - apply Z.divide_mul_r; auto.
Qed.

Lemma smooth_divide (B a b : Z) : (a | b) -> smooth B b -> smooth B a.
Proof.
  intros Hab Hs p Hp Hd. apply Hs; auto. eapply Z.divide_trans; eauto.
Qed.

Lemma smooth_1 (B : Z) : smooth B 1.
Proof.
  intros p [Hp _] Hd. apply Z.divide_1_r in Hd. lia.
Qed.

Section Loops.
Variables (P : list Z) (B hi maxm : Z).
Hypothesis HT : prime_table P B hi.
Hypothesis Hhi : 0 <= hi < 2 ^ 24.
Hypothesis Hmaxm : maxm < 2 ^ 31.
Hypothesis HP1 : P.[1] = 2.
Hypothesis HB : 2 <= B.

Lemma HP2 : forall i, 1 <= i <= hi -> 2 <= P.[i].
Proof. intros i Hi. apply Z.prime_ge_2, HT, Hi. Qed.

Lemma ok_entry_nz (l : list pp) :
  Forall (ok_entry hi) l -> Forall (fun x => pp_pi x <> 0) l.
Proof. apply Forall_impl. intros x [H _]. lia. Qed.

Lemma odd_entry (M : list Z) (F : list pp) (m q : Z)
    (done : list pp) (g : pp) :
  1 < m < 2 ^ 31 -> (1 <= length F)%nat ->
  (forall x, 1 <= x <= m -> largest_idx P hi x M.[x]) ->
  factor_odd (Z.to_nat m) P M m [] (mk_pp M.[m] 0) = Ok (q, done, g) ->
  if negb (q =? 1) then entry_ok P B F m 0
  else entry_ok P B (F ++ rev (g :: done) ++ [pp0]) m (foff F).
Proof.
  intros Hm HF HM H.
  apply (factor_odd_init P M hi HP2 Hhi) in H; auto.
  assert (Hnot : forall q0 k, 1 < q0 -> M.[q0] = 0 -> 1 <= q0 <= m ->
            m = q0 * k -> entry_ok P B F m 0).
  { intros q0 k Hq0 HM0 Hr Hk. split; [|tauto]. split; [tauto|].
    intros Hs. exfalso. rewrite Hk in Hs.
    apply (not_smooth_mult P B hi q0 k HT Hq0); auto.
    apply largest_idx_0. rewrite <- HM0. apply HM. lia. }
  destruct H as [[-> HM0]|(Hnz & Hq & HMq & Hprod & Hasc & Hok)].
  - destruct (Z.eqb_spec m 1); [lia|]. simpl.
    apply (Hnot m 1); auto; lia.
  - assert (Hpp : 1 <= pprod P (g :: done))
      by (apply (pprod_pos P hi); auto using HP2).
    destruct (Z.eqb_spec q 1) as [->|Hne]; simpl.
    + assert (Hlen : foff F <> 0) by (unfold foff; lia).
      split; [split; auto|].
      * intros _. rewrite <- Hprod, Z.mul_1_l.
        apply (pprod_smooth P B hi); auto.
      * intros _. exists (rev (g :: done)). split; [|split].
        -- apply fac_at_end. apply Forall_rev, ok_entry_nz, Hok.
        -- rewrite pprod_rev. lia.
        -- exists (hi + 1). rewrite entries_self.
           ++ apply (ascending_rev _ 0); auto; lia.
           ++ apply Forall_rev, ok_entry_nz, Hok.
    + apply (Hnot q (pprod P (g :: done))); auto; try lia. nia.
Qed.

Lemma odd_loop_spec (fuel : nat) :
  forall (m : Z) (M : list Z) (F : list pp) (M' : list Z) (F' : list pp),
  m mod 2 = 1 -> 1 <= m <= maxm ->
  Z.of_nat (length M) = maxm + 1 ->
  (1 <= length F)%nat ->
  (forall q, 1 <= q <= maxm -> q <= m \/ q mod 2 = 0 ->
             largest_idx P hi q M.[q]) ->
  (forall q, m < q <= maxm -> q mod 2 = 1 -> entry_ok P B F q M.[q]) ->
  odd_loop fuel P m M F = Ok (M', F') ->
  Z.of_nat (length M') = maxm + 1 /\ (1 <= length F')%nat /\
  (forall q, 1 <= q <= maxm -> q = 1 \/ q mod 2 = 0 ->
             largest_idx P hi q M'.[q]) /\
  (forall q, 1 < q <= maxm -> q mod 2 = 1 -> entry_ok P B F' q M'.[q]).
Proof.
  induction fuel as [|k IH]; intros m M F M' F' Hodd Hm Hlen HF HL HE H;
    simpl in H; [discriminate|].
  destruct (Z.gtb_spec m 1) as [Hgt|Hle].
  - apply bind_Ok in H. destruct H as ([[q done] g] & Hfac & H).
    pose proof (odd_entry M F m q done g ltac:(lia) ltac:(lia)
                  ltac:(intros; apply HL; lia) Hfac) as Hent.
    destruct (negb (q =? 1)).
    + apply IH in H; auto; try zlia.
      * rewrite zset_length. auto.
      * intros x Hx Hc. rewrite zget_zset_neq by zlia. apply HL; zlia.
      * intros x Hx Hc. destruct (Z.eq_dec x m) as [->|Hne].
        -- rewrite zget_zset.
           destruct (Z.eqb_spec m m), (Z.leb_spec 0 m),
             (Z.ltb_spec m (Z.of_nat (length M))); simpl; auto; lia.
        -- rewrite zget_zset_neq by auto. apply HE; zlia.
    + apply IH in H; auto; try zlia.
      * rewrite zset_length. auto.
      * rewrite length_app. lia.
      * intros x Hx Hc. rewrite zget_zset_neq by zlia. apply HL; zlia.
      * intros x Hx Hc. destruct (Z.eq_dec x m) as [->|Hne].
        -- rewrite zget_zset.
           destruct (Z.eqb_spec m m), (Z.leb_spec 0 m),
             (Z.ltb_spec m (Z.of_nat (length M))); simpl; auto; lia.
        -- rewrite zget_zset_neq by auto. apply entry_ok_app, HE; zlia.
  - injection H as <- <-. assert (m = 1) by lia. subst m.
    split; [auto|]. split; [auto|]. split.
    + intros q Hq Hc. apply HL; auto; lia.
    + intros q Hq Hc. apply HE; auto; lia.
Qed.

Lemma even_entry (M : list Z) (F : list pp) (m : Z) :
  1 < m <= maxm -> m mod 2 = 0 ->
  entry_ok P B F (Z.shiftr m (v2 m)) M.[Z.shiftr m (v2 m)] ->
  if M.[Z.shiftr m (v2 m)] =? 0 then entry_ok P B F m 0
  else entry_ok P B
         (F ++ entries (fptr F M.[Z.shiftr m (v2 m)])
            ++ [mk_pp 1 (v2 m); pp0]) m (foff F).
Proof.
  intros Hm Hev [Hiff Hfac].
  destruct (v2_spec m ltac:(lia)) as (He0 & Hmq & Hqodd & He1).
  specialize (He1 Hev).
  set (q := Z.shiftr m (v2 m)) in *. set (e := v2 m) in *.
  assert (Hpw : 0 < 2 ^ e) by (apply Z.pow_pos_nonneg; lia).
  assert (Hq : 1 <= q) by nia.
  assert (Hdiv : (q | m)) by (exists (2 ^ e); lia).
  destruct (Z.eqb_spec M.[q] 0) as [E|E].
  - split; [|tauto]. split; [tauto|]. intros Hs. exfalso.
    assert (M.[q] <> 0); [|tauto]. apply Hiff.
    apply (smooth_divide B q m); auto.
  - destruct (Hfac E) as (l & Hat & Hprod & [b Hdesc]).
    rewrite (fac_at_entries _ _ _ Hat).
    assert (Hnz : Forall (fun x => pp_pi x <> 0) l)
      by (destruct Hat as (? & ? & _ & _ & Hnz); exact Hnz).
    rewrite (entries_self _ Hnz) in Hdesc.
    assert (He31 : e < 31).
    { apply (pow_bound_31 2); lia. }
    rewrite mk_pp_id by lia.
    replace (F ++ l ++ [mkpp 1 e; pp0])
      with (F ++ (l ++ [mkpp 1 e]) ++ [pp0])
      by (rewrite <- app_assoc; reflexivity).
    assert (Hnz' : Forall (fun x => pp_pi x <> 0) (l ++ [mkpp 1 e])).
    { apply Forall_app. split; auto. constructor; auto. simpl. lia. }
    split; [split|].
    + intros _ r Hr Hd. rewrite Hmq in Hd.
      apply Z.divide_prime_mul in Hd; auto. destruct Hd as [Hd|Hd].
      * apply Hiff in E. apply E; auto.
      * apply Z.divide_prime_pp in Hd; auto using Z.prime_2. lia.
    + intros _. unfold foff.
      destruct Hat as (pre & rest & -> & _).
      rewrite !length_app. simpl. lia.
    + intros _. exists (l ++ [mkpp 1 e]). split; [|split].
      * apply fac_at_end, Hnz'.
      * rewrite pprod_app, Hprod. simpl. rewrite HP1. lia.
      * exists (Z.max b 2). rewrite (entries_self _ Hnz').
        apply descending_snoc; simpl; try lia.
        -- apply (descending_mono l b); auto. lia.
        -- intros y Hy.
           destruct (descending_In _ _ _ Hdesc Hy) as [Hy1 Hy2].
           assert (pp_pi y <> 1); [|lia]. intros E1.
           pose proof (pprod_divide P l y Hy Hy2) as Hd.
           rewrite E1, HP1, Hprod in Hd.
           apply Z.mod_divide in Hd; lia.
Qed.

Lemma even_loop_spec (fuel : nat) :
  forall (m : Z) (M : list Z) (F : list pp) (M' : list Z) (F' : list pp),
  m mod 2 = 0 -> 0 <= m <= maxm ->
  Z.of_nat (length M) = maxm + 1 ->
  (forall q, 1 <= q <= maxm -> q mod 2 = 1 -> entry_ok P B F q M.[q]) ->
  (forall q, m < q <= maxm -> q mod 2 = 0 -> entry_ok P B F q M.[q]) ->
  even_loop fuel m M F = Ok (M', F') ->
  forall q, 1 <= q <= maxm -> entry_ok P B F' q M'.[q].
Proof.
  induction fuel as [|k IH]; intros m M F M' F' Hev Hm Hlen HO HE H;
    simpl in H; [discriminate|].
  destruct (Z.gtb_spec m 1) as [Hgt|Hle].
  - destruct (v2_spec m ltac:(lia)) as (He0 & Hmq & Hqodd & He1).
    assert (Hpw : 0 < 2 ^ v2 m) by (apply Z.pow_pos_nonneg; lia).
    assert (Hqr : 1 <= Z.shiftr m (v2 m) <= maxm) by nia.
    pose proof (even_entry M F m ltac:(lia) Hev
                  (HO _ Hqr Hqodd)) as Hent.
    destruct (M.[Z.shiftr m (v2 m)] =? 0).
    + eapply IH; [ | | | | | exact H]; try zlia.
      * rewrite zset_length. auto.
      * intros x Hx Hc. rewrite zget_zset_neq by zlia. apply HO; zlia.
      * intros x Hx Hc. destruct (Z.eq_dec x m) as [->|Hne].
        -- rewrite zget_zset.
           destruct (Z.eqb_spec m m), (Z.leb_spec 0 m),
             (Z.ltb_spec m (Z.of_nat (length M))); simpl; auto; lia.
        -- rewrite zget_zset_neq by auto. apply HE; zlia.
    + eapply IH; [ | | | | | exact H]; try zlia.
      * rewrite zset_length. auto.
      * intros x Hx Hc. rewrite zget_zset_neq by zlia.
        apply entry_ok_app, HO; zlia.
      * intros x Hx Hc. destruct (Z.eq_dec x m) as [->|Hne].
        -- rewrite zget_zset.
           destruct (Z.eqb_spec m m), (Z.leb_spec 0 m),
             (Z.ltb_spec m (Z.of_nat (length M))); simpl; auto; lia.
        -- rewrite zget_zset_neq by auto. apply entry_ok_app, HE; zlia.
  - injection H as <- <-. intros q Hq.
    destruct (Z.eq_dec (q mod 2) 1); [apply HO; auto|apply HE; zlia].
Qed.

End Loops.

(** ** Correctness of [setup] *)

Lemma zget_calloc (n i : Z) : (calloc n).[i] = 0.
Proof.
  unfold zget, calloc. destruct (i <? 0); auto. apply nth_repeat.
Qed.

Lemma calloc_length (n : Z) : 0 <= n -> Z.of_nat (length (calloc n)) = n.
Proof. intros H. unfold calloc. rewrite repeat_length. lia. Qed.

Lemma land_1 (x : Z) : Z.land x 1 = x mod 2.
Proof. change 1 with (Z.ones 1) at 1. rewrite Z.land_ones by lia. reflexivity. Qed.

Lemma setup_entries (maxp maxm : Z) (T : tables) :
  setup maxp maxm = Ok T ->
  2 <= MAXP T /\ MAXM T mod 2 = 1 /\ maxm <= MAXM T <= maxm + 1 /\
  prime_table (P T) (MAXP T) (MAXPI T) /\
  forall m, 1 <= m <= MAXM T ->
    entry_ok (P T) (MAXP T) (F T) m (M T).[m].
Proof.
  unfold setup. intros H.
  set (B := sint32 maxp) in *.
  set (hi := primecount_pi B) in *.
  set (mm := if Z.land maxm 1 =? 0 then maxm + 1 else maxm) in *.
  inv_bind H. inv_bind H. inv_bind H. inv_bind H. inv_bind H.
  destruct (fill_primes (primes_upto B) 1 (zset (calloc (hi + 1)) 0 1)
              (calloc (B + 1))) as [P0 PI1] eqn:EP.
  pose proof (setup_P B (calloc (B + 1))) as HPeq.
  fold hi in HPeq. rewrite EP in HPeq. simpl in HPeq. subst P0.
  apply bind_Ok in H. destruct H as (M0 & Hsieve & H).
  apply bind_Ok in H. destruct H as ([M1 F1] & Hodd & H).
  apply bind_Ok in H. destruct H as ([M2 F2] & Heven & H).
  inv_bind H. injection H as <-. simpl.
  apply andb_prop in Ha2. destruct Ha2 as [Hmm0 HmmB].
  apply Z.leb_le in Ha0, Ha1, Ha3, Hmm0. apply Z.ltb_lt in HmmB.
  assert (Hmodd : mm mod 2 = 1).
  { unfold mm. rewrite land_1.
    destruct (Z.eqb_spec (maxm mod 2) 0); zlia. }
  assert (Hmr : maxm <= mm <= maxm + 1).
  { unfold mm. destruct (Z.land maxm 1 =? 0); lia. }
  assert (Hmm1 : 1 <= mm) by zlia.
  assert (HB : 2 <= B) by nia.
  assert (Hhi : 0 <= hi < 2 ^ 24).
  { unfold hi, primecount_pi in *. unfold MAXPI_init in Ha0. lia. }
  assert (Hmm31 : mm < 2 ^ 31) by (unfold MAXM_init in Ha1; lia).
  pose proof (prime_table_setup B) as HT. fold hi in HT.
  pose proof (prime_table_2 B HB) as HP1.
  refine (conj HB (conj Hmodd (conj Hmr (conj HT _)))).
  (* the sieve *)
  apply sieve_spec in Hsieve; try lia.
  2:{ intros i Hi. pose proof (Z.prime_ge_2 _ (proj1 (proj1 HT i Hi))). lia. }
  2:{ apply calloc_length. lia. }
  2:{ intros q Hq. rewrite zget_calloc. split; [auto|]. intros j Hj. lia. }
  2:{ apply zget_calloc. }
  destruct Hsieve as (HlenM0 & HM00 & HL0).
  replace (Z.max (1 - 1) hi) with hi in HL0 by lia.
  (* the odd pass *)
  apply (odd_loop_spec (1 :: primes_upto B) B hi mm HT Hhi Hmm31) in Hodd;
    auto; try lia.
  destruct Hodd as (HlenM1 & HlenF1 & HL1 & HE1).
  (* M[1] and the even pass *)
  eapply (even_loop_spec (1 :: primes_upto B) B hi mm Hhi Hmm31 HP1 HB);
    [ | | | | | exact Heven]; try zlia.
  - rewrite zset_length. exact HlenM1.
  - intros q Hq Hqodd. destruct (Z.eq_dec q 1) as [->|Hne].
    + rewrite zget_zset.
      destruct (Z.eqb_spec 1 1), (Z.leb_spec 0 1),
        (Z.ltb_spec 1 (Z.of_nat (length M1))); simpl; try lia.
      split; [split|].
      * intros _. apply smooth_1.
      * intros _. unfold foff. lia.
      * intros _. exists []. split; [|split].
        -- apply (fac_at_end F1 [] []). constructor.
        -- reflexivity.
        -- exists 0. exact I.
    + rewrite zget_zset_neq by auto. apply entry_ok_app, HE1; auto. lia.
  - intros q Hq Hqev. exfalso. zlia.
Qed.

(** The prime bound of the tables is the argument maxp, as an [int32_t]. *)
Lemma setup_MAXP (maxp maxm : Z) (T : tables) :
  setup maxp maxm = Ok T -> MAXP T = sint32 maxp /\ maxp <= MAXP_init.
Proof.
  unfold setup. intros H.
  inv_bind H. inv_bind H. inv_bind H. inv_bind H. inv_bind H.
  destruct (fill_primes _ _ _ _) as [P0 PI1].
  apply bind_Ok in H. destruct H as (M0 & _ & H).
  apply bind_Ok in H. destruct H as ([M1 F1] & _ & H).
  apply bind_Ok in H. destruct H as ([M2 F2] & _ & H).
  inv_bind H. injection H as <-. split; [reflexivity|].
  apply Z.leb_le in Ha. exact Ha.
Qed.

(** C1. After [setup (maxp, maxm)] the prime bound MAXP is maxp (as an
    [int32_t]; maxp itself when it is not below -2^31) and the cofactor
    bound MAXM is maxm or maxm + 1; for every m from 1 to the cofactor
    bound, M[m] is nonzero exactly when every prime factor of m is at
    most the prime bound, and then the factorization stored at F + M[m]
    multiplies out to m. *)
Theorem setup_table_correct (maxp maxm : Z) (T : tables) :
  setup maxp maxm = Ok T ->
  MAXP T = sint32 maxp /\ (- 2 ^ 31 <= maxp -> MAXP T = maxp) /\
  maxm <= MAXM T <= maxm + 1 /\
  forall m, 1 <= m <= MAXM T ->
    ((M T).[m] <> 0 <->
     forall p, Z.prime p -> (p | m) -> p <= MAXP T) /\
    ((M T).[m] <> 0 -> fprod (P T) (fptr (F T) (M T).[m]) = m).
Proof.
  intros H.
  destruct (setup_entries _ _ _ H) as (_ & _ & Hmm & _ & HE).
  destruct (setup_MAXP _ _ _ H) as [HB Hle].
  split; [exact HB|]. split.
  { intros Hlo. rewrite HB. unfold sint32, MAXP_init in *.
    rewrite Z.mod_small by lia. lia. }
  split; [exact Hmm|]. intros m Hm.
  destruct (HE m Hm) as [Hiff Hfac]. split; [exact Hiff|].
  intros Hnz. destruct (Hfac Hnz) as (l & Hat & Hprod & _).
  unfold fprod. rewrite (fac_at_entries _ _ _ Hat). exact Hprod.
Qed.

(** The theorem on [setup (5, 10)]: the bounds are 5 and 11, the entry
    of 10 = 2 * 5 is present and its factorization multiplies out to 10,
    the entry of 7 is absent. *)
Lemma setup_table_correct_witness :
  exists T, setup 5 10 = Ok T /\
    MAXP T = 5 /\ MAXM T = 11 /\
    (M T).[10] <> 0 /\ fprod (P T) (fptr (F T) (M T).[10]) = 10 /\
    (M T).[7] = 0.
Proof.
  assert (HT : exists T, setup 5 10 = Ok T /\ MAXM T = 11)
    by (vm_compute; eexists; split; reflexivity).
  destruct HT as (T & HT & HM).
  exists T. split; [exact HT|].
  destruct (setup_table_correct 5 10 T HT) as (_ & HP & _ & Hall).
  specialize (HP ltac:(lia)).
  split; [exact HP|]. split; [exact HM|].
  destruct (Hall 10 ltac:(lia)) as [Hiff10 Hprod10].
  destruct (Hall 7 ltac:(lia)) as [Hiff7 _].
  assert (H10 : (M T).[10] <> 0).
  { apply Hiff10. intros p Hp Hd. rewrite HP.
    change 10 with (2 * 5) in Hd.
    apply (Z.divide_prime_mul _ _ _ Hp) in Hd.
    destruct Hd as [Hd|Hd]; apply Z.divide_pos_le in Hd; lia. }
  split; [exact H10|]. split; [exact (Hprod10 H10)|].
  destruct (Z.eq_dec (M T).[7] 0) as [Hz|Hnz]; [exact Hz|exfalso].
  assert (H7 : Z.prime 7) by (apply is_prime_spec; vm_compute; reflexivity).
  pose proof (proj1 Hiff7 Hnz 7 H7 (Z.divide_refl 7)). lia.
Defined.

(** Every stored factorization is well formed: prime indices strictly
    descending, exponents at least one. *)
Lemma setup_fac_wf (maxp maxm : Z) (T : tables) (m : Z) :
  setup maxp maxm = Ok T -> 1 <= m <= MAXM T -> (M T).[m] <> 0 ->
  fac_wf (fptr (F T) (M T).[m]).
Proof.
  intros H Hm Hnz.
  destruct (setup_entries _ _ _ H) as (_ & _ & _ & _ & HE).
  destruct (HE m Hm) as [_ Hfac].
  destruct (Hfac Hnz) as (l & Hat & _ & [b Hd]).
  exists b. rewrite (fac_at_entries _ _ _ Hat).
  destruct Hat as (? & ? & _ & _ & Hl). rewrite entries_self in Hd; auto.
Qed.

(** ** Certificates *)

Lemma fac_extend_spec (v : fac) (n m : Z) (f : list pp) (p q c : Z)
    (v' : fac) :
  fac_extend v n m f p q c = Ok v' ->
  fac_t v' = fac_t v /\ fac_N v' = fac_N v /\
  exists r, fac_L v' = fac_L v ++ [r] /\
            it_n r = n /\ it_m r = m /\ it_p r = p /\ it_q r = q /\
            item_ok (fac_t v) r.
Proof.
  unfold fac_extend. intros H. inv_bind H. inv_bind H.
  injection H as <-. simpl. repeat split; auto.
  eexists. split; [reflexivity|]. simpl. repeat split; auto.
  unfold item_ok; simpl. apply Z.geb_le in Ha. lia.
Qed.

Lemma fac_extend_keeps (v : fac) (n m : Z) (f : list pp) (p q c : Z)
    (v' : fac) :
  fac_extend v n m f p q c = Ok v' ->
  Forall (item_ok (fac_t v)) (fac_L v) ->
  fac_t v' = fac_t v /\ fac_N v' = fac_N v /\
  Forall (item_ok (fac_t v')) (fac_L v').
Proof.
  intros H Hall. apply fac_extend_spec in H.
  destruct H as (Ht & HN & r & HL & _ & _ & _ & _ & Hr).
  rewrite Ht, HL. repeat split; auto.
  apply Forall_app. split; auto.
Qed.

Lemma verify_item_ok (T : tables) (N sqrtN t maxp : Z)
    (st st' : list Z * Z * Z * Z * Z) (r : fac_item) :
  verify_item T N sqrtN t maxp st r = Ok st' -> item_ok t r.
Proof.
  unfold verify_item. destruct st as [[[[E cnt] lastp] lastpi] nextpi].
  intros H. inv_bind H. inv_bind H.
  unfold item_ok. apply Z.geb_le in Ha0. lia.
Qed.

Lemma verify_items_ok (T : tables) (N sqrtN t maxp : Z) (L : list fac_item) :
  forall st st',
  verify_items T N sqrtN t maxp st L = Ok st' -> Forall (item_ok t) L.
Proof.
  induction L as [|r L IH]; intros st st' H; simpl in H; constructor.
  - apply bind_Ok in H. destruct H as (st1 & H1 & _).
    eapply verify_item_ok; eauto.
  - apply bind_Ok in H. destruct H as (st1 & _ & H2). eauto.
Qed.

Lemma fac_verify_ok (T : tables) (v : fac) (r : list Z * Z) :
  fac_verify T v = Ok r -> Forall (item_ok (fac_t v)) (fac_L v).
Proof.
  unfold fac_verify. intros H.
  apply bind_Ok in H. destruct H as (s & _ & H).
  apply bind_Ok in H. destruct H as (E & _ & H).
  apply bind_Ok in H. destruct H as (st & Hv & _).
  eapply verify_items_ok; eauto.
Qed.

(** The replayed valuation vector ends without a negative component. *)
Lemma all_nonneg_spec (E : list Z) (maxpi : Z) :
  all_nonneg E maxpi = true -> forall i, 1 <= i <= maxpi -> 0 <= E.[i].
Proof.
  unfold all_nonneg. rewrite forallb_forall. intros H i Hi.
  specialize (H i). rewrite zrange_In in H.
  specialize (H ltac:(lia)). apply Z.geb_le in H. lia.
Qed.

(** ** Wrapping arithmetic *)

Lemma wrap64_range (z : Z) : - 2 ^ 63 <= wrap64 z < 2 ^ 63.
Proof.
  unfold wrap64.
  pose proof (Z.mod_pos_bound (z + 2 ^ 63) (2 ^ 64) ltac:(lia)). lia.
Qed.

Lemma wrap64_small (z : Z) : - 2 ^ 63 <= z < 2 ^ 63 -> wrap64 z = z.
Proof. intros H. unfold wrap64. rewrite Z.mod_small by lia. lia. Qed.

Lemma wrap64_le (z : Z) : - 2 ^ 63 <= z -> wrap64 z <= z.
Proof.
  intros H. unfold wrap64.
  pose proof (Z.mod_le (z + 2 ^ 63) (2 ^ 64) ltac:(lia) ltac:(lia)). lia.
Qed.

Lemma wrap64_eqm (z : Z) : exists k, wrap64 z = z + k * 2 ^ 64.
Proof.
  unfold wrap64. exists (- ((z + 2 ^ 63) / 2 ^ 64)).
  pose proof (Z.div_mod (z + 2 ^ 63) (2 ^ 64) ltac:(lia)). lia.
Qed.

Lemma wrap64_unique (z y : Z) :
  - 2 ^ 63 <= y < 2 ^ 63 -> (2 ^ 64 | z - y) -> wrap64 z = y.
Proof.
  intros Hy [c Hc]. destruct (wrap64_eqm z) as [k Hk].
  pose proof (wrap64_range z). lia.
Qed.

Lemma wrap64_mul_l (a b : Z) : wrap64 (wrap64 a * b) = wrap64 (a * b).
Proof.
  apply wrap64_unique; [apply wrap64_range|].
  destruct (wrap64_eqm a) as [k Hk].
  destruct (wrap64_eqm (a * b)) as [k' Hk'].
  exists (k * b - k'). rewrite Hk, Hk'. ring.
Qed.

(** Below its wrap-around the sum of [cdiv] is the sum. *)
Lemma cdiv_small (a b : Z) :
  - 2 ^ 63 <= a + b - 1 < 2 ^ 63 -> cdiv a b = (a + b - 1) ÷ b.
Proof. intros H. unfold cdiv. rewrite wrap64_small by exact H. reflexivity. Qed.

(** ** The powers of an odd number modulo 2^64 *)

(** A positive integer is a power of two times an odd number. *)
Lemma odd_part (z : Z) :
  0 < z -> exists w u, 0 <= w /\ u mod 2 = 1 /\ z = 2 ^ w * u.
Proof.
  intros Hz. assert (H0 : 0 <= z) by lia. revert Hz. pattern z.
  apply Z_lt_induction; [|exact H0]. clear. intros x IH Hx.
  destruct (Z.eq_dec (x mod 2) 1) as [Ho|He].
  - exists 0, x. rewrite Z.pow_0_r. lia.
  - assert (Hx2 : x = 2 * (x / 2)) by zlia.
    destruct (IH (x / 2)) as (w & u & Hw & Hu & E); [zlia|zlia|].
    exists (w + 1), u. split; [lia|]. split; [exact Hu|].
    rewrite Z.pow_add_r, Z.pow_1_r by lia. lia.
Qed.

(** Squaring x = 1 + 2^w u with u odd and w >= 2 raises the power of two
    by one and keeps the cofactor odd. *)
Lemma square_lift (x w u : Z) (j : nat) :
  2 <= w -> u mod 2 = 1 -> x = 1 + 2 ^ w * u ->
  exists v, v mod 2 = 1 /\
            x ^ (2 ^ Z.of_nat j) = 1 + 2 ^ (w + Z.of_nat j) * v.
Proof.
  intros Hw Hu Hx. induction j as [|j IH].
  - exists u. split; [exact Hu|].
    change (Z.of_nat 0) with 0. rewrite Z.pow_0_r, Z.pow_1_r, Z.add_0_r.
    exact Hx.
  - destruct IH as (v & Hv & E).
    set (B := 2 ^ (w + Z.of_nat j - 1)).
    assert (HA : 2 ^ (w + Z.of_nat j) = 2 * B).
    { unfold B. rewrite <- Z.pow_succ_r by lia. f_equal. lia. }
    assert (HB : B = 2 * 2 ^ (w + Z.of_nat j - 2)).
    { unfold B. rewrite <- Z.pow_succ_r by lia. f_equal. lia. }
    exists (v + B * v * v). split.
    + rewrite HB. zlia.
    + rewrite Nat2Z.inj_succ.
      rewrite (Z.pow_succ_r 2) by lia.
      rewrite (Z.mul_comm 2), (Z.pow_mul_r x) by lia.
      rewrite E.
      replace (w + Z.succ (Z.of_nat j)) with (Z.succ (w + Z.of_nat j)) by lia.
      rewrite (Z.pow_succ_r 2 (w + Z.of_nat j)) by lia.
      rewrite HA. ring.
Qed.

(** Every y = 1 modulo 2^w is a power of x modulo 2^(w+d), with an
    exponent below 2^d. *)
Lemma power_reaches (x y w u : Z) :
  2 <= w -> u mod 2 = 1 -> x = 1 + 2 ^ w * u ->
  y mod 2 = 1 -> (2 ^ w | y - 1) ->
  forall d : nat, exists k,
    0 <= k < 2 ^ Z.of_nat d /\ (2 ^ (w + Z.of_nat d) | x ^ k - y).
Proof.
  intros Hw Hu Hx Hy [c0 Hc0] d. induction d as [|d IH].
  - exists 0. change (Z.of_nat 0) with 0.
    rewrite Z.pow_0_r, Z.add_0_r. split; [lia|].
    exists (- c0). lia.
  - destruct IH as (k & Hk & [c Hc]).
    destruct (square_lift x w u d Hw Hu Hx) as (v & Hv & E).
    rewrite Nat2Z.inj_succ.
    replace (w + Z.succ (Z.of_nat d)) with (Z.succ (w + Z.of_nat d)) by lia.
    rewrite !Z.pow_succ_r by lia.
    set (A := 2 ^ (w + Z.of_nat d)) in *.
    assert (HA : A = 2 * 2 ^ (w + Z.of_nat d - 1)).
    { unfold A. rewrite <- Z.pow_succ_r by lia. f_equal. lia. }
    set (A' := 2 ^ (w + Z.of_nat d - 1)) in *.
    assert (Hd : 0 < 2 ^ Z.of_nat d) by (apply Z.pow_pos_nonneg; lia).
    destruct (Z.eq_dec (c mod 2) 0) as [He|Ho].
    + exists k. split; [lia|]. exists (c / 2).
      assert (c = 2 * (c / 2)) by zlia. nia.
    + exists (k + 2 ^ Z.of_nat d). split; [lia|].
      rewrite Z.pow_add_r by lia. rewrite E.
      assert (Hc2 : c = 2 * (c / 2) + 1) by zlia.
      assert (Hy2 : y = 2 * (y / 2) + 1) by zlia.
      assert (Hv2 : v = 2 * (v / 2) + 1) by zlia.
      exists (c / 2 + 2 * (y / 2) * (v / 2) + y / 2 + v / 2 + 1 + c * A' * v).
      replace (x ^ k) with (y + c * A) by lia.
      rewrite HA.
      set (c' := c / 2) in *. set (y' := y / 2) in *. set (v' := v / 2) in *.
      clearbody c' y' v'. rewrite Hc2, Hy2, Hv2. ring.
Qed.

(** Some power of an odd p < 2^31 is 2^62 + 1 modulo 2^64. *)
Lemma odd_power_large (p : Z) :
  3 <= p < 2 ^ 31 -> p mod 2 = 1 ->
  exists k, 1 <= k <= 2 ^ 63 /\ (2 ^ 64 | p ^ k - (2 ^ 62 + 1)).
Proof.
  intros Hp Hodd.
  destruct (odd_part (p * p - 1) ltac:(nia)) as (w & u & Hw & Hu & E).
  assert (Hu1 : 1 <= u).
  { assert (0 < 2 ^ w) by (apply Z.pow_pos_nonneg; lia).
    assert (u <> 0) by (intros ->; zlia). nia. }
  assert (H4 : exists n, p * p - 1 = 4 * n).
  { exists (p / 2 * (p / 2) + p / 2).
    assert (p = 2 * (p / 2) + 1) by zlia. nia. }
  destruct H4 as [n Hn].
  assert (Hw2 : 2 <= w).
  { destruct (Z.le_gt_cases 2 w) as [|Hlt]; [assumption|exfalso].
    assert (Hc : w = 0 \/ w = 1) by lia.
    destruct Hc as [-> | ->]; [rewrite Z.pow_0_r in E|rewrite Z.pow_1_r in E];
      zlia. }
  assert (Hw61 : w <= 61).
  { destruct (Z.le_gt_cases w 61) as [|Hgt]; [assumption|exfalso].
    assert (2 ^ 62 <= 2 ^ w) by (apply Z.pow_le_mono_r; lia).
    assert (p * p < 2 ^ 62) by nia. nia. }
  assert (Hdiv : (2 ^ w | 2 ^ 62 + 1 - 1)).
  { exists (2 ^ (62 - w)). rewrite <- Z.pow_add_r by lia.
    replace (62 - w + w) with 62 by lia. lia. }
  destruct (power_reaches (p * p) (2 ^ 62 + 1) w u Hw2 Hu ltac:(lia)
              ltac:(reflexivity) Hdiv (Z.to_nat (64 - w)))
    as (k & Hk & Hkd).
  rewrite Z2Nat.id in Hk, Hkd by lia.
  replace (w + (64 - w)) with 64 in Hkd by lia.
  assert (Hk62 : 2 ^ (64 - w) <= 2 ^ 62) by (apply Z.pow_le_mono_r; lia).
  assert (Hk0 : k <> 0).
  { intros ->. rewrite Z.pow_0_r in Hkd. destruct Hkd as [c Hc]. lia. }
  exists (2 * k). split; [lia|].
  rewrite Z.pow_mul_r by lia. rewrite Z.pow_2_r. exact Hkd.
Qed.

(** Some wrapped power of a small prime exceeds every N < 2^62. *)
Lemma wrapped_power_exceeds (N p : Z) :
  N < 2 ^ 62 -> Z.prime p -> p < 2 ^ 31 ->
  exists k, 1 <= k <= 2 ^ 63 /\ N < wrap64 (p ^ k).
Proof.
  intros HN Hpr Hp.
  pose proof (Z.prime_ge_2 _ Hpr) as Hp2.
  destruct (Z.eq_dec p 2) as [->|Hne].
  { exists 62. split; [lia|]. rewrite wrap64_small; lia. }
  assert (Hodd : p mod 2 = 1).
  { destruct (Z.eq_dec (p mod 2) 1) as [|Hev]; [assumption|exfalso].
    assert (Hd : (2 | p)) by (exists (p / 2); zlia).
    destruct (Z.divide_prime_r _ _ Hpr Hd) as [|[|[|]]]; lia. }
  destruct (odd_power_large p ltac:(lia) Hodd) as (k & Hk & Hd).
  exists k. split; [exact Hk|].
  rewrite (wrap64_unique (p ^ k) (2 ^ 62 + 1)); [lia|lia|exact Hd].
Qed.

(** ** Loops counted in binary *)

Lemma rounds_spec {St R : Type} (body : St -> res (St + R)) (st : Z -> St) :
  (forall j, 0 <= j ->
     body (st j) = Ok (inl (st (j + 1))) \/
     (exists r, body (st j) = Ok (inr r)) \/ body (st j) = Abort) ->
  forall (k : nat) (j : Z), 0 <= j ->
    (rounds k body (st j) = Ok (inl (st (j + 2 ^ Z.of_nat k))) /\
     forall i, j <= i < j + 2 ^ Z.of_nat k ->
               body (st i) = Ok (inl (st (i + 1)))) \/
    (exists r, rounds k body (st j) = Ok (inr r)) \/
    rounds k body (st j) = Abort.
Proof.
  intros Hstep. induction k as [|k IH]; intros j Hj.
  - change (Z.of_nat 0) with 0. rewrite Z.pow_0_r. cbn [rounds].
    destruct (Hstep j Hj) as [H|H]; [left|right; exact H].
    split; [exact H|]. intros i Hi. replace i with j by lia. exact H.
  - rewrite Nat2Z.inj_succ, Z.pow_succ_r by lia. cbn [rounds].
    assert (Hpos : 0 < 2 ^ Z.of_nat k) by (apply Z.pow_pos_nonneg; lia).
    destruct (IH j Hj) as [[H1 Hall1]|[[r H1]|H1]].
    + rewrite H1. cbn [bind].
      destruct (IH (j + 2 ^ Z.of_nat k) ltac:(lia)) as [[H2 Hall2]|H2].
      * left. split.
        -- rewrite H2. f_equal. f_equal. f_equal. lia.
        -- intros i Hi.
           destruct (Z.lt_ge_cases i (j + 2 ^ Z.of_nat k));
             [apply Hall1|apply Hall2]; lia.
      * right. exact H2.
    + right. left. exists r. rewrite H1. reflexivity.
    + right. right. rewrite H1. reflexivity.
Qed.

(** ** The valuations return *)

Lemma val_state_succ (N p j : Z) :
  0 <= j -> val_state N p (j + 1) = val_next N p (val_state N p j).
Proof.
  intros Hj. unfold val_state.
  replace (Z.to_nat (j + 1)) with (S (Z.to_nat j)) by lia. reflexivity.
Qed.

Lemma val_state_q (N p j : Z) :
  - 2 ^ 63 <= p < 2 ^ 63 -> 0 <= j ->
  fst (val_state N p j) = wrap64 (p ^ (j + 1)).
Proof.
  intros Hp Hj. revert j Hj. apply natlike_ind.
  - unfold val_state. change (Z.to_nat 0) with O. cbn [val_states fst].
    change (0 + 1) with 1. rewrite Z.pow_1_r, wrap64_small; auto.
  - intros j Hj IH. unfold Z.succ. rewrite val_state_succ by lia.
    unfold val_next. cbn [fst]. rewrite IH, wrap64_mul_l.
    rewrite (Z.pow_add_r p (j + 1) 1), Z.pow_1_r by lia. reflexivity.
Qed.

Lemma val_round_step (N p j : Z) :
  0 <= j ->
  val_round N p (val_state N p j) = Ok (inl (val_state N p (j + 1))) \/
  (exists r, val_round N p (val_state N p j) = Ok (inr r)) \/
  val_round N p (val_state N p j) = Abort.
Proof.
  intros Hj. rewrite val_state_succ by exact Hj.
  destruct (val_state N p j) as [q e]. unfold val_round, val_next, divz.
  destruct (q <=? N); [|right; left; exists e; reflexivity].
  destruct (q =? 0); cbn [bind fst snd]; [right; right|left]; reflexivity.
Qed.

(** The inner loop ends, also when q wraps around: with N < 2^62 and a
    prime p < 2^31, a wrapped power of p above N comes up within 2^63
    rounds. *)
Lemma valuation_runs (N p : Z) :
  N < 2 ^ 62 -> Z.prime p -> p < 2 ^ 31 -> valuation N p <> Fuel.
Proof.
  intros HN Hpr Hp. unfold valuation.
  pose proof (Z.prime_ge_2 _ Hpr) as Hp2.
  destruct (rounds_spec (val_round N p) (val_state N p)
              (val_round_step N p) 64 0 ltac:(lia))
    as [[_ Hall]|[[r H1]|H1]].
  - exfalso. change (Z.of_nat 64) with 64 in Hall.
    destruct (wrapped_power_exceeds N p HN Hpr Hp) as (k & Hk & Hgt).
    specialize (Hall (k - 1) ltac:(lia)).
    pose proof (val_state_q N p (k - 1) ltac:(lia) ltac:(lia)) as Hq.
    replace (k - 1 + 1) with k in Hq by lia.
    destruct (val_state N p (k - 1)) as [q e]. cbn [fst] in Hq.
    unfold val_round in Hall.
    destruct (Z.leb_spec q N); [lia|discriminate].
  - change (val_state N p 0) with (p, 0) in H1. rewrite H1.
    cbn [bind]. discriminate.
  - change (val_state N p 0) with (p, 0) in H1. rewrite H1.
    cbn [bind]. discriminate.
Qed.


(** ** Termination of simple loops *)

Lemma while_runs {S : Type} (cond : S -> bool) (body : S -> res S)
    (Inv : S -> Prop) (mu : S -> nat) :
  (forall s, Inv s -> cond s = true ->
     match body s with
     | Ok s' => Inv s' /\ (mu s' < mu s)%nat
     | Abort => True
     | Fuel => False
     end) ->
  forall fuel s, Inv s -> (mu s < fuel)%nat -> while_ fuel cond body s <> Fuel.
Proof.
  intros Hstep. induction fuel as [|k IH]; intros s Hi Hm; [lia|].
  simpl. destruct (cond s) eqn:Ec; [|discriminate].
  specialize (Hstep s Hi Ec).
  destruct (body s) as [s'| |]; simpl; [|discriminate|contradiction].
  destruct Hstep as [Hi' Hm']. apply IH; auto. lia.
Qed.

(** ** The table PI *)

Lemma fill_primes_snd_bound (hi : Z) (ps : list Z) :
  forall n P PI,
  (forall x, 0 <= PI.[x] <= hi) ->
  0 <= n -> n + Z.of_nat (length ps) <= hi + 1 ->
  forall x, 0 <= (snd (fill_primes ps n P PI)).[x] <= hi.
Proof.
  induction ps as [|p ps IH]; intros n P PI HPI Hn Hlen x; simpl; auto.
  apply IH; try (simpl in Hlen; lia).
  intros y. rewrite zget_zset. destruct (_ && _)%bool; auto.
  simpl in Hlen. lia.
Qed.

Lemma fill_pi_bound (hi : Z) (ns : list Z) :
  forall PI, (forall x, 0 <= PI.[x] <= hi) ->
  forall x, 0 <= (fill_pi ns PI).[x] <= hi.
Proof.
  induction ns as [|n ns IH]; intros PI HPI x; simpl; auto.
  apply IH. intros y. destruct (PI.[n] =? 0); auto.
  rewrite zget_zset. destruct (_ && _)%bool; auto.
Qed.

Lemma setup_PI_bound (maxp maxm : Z) (T : tables) :
  setup maxp maxm = Ok T -> forall x, 0 <= (PI T).[x] <= MAXPI T.
Proof.
  unfold setup. intros H.
  set (B := sint32 maxp) in *.
  set (hi := primecount_pi B) in *.
  inv_bind H. inv_bind H. inv_bind H. inv_bind H. inv_bind H.
  destruct (fill_primes (primes_upto B) 1 (zset (calloc (hi + 1)) 0 1)
              (calloc (B + 1))) as [P0 PI1] eqn:EP.
  apply bind_Ok in H. destruct H as (M0 & _ & H).
  apply bind_Ok in H. destruct H as ([M1 F1] & _ & H).
  apply bind_Ok in H. destruct H as ([M2 F2] & _ & H).
  inv_bind H. injection H as <-. simpl.
  apply fill_pi_bound.
  change PI1 with (snd (P0, PI1)). rewrite <- EP.
  apply fill_primes_snd_bound.
  - intros x. rewrite zget_calloc. unfold hi, primecount_pi. lia.
  - lia.
  - unfold hi, primecount_pi. lia.
Qed.

Lemma sint32_range (z : Z) : - 2 ^ 31 <= sint32 z < 2 ^ 31.
Proof.
  unfold sint32.
  pose proof (Z.mod_pos_bound (z + 2 ^ 31) (2 ^ 32) ltac:(lia)). lia.
Qed.

(** The primes of the table are primes below 2^31. *)
Lemma table_primes_small (maxp maxm : Z) (T : tables) :
  setup maxp maxm = Ok T ->
  forall i, 1 <= i <= MAXPI T -> Z.prime (P T).[i] /\ (P T).[i] < 2 ^ 31.
Proof.
  intros HT i Hi.
  destruct (setup_entries _ _ _ HT) as (_ & _ & _ & [HP _] & _).
  destruct (HP i Hi) as [Hpr Hle]. split; [exact Hpr|].
  destruct (setup_MAXP _ _ _ HT) as [HB _].
  pose proof (sint32_range maxp). lia.
Qed.

(** ** Preconditions of [tfac] *)

Lemma fac_s_spec (T : tables) (t : Z) :
  1 <= t ->
  fac_s T t = if s_of t <=? MAXP T then Ok (s_of t) else Abort.
Proof.
  intros Ht. unfold fac_s, s_of.
  pose proof (Z.sqrt_spec t ltac:(lia)) as Hs. cbv zeta in Hs.
  pose proof (Z.sqrt_nonneg t) as Hs0.
  set (s := Z.sqrt t) in *.
  assert (Hs1 : 1 <= s) by nia.
  destruct (Z.leb_spec 0 t); [|lia]. cbn [assert bind].
  destruct (Z.ltb_spec (s * (s - 1)) t); [|nia]. cbn [assert bind while_].
  destruct (Z.ltb_spec (s * (s - 1)) t); [|nia]. cbn [bind].
  replace (s + 1 - 1) with s by lia.
  destruct (Z.ltb_spec ((s + 1) * s) t) as [H2|H2]; cbn [bind].
  - replace (s + 1 + 1) with (s + 2) by lia.
    destruct (Z.ltb_spec ((s + 2) * (s + 2 - 1)) t); [nia|]. cbn [bind].
    unfold assert. destruct (s + 2 <=? MAXP T); reflexivity.
  - unfold assert. destruct (s + 1 <=? MAXP T); reflexivity.
Qed.

Lemma valuations_runs (T : tables) (N maxpi : Z) :
  N < 2 ^ 62 ->
  (forall i, 1 <= i <= maxpi -> Z.prime (P T).[i] /\ (P T).[i] < 2 ^ 31) ->
  valuations T N maxpi <> Fuel.
Proof.
  intros HN HP. unfold valuations.
  match goal with |- context [while_ ?f ?c ?b ?s] =>
    assert (Hw : while_ f c b s <> Fuel) end.
  { apply (while_runs _ _
             (fun '(i, E) => 1 <= i)
             (fun '(i, E) => Z.to_nat (maxpi + 1 - i))).
    - intros [i E] Hi Hc. apply Z.leb_le in Hc.
      destruct (HP i ltac:(lia)) as [Hpr Hlt].
      pose proof (valuation_runs N (P T).[i] HN Hpr Hlt) as Hv.
      destruct (valuation N (P T).[i]); cbn [bind]; auto. lia.
    - lia.
    - lia. }
  destruct (while_ _ _ _ _) as [[i E]| |]; simpl; congruence.
Qed.

(** C7 (as the code has it). [tfac] aborts on every invocation outside
    its precondition: 10 <= N < 2^48 - 1, 2t < N < 4t, s at most MAXP, and
    the cofactor bound (t-1, or t^0.625 for the fast variant) at most
    MAXM. *)
Theorem tfac_precondition (lm : libm) (T : tables) (maxp maxm N t : Z)
    (fast feasible verify : bool) :
  setup maxp maxm = Ok T ->
  ~ code_pre lm T N t fast ->
  tfac lm T N t fast feasible verify = Abort.
Proof.
  intros HT Hpre. unfold tfac, tfac_run.
  destruct (Z.geb_spec N 10) as [H1|H1]; [|reflexivity].
  destruct (Z.ltb_spec N MAXN) as [H2|H2]; [|reflexivity].
  destruct (Z.gtb_spec (4 * t) N) as [H3|H3]; [|reflexivity].
  destruct (Z.ltb_spec (2 * t) N) as [H4|H4]; [|reflexivity].
  cbn [andb assert bind].
  rewrite fac_s_spec by lia.
  destruct (Z.leb_spec (s_of t) (MAXP T)) as [H5|H5]; [|reflexivity].
  cbn [bind].
  destruct (setup_entries _ _ _ HT) as (_ & _ & _ & [HP _] & _).
  pose proof (setup_PI_bound _ _ _ HT (s_of t - 1)) as HPI.
  pose proof (valuations_runs T N (PI T).[s_of t - 1]
                ltac:(unfold MAXN in H2; lia)) as Hv.
  destruct (valuations T N (PI T).[s_of t - 1]) as [E| |]; cbn [bind];
    [|reflexivity|].
  2:{ exfalso. apply Hv; auto. intros i Hi.
      apply (table_primes_small _ _ _ HT). lia. }
  assert (Hm : MAXM T < maxm_of lm t fast).
  { destruct (Z.lt_ge_cases (MAXM T) (maxm_of lm t fast)); auto.
    exfalso. apply Hpre. unfold code_pre, MAXN in *. lia. }
  unfold maxm_of in Hm. destruct fast; cbn [negb].
  - cbn [bind]. destruct (Z.leb_spec (pow_0625 lm t) (MAXM T)); [lia|].
    reflexivity.
  - destruct (Z.leb_spec t (MAXM T + 1)); [lia|]. reflexivity.
Qed.

Lemma T17_setup : setup 17 201 = Ok T17.
Proof. vm_compute. reflexivity. Qed.

(** The theorem at N = 9, below the bound of the assertion. *)
Lemma tfac_precondition_witness :
  setup 17 201 = Ok T17 /\ ~ code_pre exact_libm T17 9 3 false /\
  tfac exact_libm T17 9 3 false false false = Abort.
Proof.
  assert (H1 : setup 17 201 = Ok T17) by (vm_compute; reflexivity).
  assert (H2 : ~ code_pre exact_libm T17 9 3 false)
    by (unfold code_pre; lia).
  split; [exact H1|]. split; [exact H2|].
  exact (tfac_precondition exact_libm T17 17 201 9 3 false false false H1 H2).
Defined.

(** C7 fails as stated: N = 12 is outside the stated precondition
    (14 <= N), and [tfac] returns a count. *)
Lemma tfac_below_14 :
  ~ (~ spec_pre exact_libm T17 12 4 false ->
     tfac exact_libm T17 12 4 false false false = Abort).
Proof.
  intros H.
  assert (Hn : ~ spec_pre exact_libm T17 12 4 false)
    by (unfold spec_pre; lia).
  specialize (H Hn).
  assert (Hc : tfac exact_libm T17 12 4 false false false = Ok 11)
    by (vm_compute; reflexivity).
  rewrite Hc in H. discriminate H.
Qed.

(** ** The search [tbound] *)

Lemma tfac_Ok_pre (lm : libm) (T : tables) (N t : Z)
    (fast feasible verify : bool) (c : Z) :
  tfac lm T N t fast feasible verify = Ok c ->
  10 <= N < MAXN /\ N < 4 * t /\ 2 * t < N.
Proof.
  unfold tfac, tfac_run. intros H.
  apply bind_Ok in H. destruct H as (r & H & _).
  inv_bind H.
  apply andb_prop in Ha. destruct Ha as [Ha H4].
  apply andb_prop in Ha. destruct Ha as [Ha H3].
  apply andb_prop in Ha. destruct Ha as [H1 H2].
  apply Z.geb_le in H1. apply Z.ltb_lt in H2, H4. apply Z.gtb_lt in H3. lia.
Qed.

Section TboundProofs.
Variable lm : libm.
Variable T : tables.
Variables (N : Z) (fast verify : bool).

Local Abbreviation cnt_at := (count lm T N fast verify).

Local Abbreviation good := (good_t lm T N fast verify).
Local Abbreviation bad := (bad_t lm T N fast verify).

Lemma count_pre (x c : Z) : cnt_at x = Ok c -> 10 <= N /\ 3 <= x.
Proof.
  intros H. apply tfac_Ok_pre in H. lia.
Qed.

Lemma descend_spec (fuel : nat) :
  forall t cnt t' cnt',
  cnt_at t = Ok cnt ->
  descend lm T N fast verify fuel t cnt = Ok (t', cnt') ->
  cnt_at t' = Ok cnt' /\ N <= cnt' /\ t' <= t.
Proof.
  induction fuel as [|k IH]; intros t cnt t' cnt' Hc H; simpl in H;
    [discriminate|].
  destruct (Z.ltb_spec cnt N) as [Hlt|Hge].
  - apply bind_Ok in H. destruct H as (c1 & Hc1 & H).
    destruct (IH _ _ _ _ Hc1 H) as (H1 & H2 & H3). repeat split; auto; lia.
  - injection H as <- <-. repeat split; auto; lia.
Qed.

Lemma next_probe_range (tmin tmax t cnt : Z) :
  0 <= tmin < tmax ->
  tmin <= next_probe lm N tmin tmax t cnt < tmax /\
  (tmin < tmax - 1 -> tmin < next_probe lm N tmin tmax t cnt).
Proof.
  intros H. unfold next_probe.
  rewrite !min_spec, !max_spec.
  rewrite !Z.quot_div_nonneg by lia.
  destruct (Z.leb_spec (extrapolate lm t cnt N) tmin);
    match goal with |- context [?a >=? ?b] =>
      destruct (Z.geb_spec a b) end; zlia.
Qed.

Lemma bisect_spec (tmax0 : Z) (fuel : nat) :
  forall tmin tmax t cnt tmin' tmax',
  good tmin ->
  tmax = tmax0 \/ (bad tmax /\ tmin < tmax) ->
  cnt_at t = Ok cnt ->
  tmin <= t -> (tmin < tmax - 1 -> t < tmax) ->
  bisect lm T N fast verify fuel tmin tmax t cnt = Ok (tmin', tmax') ->
  good tmin' /\ (tmax' = tmax0 \/ (bad tmax' /\ tmin' < tmax')) /\
  tmax' - 1 <= tmin'.
Proof.
  induction fuel as [|k IH]; intros tmin tmax t cnt tmin' tmax'
    Hg Hb Hc Hle Hlt H; simpl in H; [discriminate|].
  destruct (Z.ltb_spec tmin (tmax - 1)) as [Hw|Hw].
  - specialize (Hlt Hw).
    apply bind_Ok in H. destruct H as (c1 & Hc1 & H).
    assert (Hpos : 0 <= tmin).
    { destruct Hg as (c & Hcg & _). apply count_pre in Hcg. lia. }
    destruct (Z.geb_spec cnt N) as [Hge|Hlo].
    + rewrite max_spec in *. replace (Z.max t tmin) with t in * by lia.
      destruct (next_probe_range t tmax t cnt ltac:(lia)) as [Hr1 Hr2].
      apply (IH _ _ _ _ _ _) in H; auto; try lia.
      * exists cnt. split; auto.
      * destruct Hb as [->|[Hb _]]; auto.
    + rewrite min_spec in *. replace (Z.min t tmax) with t in * by lia.
      assert (Hne : tmin < t).
      { destruct (Z.eq_dec t tmin) as [->|]; [|lia].
        destruct Hg as (c & Hcg & Hcn). rewrite Hc in Hcg.
        injection Hcg as ->. lia. }
      destruct (next_probe_range tmin t t cnt ltac:(lia)) as [Hr1 Hr2].
      apply (IH _ _ _ _ _ _) in H; auto; try lia.
      right. split; auto. exists cnt. split; auto; lia.
  - injection H as <- <-. repeat split; auto; lia.
Qed.

Lemma tbound_spec (a b tmin : Z) :
  tbound lm T N fast verify a b false = Ok tmin ->
  good tmin /\ bad (tmin + 1).
Proof.
  unfold tbound. intros H.
  inv_bind H.
  apply bind_Ok in H. destruct H as (t0 & _ & H).
  apply bind_Ok in H. destruct H as (c0 & Hc0 & H).
  apply bind_Ok in H. destruct H as ([t1 c1] & Hd & H).
  apply bind_Ok in H. destruct H as ([tmn tmx] & Hb & H).
  inv_bind H. simpl in H. injection H as <-.
  apply Z.ltb_lt in Ha0.
  destruct (descend_spec _ _ _ _ _ Hc0 Hd) as (Hc1 & Hn1 & _).
  apply (bisect_spec ((2 * N) ÷ 5)) in Hb; auto; try lia.
  - destruct Hb as (Hg & [Heq|[Hbad Hlt]] & Hw); [lia|].
    split; auto. replace (tmn + 1) with tmx by lia. exact Hbad.
  - exists c1. split; auto.
Qed.

(** The loops of [tbound] are not cut short by their fuel. *)
Hypothesis count_runs : forall x, cnt_at x <> Fuel.

Lemma descend_runs (fuel : nat) :
  forall t cnt, (Z.to_nat t < fuel)%nat ->
  descend lm T N fast verify fuel t cnt <> Fuel.
Proof.
  induction fuel as [|k IH]; intros t cnt Hf; [lia|]. simpl.
  destruct (cnt <? N); [|discriminate].
  destruct (cnt_at (t - 1)) as [c| |] eqn:E; simpl.
  - apply IH. apply count_pre in E. lia.
  - discriminate.
  - exfalso. exact (count_runs _ E).
Qed.

Lemma bisect_runs (fuel : nat) :
  forall tmin tmax t cnt,
  good tmin -> cnt_at t = Ok cnt ->
  tmin <= t -> (tmin < tmax - 1 -> t < tmax) ->
  ((if (tmin <? tmax - 1)%Z
    then Z.to_nat (tmax - tmin - 1) + (if (t =? tmin)%Z then 1 else 0)
    else 0) < fuel)%nat ->
  bisect lm T N fast verify fuel tmin tmax t cnt <> Fuel.
Proof.
  induction fuel as [|k IH]; intros tmin tmax t cnt Hg Hc Hle Hlt Hf;
    [lia|]. simpl.
  destruct (Z.ltb_spec tmin (tmax - 1)) as [Hw|Hw]; [|discriminate].
  specialize (Hlt Hw).
  assert (Hpos : 0 <= tmin).
  { destruct Hg as (c & Hcg & _). apply count_pre in Hcg. lia. }
  destruct (Z.geb_spec cnt N) as [Hge|Hlo].
  - rewrite max_spec. replace (Z.max t tmin) with t by lia.
    destruct (next_probe_range t tmax t cnt ltac:(lia)) as [Hr1 Hr2].
    destruct (cnt_at (next_probe lm N t tmax t cnt)) as [c| |] eqn:E;
      simpl; [|discriminate|exfalso; exact (count_runs _ E)].
    apply IH; auto; try lia.
    + exists cnt. split; auto.
    + destruct (Z.ltb_spec tmin (tmax - 1)), (Z.ltb_spec t (tmax - 1)),
        (Z.eqb_spec t tmin),
        (Z.eqb_spec (next_probe lm N t tmax t cnt) t); lia.
  - rewrite min_spec. replace (Z.min t tmax) with t by lia.
    assert (Hne : tmin < t).
    { destruct (Z.eq_dec t tmin) as [->|]; [|lia].
      destruct Hg as (c & Hcg & Hcn). rewrite Hc in Hcg.
      injection Hcg as ->. lia. }
    destruct (next_probe_range tmin t t cnt ltac:(lia)) as [Hr1 Hr2].
    destruct (cnt_at (next_probe lm N tmin t t cnt)) as [c| |] eqn:E;
      simpl; [|discriminate|exfalso; exact (count_runs _ E)].
    apply IH; auto; try lia.
    destruct (Z.ltb_spec tmin (tmax - 1)), (Z.ltb_spec tmin (t - 1)),
      (Z.eqb_spec t tmin),
      (Z.eqb_spec (next_probe lm N tmin t t cnt) tmin); lia.
Qed.

Lemma tbound_runs (a b : Z) :
  tbound lm T N fast verify a b false <> Fuel.
Proof.
  unfold tbound, assert.
  destruct (_ && _)%bool; cbn [bind]; try discriminate.
  unfold cdivz, divz. destruct (b =? 0); cbn [bind]; try discriminate.
  set (t0 := wrap64 (wrap64 (a * N) + b - 1) ÷ b).
  destruct (cnt_at t0) as [c0| |] eqn:E0; cbn [bind];
    [|discriminate|exfalso; exact (count_runs _ E0)].
  destruct (descend lm T N fast verify (Z.to_nat t0 + 1) t0 c0)
    as [[t1 c1]| |] eqn:Ed; cbn [bind];
    [|discriminate|exfalso; revert Ed; apply descend_runs; lia].
  destruct (descend_spec _ _ _ _ _ E0 Ed) as (Hc1 & Hn1 & _).
  set (tmax0 := (2 * N) ÷ 5).
  destruct (bisect lm T N fast verify (Z.to_nat (tmax0 - t1) + 2)
              t1 tmax0 t1 c1) as [[tmn tmx]| |] eqn:Eb; cbn [bind].
  - destruct (tmx <? tmax0); cbn [bind negb]; discriminate.
  - discriminate.
  - exfalso. revert Eb. apply bisect_runs; auto; try lia.
    + exists c1. split; auto.
    + rewrite Z.eqb_refl. destruct (Z.ltb_spec t1 (tmax0 - 1)); lia.
Qed.

End TboundProofs.

(** C4. The value tmin that a non-exhaustive [tbound] returns has
    count(N,tmin) >= N and count(N,tmin+1) < N, for the exact-mode counter
    of the same N and variant. *)
Theorem tbound_bracket (lm : libm) (T : tables) (N a b : Z)
    (fast verify : bool) (tmin : Z) :
  tbound lm T N fast verify a b false = Ok tmin ->
  exists c1 c2,
    tfac lm T N tmin fast false verify = Ok c1 /\ N <= c1 /\
    tfac lm T N (tmin + 1) fast false verify = Ok c2 /\ c2 < N.
Proof.
  intros H. apply tbound_spec in H.
  destruct H as [(c1 & H1 & H2) (c2 & H3 & H4)].
  exists c1, c2. auto.
Qed.

(** The theorem at N = 15 and ratio 1/3, where [tbound] returns 4. *)
Lemma tbound_bracket_witness :
  tbound exact_libm T17 15 false false 1 3 false = Ok 4 /\
  exists c1 c2,
    tfac exact_libm T17 15 4 false false false = Ok c1 /\ 15 <= c1 /\
    tfac exact_libm T17 15 (4 + 1) false false false = Ok c2 /\ c2 < 15.
Proof.
  split; [vm_compute; reflexivity|].
  apply (tbound_bracket exact_libm T17 15 1 3 false false 4).
  vm_compute. reflexivity.
Defined.

(** ** The count as a function of the target *)

Lemma non_increasing_zrange (f : Z -> Z) (len : nat) :
  forall lo,
  non_increasing (map f (zrange lo len)) = true ->
  forall a b, lo <= a -> a <= b -> b < lo + Z.of_nat len -> f b <= f a.
Proof.
  induction len as [|k IH]; intros lo H a b Ha Hab Hb; [lia|].
  destruct (Z.eq_dec b lo) as [->|Hnb].
  { assert (a = lo) by lia. subst. lia. }
  assert (Hk : non_increasing (map f (zrange (lo + 1) k)) = true /\
               f (lo + 1) <= f lo).
  { destruct k as [|k]; [exfalso; lia|].
    cbn [zrange map] in H |- *. cbn [non_increasing] in H.
    apply andb_prop in H. destruct H as [H1 H2]. apply Z.geb_le in H1.
    split; auto. }
  destruct Hk as [Hk1 Hk2].
  destruct (Z.eq_dec a lo) as [->|Hne].
  - transitivity (f (lo + 1)); [|lia]. apply (IH (lo + 1)); auto; lia.
  - apply (IH (lo + 1)); auto; lia.
Qed.

Lemma targets_In (N t : Z) :
  1 <= N -> (In t (targets N) <-> N < 4 * t /\ 2 * t < N).
Proof.
  intros HN. unfold targets. rewrite zrange_In.
  rewrite !Z.quot_div_nonneg by lia.
  assert (N / 4 <= (N - 1) / 2) by zlia.
  rewrite Z2Nat.id by lia. split; intros H0; zlia.
Qed.

Lemma row_monotone_spec (fast : bool) (N t1 t2 : Z) :
  1 <= N -> row_monotone fast N = true ->
  N < 4 * t1 -> t1 <= t2 -> 2 * t2 < N ->
  exists c1 c2,
    tfac exact_libm T17 N t1 fast false false = Ok c1 /\
    tfac exact_libm T17 N t2 fast false false = Ok c2 /\ c2 <= c1.
Proof.
  intros HN H H1 H12 H2. unfold row_monotone in H.
  apply andb_prop in H. destruct H as [Hok Hmono].
  rewrite forallb_forall in Hok. rewrite map_map in Hmono.
  assert (Hin : forall t, N < 4 * t /\ 2 * t < N ->
            exists c, tfac exact_libm T17 N t fast false false = Ok c /\
                      res_val (tfac exact_libm T17 N t fast false false) = c).
  { intros t Ht. apply (targets_In N t HN) in Ht.
    specialize (Hok _ (in_map _ _ _ Ht)).
    destruct (tfac exact_libm T17 N t fast false false) as [c| |];
      try discriminate. exists c. auto. }
  destruct (Hin t1 ltac:(lia)) as (c1 & E1 & R1).
  destruct (Hin t2 ltac:(lia)) as (c2 & E2 & R2).
  exists c1, c2. repeat split; auto. rewrite <- R1, <- R2.
  unfold targets in Hmono.
  apply (non_increasing_zrange _ _ _ Hmono); try lia.
  - rewrite Z.quot_div_nonneg by lia. zlia.
  - rewrite !Z.quot_div_nonneg by lia.
    assert (N / 4 <= (N - 1) / 2) by zlia.
    rewrite Z2Nat.id by lia. zlia.
Qed.

Lemma rows_fast : forallb (row_monotone true) (zrange 14 41) = true.
Proof. vm_compute. reflexivity. Qed.

Lemma rows_standard : forallb (row_monotone false) (zrange 14 96) = true.
Proof. vm_compute. reflexivity. Qed.

(** C6 (as the code has it). Against the tables for primes up to 17 and
    cofactors up to 201, the exact count does not increase with t for
    14 <= N <= 109 (standard variant) and 14 <= N <= 54 (fast variant). *)
Theorem count_monotone_small (fast : bool) (N t1 t2 : Z) :
  14 <= N <= (if fast then 54 else 109) ->
  N < 4 * t1 -> t1 < t2 -> 2 * t2 < N ->
  exists c1 c2,
    tfac exact_libm T17 N t1 fast false false = Ok c1 /\
    tfac exact_libm T17 N t2 fast false false = Ok c2 /\ c2 <= c1.
Proof.
  intros HN H1 H12 H2.
  apply row_monotone_spec; try lia.
  destruct fast.
  - pose proof rows_fast as H. rewrite forallb_forall in H.
    apply H, zrange_In. lia.
  - pose proof rows_standard as H. rewrite forallb_forall in H.
    apply H, zrange_In. lia.
Qed.

(** The theorem at N = 14 with the targets 4 and 5. *)
Lemma count_monotone_small_witness :
  exists c1 c2,
    tfac exact_libm T17 14 4 false false false = Ok c1 /\
    tfac exact_libm T17 14 5 false false false = Ok c2 /\ c2 <= c1.
Proof.
  apply (count_monotone_small false 14 4 5); simpl; lia.
Defined.

(** C6 fails as stated: for N = 110 the standard variant finds 98 factors
    for t = 52 and 99 for t = 53. *)
Lemma count_not_monotone :
  ~ (forall c1 c2,
       tfac exact_libm T17 110 52 false false false = Ok c1 ->
       tfac exact_libm T17 110 53 false false false = Ok c2 ->
       c1 >= c2).
Proof.
  intros H.
  assert (H1 : tfac exact_libm T17 110 52 false false false = Ok 98)
    by (vm_compute; reflexivity).
  assert (H2 : tfac exact_libm T17 110 53 false false false = Ok 99)
    by (vm_compute; reflexivity).
  specialize (H 98 99 H1 H2). lia.
Qed.

(** The fast variant stops being monotone at N = 55: 48 factors for
    t = 24 and 49 for t = 25. *)
Lemma count_not_monotone_fast :
  tfac exact_libm T17 55 24 true false false = Ok 48 /\
  tfac exact_libm T17 55 25 true false false = Ok 49.
Proof. split; vm_compute; reflexivity. Qed.

(** ** The certificate does not steer the count

    A run that builds a certificate and returns is matched, step by step,
    by the run without one; and every record it appends satisfies the
    invariant that [fac_extend] asserts. *)

Lemma while_sim {S S' : Type} (R : S -> S' -> Prop)
    (cond : S -> bool) (cond' : S' -> bool)
    (body : S -> res S) (body' : S' -> res S') :
  (forall s s', R s s' -> cond s = cond' s') ->
  (forall s s' x, R s s' -> cond s = true -> body s = Ok x ->
                  exists x', body' s' = Ok x' /\ R x x') ->
  forall fuel s s' r, R s s' -> while_ fuel cond body s = Ok r ->
  exists r', while_ fuel cond' body' s' = Ok r' /\ R r r'.
Proof.
  intros Hc Hb. induction fuel as [|k IH]; intros s s' r HR H;
    simpl in H; [discriminate|]. simpl.
  rewrite <- (Hc _ _ HR). destruct (cond s) eqn:Ec.
  - apply bind_Ok in H. destruct H as (x & Hx & H).
    destruct (Hb _ _ _ HR Ec Hx) as (x' & Hx' & HR').
    rewrite Hx'. simpl. eauto.
  - injection H as <-. eauto.
Qed.

Lemma loop_sim {S S' U U' : Type} (R : S -> S' -> Prop)
    (Q : U -> U' -> Prop)
    (body : S -> res (S + U)) (body' : S' -> res (S' + U')) :
  (forall s s' x, R s s' -> body s = Ok x ->
     exists x', body' s' = Ok x' /\
       match x, x' with
       | inl a, inl a' => R a a'
       | inr r, inr r' => Q r r'
       | _, _ => False
       end) ->
  forall fuel s s' r, R s s' -> loop fuel body s = Ok r ->
  exists r', loop fuel body' s' = Ok r' /\ Q r r'.
Proof.
  intros Hb. induction fuel as [|k IH]; intros s s' r HR H;
    simpl in H; [discriminate|]. simpl.
  apply bind_Ok in H. destruct H as (x & Hx & H).
  destruct (Hb _ _ _ HR Hx) as (x' & Hx' & HR').
  rewrite Hx'. simpl. destruct x as [a|u], x' as [a'|u']; try contradiction.
  - eauto.
  - injection H as <-. eauto.
Qed.

Lemma cert_ok_extend (t : Z) (v : fac) (n m : Z) (f : list pp) (p q c : Z)
    (v' : fac) :
  cert_ok t v -> fac_extend v n m f p q c = Ok v' -> cert_ok t v'.
Proof.
  intros [Ht Hall] H. apply fac_extend_keeps in H.
  - destruct H as (Ht' & _ & Hall'). split; congruence.
  - rewrite Ht. exact Hall.
Qed.

Lemma cert_ok_extend_mp (t : Z) (v : fac) (n m : Z) (f : list pp) (p : Z)
    (v' : fac) :
  cert_ok t v -> fac_extend_mp v n m f p = Ok v' -> cert_ok t v'.
Proof. unfold fac_extend_mp. apply cert_ok_extend. Qed.

Lemma cert_ok_extend_mp2 (T : tables) (t : Z) (v : fac) (n m : Z)
    (f : list pp) (i : Z) (v' : fac) :
  cert_ok t v -> fac_extend_mp2 T v n m f i = Ok v' -> cert_ok t v'.
Proof.
  unfold fac_extend_mp2. intros Hv H. inv_bind H. inv_bind H.
  eapply cert_ok_extend_mp; eauto.
Qed.

Lemma cert_ok_extend_m (T : tables) (t : Z) (v : fac) (n m : Z)
    (f : list pp) (v' : fac) :
  cert_ok t v -> fac_extend_m T v n m f = Ok v' -> cert_ok t v'.
Proof.
  unfold fac_extend_m. intros Hv H.
  apply bind_Ok in H. destruct H as (m' & _ & H).
  eapply cert_ok_extend_mp; eauto.
Qed.

(** The relation between the certificate of a run that builds one and
    that of the run without. *)
Lemma when_cert_sim (t : Z) (v v' : option fac) (k : fac -> res fac) :
  (forall v0 v1, cert_ok t v0 -> k v0 = Ok v1 -> cert_ok t v1) ->
  opt_ok t v -> when_cert v k = Ok v' ->
  opt_ok t v' /\ when_cert None k = Ok None.
Proof.
  intros Hk Hv H. split; [|reflexivity].
  destruct v as [v0|]; simpl in H.
  - apply bind_Ok in H. destruct H as (v1 & H1 & H). injection H as <-.
    simpl. eauto.
  - injection H as <-. exact I.
Qed.

Ltac split_tuples :=
  repeat match goal with
         | a : (_ * _)%type |- _ => destruct a
         end.

Lemma bind_assoc {A B C} (c : res A) (k : A -> res B) (h : B -> res C) :
  bind (bind c k) h = bind c (fun x => bind (k x) h).
Proof. destruct c; reflexivity. Qed.

(** One step through a monadic body: the hypothesis [H] is the run with the
    certificate, the goal the run without. *)
Ltac chew t H :=
  cbv zeta in H; cbv zeta; cbn [bind] in H; cbn [bind when_cert];
  match type of H with
  | bind (bind _ _) _ = Ok _ =>
      rewrite bind_assoc in H; rewrite ?bind_assoc
  | bind (if ?b then _ else _) _ = Ok _ =>
      let E := fresh "Eb" in destruct b eqn:E
  | bind (when_cert ?v ?k) _ = Ok _ =>
      let a := fresh "v" in
      let Ha := fresh "Hw" in
      apply bind_Ok in H; destruct H as (a & Ha & H);
      apply (when_cert_sim t) in Ha;
      [ destruct Ha as [Ha _]
      | eauto using cert_ok_extend, cert_ok_extend_mp, cert_ok_extend_mp2,
          cert_ok_extend_m
      | assumption ]
  | bind ?c _ = Ok _ =>
      match goal with
      | Hc : c = Ok _ |- _ => rewrite Hc in H
      end
  | bind ?c _ = Ok _ =>
      let a := fresh "a" in
      let Ha := fresh "Ha" in
      apply bind_Ok in H; destruct H as (a & Ha & H);
      rewrite Ha; split_tuples
  | (if ?b then _ else _) = Ok _ =>
      let E := fresh "Eb" in destruct b eqn:E
  | Ok _ = Ok _ =>
      inversion H; subst; clear H
  end.

Section CertPhase1.
Variable lm : libm.
Variable T : tables.
Variables N t : Z.
Variable fuel : nat.

Lemma tier_a_sim E cnt v m ctx E1 cnt1 v1 m1 ctx1 p1 :
  opt_ok t v ->
  tier_a T N t fuel (E, cnt, v, m, ctx) = Ok (E1, cnt1, v1, m1, ctx1, p1) ->
  opt_ok t v1 /\
  tier_a T N t fuel (E, cnt, None, m, ctx) = Ok (E1, cnt1, None, m1, ctx1, p1).
Proof.
  intros Hv H. unfold tier_a in *.
  eapply (loop_sim
            (fun s s' => let '(E, cnt, v, m, ctx) := s in
                         opt_ok t v /\ s' = (E, cnt, None, m, ctx))
            (fun r r' => let '(E, cnt, v, m, ctx, p) := r in
                         opt_ok t v /\ r' = (E, cnt, None, m, ctx, p)))
    in H.
  - destruct H as (r' & Hr' & Hv1 & ->). split; [exact Hv1|exact Hr'].
  - clear. intros [[[[E cnt] v] m] ctx] s' x [Hv ->] H.
    repeat chew t H.
    + eexists. split; [reflexivity|]. simpl. auto.
    + eexists. split; [reflexivity|]. simpl. auto.
  - simpl. auto.
Qed.

Lemma tier_b_sim plmmax E cnt v m ctx p pmmax n pnmax pmin pmin'
    E1 cnt1 v1 m1 ctx1 p1 pmmax1 n1 pnmax1 pmin1 :
  opt_ok t v ->
  tier_b T N t fuel plmmax (E, cnt, v, m, ctx, p, pmmax, n, pnmax, pmin)
  = Ok (E1, cnt1, v1, m1, ctx1, p1, pmmax1, n1, pnmax1, pmin1) ->
  opt_ok t v1 /\
  exists pmin1',
    tier_b T N t fuel plmmax
      (E, cnt, None, m, ctx, p, pmmax, n, pnmax, pmin')
    = Ok (E1, cnt1, None, m1, ctx1, p1, pmmax1, n1, pnmax1, pmin1').
Proof.
  intros Hv H. unfold tier_b in *.
  eapply (while_sim
            (fun s s' =>
               let '(E, cnt, v, m, ctx, p, pmmax, n, pnmax, pmin) := s in
               opt_ok t v /\
               exists pmin',
                 s' = (E, cnt, None, m, ctx, p, pmmax, n, pnmax, pmin')))
    in H.
  - destruct H as (r' & Hr' & Hv1 & pmin1' & ->). split; [exact Hv1|].
    exists pmin1'. exact Hr'.
  - clear. intros [[[[[[[[[E cnt] v] m] ctx] p] pmmax] n] pnmax] pmin] s'
      (Hv & pmin' & ->). reflexivity.
  - clear. intros [[[[[[[[[E cnt] v] m] ctx] p] pmmax] n] pnmax] pmin] s' x
      (Hv & pmin' & ->) _ H.
    repeat chew t H.
    destruct v as [v0|].
    + apply bind_Ok in H. destruct H as (v1 & Hx & H).
      inversion H; subst; clear H.
      eexists. split; [reflexivity|]. simpl. split; eauto.
      eapply cert_ok_extend; eauto.
    + inversion H; subst; clear H.
      eexists. split; [reflexivity|]. simpl. split; eauto.
  - simpl. eauto.
Qed.

Lemma tier_c_sim E cnt v pmin lastpi m E1 cnt1 v1 pmin1 lastpi1 m1 :
  opt_ok t v ->
  tier_c T N t fuel (E, cnt, v, pmin, lastpi, m)
  = Ok (E1, cnt1, v1, pmin1, lastpi1, m1) ->
  opt_ok t v1 /\
  tier_c T N t fuel (E, cnt, None, pmin, lastpi, m)
  = Ok (E1, cnt1, None, pmin1, lastpi1, m1).
Proof.
  intros Hv H. unfold tier_c in *.
  eapply (while_sim
            (fun s s' =>
               let '(E, cnt, v, pmin, lastpi, m) := s in
               opt_ok t v /\ s' = (E, cnt, None, pmin, lastpi, m)))
    in H.
  - destruct H as (r' & Hr' & Hv1 & ->). split; [exact Hv1|exact Hr'].
  - clear. intros [[[[[E cnt] v] pmin] lastpi] m] s' [Hv ->]. reflexivity.
  - clear. intros [[[[[E cnt] v] pmin] lastpi] m] s' x [Hv ->] _ H.
    chew t H. chew t H. chew t H. chew t H.
    cbv zeta in H. apply bind_Ok in H.
    destruct H as ([[[[[[E2 cnt2] v2] pmin2] lastpi2] n2] pnmax2] & Hin & H).
    eapply (while_sim
              (fun s s' =>
                 let '(E, cnt, v, pmin, lastpi, n, pnmax) := s in
                 opt_ok t v /\ s' = (E, cnt, None, pmin, lastpi, n, pnmax)))
      in Hin.
    + destruct Hin as (r' & Hr' & Hv2 & ->). cbv zeta. cbn [bind].
      rewrite Hr'.
      cbn [bind]. inversion H; subst; clear H.
      eexists. split; [reflexivity|]. simpl. auto.
    + clear. intros [[[[[[E cnt] v] pmin] lastpi] n] pnmax] s' [Hv ->].
      reflexivity.
    + clear. intros [[[[[[E cnt] v] pmin] lastpi] n] pnmax] s' x [Hv ->] _ H.
      repeat chew t H.
      eexists. split; [reflexivity|]. simpl. auto.
    + simpl. auto.
  - simpl. auto.
Qed.

Lemma bands_sim cnt v lastpi cnt1 v1 :
  opt_ok t v ->
  bands T N t cnt v lastpi = Ok (cnt1, v1) ->
  opt_ok t v1 /\ bands T N t cnt None lastpi = Ok (cnt1, None).
Proof.
  intros Hv H. unfold bands in *.
  repeat chew t H; auto.
Qed.

Lemma phase1_sim s maxpi maxm Ms E v E1 cnt1 v1 :
  opt_ok t v ->
  phase1 lm T N t fuel s maxpi maxm Ms E v = Ok (E1, cnt1, v1) ->
  opt_ok t v1 /\
  phase1 lm T N t fuel s maxpi maxm Ms E None = Ok (E1, cnt1, None).
Proof.
  intros Hv H. unfold phase1 in *.
  chew t H. chew t H. chew t H. chew t H.
  cbv zeta in H. apply bind_Ok in H.
  destruct H as ([[[[[Ea cnta] va] ma] ctxa] pa] & Hta & H).
  apply tier_a_sim in Hta; auto. destruct Hta as [Hva Hta].
  cbv zeta. cbn [bind]. rewrite Hta. cbn [bind]. clear Hta.
  chew t H. chew t H. chew t H. chew t H. chew t H.
  cbv zeta in H. apply bind_Ok in H.
  destruct H as ([[[[[[[[[Eb cntb] vb] mb] ctxb] pb] pmmaxb] nb] pnmaxb]
                    pminb] & Htb & H).
  apply (tier_b_sim _ _ _ _ _ _ _ _ _ _ _ (pa - 1)) in Htb; auto.
  destruct Htb as (Hvb & pminb' & Htb).
  cbv zeta. cbn [bind]. rewrite Htb. cbn [bind]. clear Htb.
  cbv zeta in H. apply bind_Ok in H.
  destruct H as ([[[[[Ec cntc] vc] pminc] lastpic] mc] & Htc & H).
  apply tier_c_sim in Htc; auto. destruct Htc as [Hvc Htc].
  cbv zeta. cbn [bind]. rewrite Htc. cbn [bind]. clear Htc.
  chew t H.
  cbv zeta in H. apply bind_Ok in H.
  destruct H as ([cntd vd] & Htd & H).
  apply bands_sim in Htd; auto. destruct Htd as [Hvd Htd].
  cbv zeta. cbn [bind]. rewrite Htd. cbn [bind]. clear Htd.
  chew t H. chew t H. auto.
Qed.

End CertPhase1.

Section CertPhase2.
Variable lm : libm.
Variable T : tables.
Variables N t : Z.
Variable fuel : nat.

Lemma greedy_sim s maxpi numm Ms E cnt v E1 cnt1 v1 :
  opt_ok t v ->
  greedy T t fuel s maxpi numm Ms E cnt v = Ok (E1, cnt1, v1) ->
  opt_ok t v1 /\
  greedy T t fuel s maxpi numm Ms E cnt None = Ok (E1, cnt1, None).
Proof.
  intros Hv H. unfold greedy in *.
  chew t H.
  eapply (loop_sim
            (fun s s' => let '(E, cnt, v, pcnt, i, j) := s in
                         opt_ok t v /\ s' = (E, cnt, None, pcnt, i, j))
            (fun r r' => let '(E, cnt, v) := r in
                         opt_ok t v /\ r' = (E, cnt, None)))
    in H.
  - destruct H as (r' & Hr' & Hv1 & ->). split; [exact Hv1|exact Hr'].
  - clear. intros [[[[[E cnt] v] pcnt] i] j] s' x [Hv ->] H.
    repeat chew t H;
      (eexists; split; [reflexivity|]; simpl; auto).
  - simpl. auto.
Qed.

Lemma fast_prime_sim numm Ms E cnt v i j E1 cnt1 v1 i1 j1 :
  opt_ok t v ->
  fast_prime T t fuel numm Ms (E, cnt, v, i, j) = Ok (E1, cnt1, v1, i1, j1) ->
  opt_ok t v1 /\
  fast_prime T t fuel numm Ms (E, cnt, None, i, j)
  = Ok (E1, cnt1, None, i1, j1).
Proof.
  intros Hv H. unfold fast_prime in *.
  repeat chew t H; auto.
Qed.

Lemma pack_sim s E cnt v maxpi m E1 cnt1 v1 maxpi1 c1 :
  opt_ok t v ->
  pack T t fuel s (E, cnt, v, maxpi, m) = Ok (E1, cnt1, v1, maxpi1, c1) ->
  opt_ok t v1 /\
  pack T t fuel s (E, cnt, None, maxpi, m) = Ok (E1, cnt1, None, maxpi1, c1).
Proof.
  intros Hv H. unfold pack in *.
  eapply (loop_sim
            (fun s s' => let '(E, cnt, v, maxpi, m) := s in
                         opt_ok t v /\ s' = (E, cnt, None, maxpi, m))
            (fun r r' => let '(E, cnt, v, maxpi, c) := r in
                         opt_ok t v /\ r' = (E, cnt, None, maxpi, c)))
    in H.
  - destruct H as (r' & Hr' & Hv1 & ->). split; [exact Hv1|exact Hr'].
  - clear. intros [[[[E cnt] v] maxpi] m] s' x [Hv ->] H.
    repeat chew t H;
      try (eexists; split; [reflexivity|]; simpl; auto).
    all: destruct a3 as [[[[[[E4 q4] c4] i4] e4] m4]|];
      repeat chew t H;
      (eexists; split; [reflexivity|]; simpl; auto).
  - simpl. auto.
Qed.

Lemma fast_greedy_sim s maxpi maxm numm Ms E cnt v E1 cnt1 v1 maxpi1 :
  opt_ok t v ->
  fast_greedy T t fuel s maxpi maxm numm Ms E cnt v
  = Ok (E1, cnt1, v1, maxpi1) ->
  opt_ok t v1 /\
  fast_greedy T t fuel s maxpi maxm numm Ms E cnt None
  = Ok (E1, cnt1, None, maxpi1).
Proof.
  intros Hv H. unfold fast_greedy in *.
  chew t H. chew t H.
  cbv zeta in H. cbn [bind] in H. apply bind_Ok in H.
  destruct H as ([[[[E2 cnt2] v2] i2] j2] & Hwh & H).
  eapply (while_sim
            (fun s s' => let '(E, cnt, v, i, j) := s in
                         opt_ok t v /\ s' = (E, cnt, None, i, j)))
    in Hwh.
  - destruct Hwh as (r' & Hr' & Hv2 & ->). cbv zeta. cbn [bind].
    rewrite Hr'. cbn [bind]. clear Hr'.
    chew t H. chew t H.
    cbv zeta in H. cbn [bind] in H. apply bind_Ok in H.
    destruct H as ([[[[E3 cnt3] v3] maxpi3] c3] & Hpk & H).
    apply pack_sim in Hpk; auto. destruct Hpk as [Hv3 Hpk].
    cbv zeta. cbn [bind]. rewrite Hpk. cbn [bind].
    inversion H; subst; clear H. auto.
  - clear. intros [[[[E cnt] v] i] j] s' [Hv ->]. reflexivity.
  - clear. intros [[[[E cnt] v] i] j] s' [[[[E1 cnt1] v1] i1] j1] [Hv ->] _ H.
    apply fast_prime_sim in H; auto. destruct H as [Hv1 H].
    eexists. split; [exact H|]. simpl. auto.
  - simpl. auto.
Qed.

Lemma tfac_run_sim fast feasible cnt E q v :
  tfac_run lm T N t fuel fast feasible true = Ok (cnt, E, q, v) ->
  opt_ok t v /\
  tfac_run lm T N t fuel fast feasible false = Ok (cnt, E, q, None).
Proof.
  intros H. unfold tfac_run in *.
  destruct fast; cbn [negb] in *.
  - repeat chew t H.
    cbv zeta in H. cbn [bind] in H. apply bind_Ok in H.
    destruct H as ([[E1 cnt1] v1] & Hp1 & H).
    apply phase1_sim in Hp1; [|simpl; split; [reflexivity|constructor]].
    destruct Hp1 as [Hv1 Hp1].
    cbv zeta. cbn [bind]. rewrite Hp1. cbn [bind]. clear Hp1.
    destruct feasible.
    + inversion H; subst; clear H. auto.
    + apply bind_Ok in H.
      destruct H as ([[[E2 cnt2] v2] maxpi2] & Hg & H).
      apply fast_greedy_sim in Hg; auto. destruct Hg as [Hv2 Hg].
      rewrite Hg. cbn [bind]. clear Hg.
      chew t H. chew t H.
      destruct v2 as [v0|]; repeat chew t H; auto.
      apply bind_Ok in H. destruct H as (r & _ & H).
      cbn [bind] in H. inversion H; subst; clear H. auto.
  - repeat chew t H.
    cbv zeta in H. cbn [bind] in H. apply bind_Ok in H.
    destruct H as ([[E1 cnt1] v1] & Hp1 & H).
    apply phase1_sim in Hp1; [|simpl; split; [reflexivity|constructor]].
    destruct Hp1 as [Hv1 Hp1].
    cbv zeta. cbn [bind]. rewrite Hp1. cbn [bind]. clear Hp1.
    destruct feasible.
    + inversion H; subst; clear H. auto.
    + rewrite bind_assoc in H. apply bind_Ok in H.
      destruct H as ([[E2 cnt2] v2] & Hg & H).
      apply greedy_sim in Hg; auto. destruct Hg as [Hv2 Hg].
      rewrite bind_assoc. rewrite Hg. cbn [bind]. clear Hg.
      chew t H. chew t H.
      destruct v2 as [v0|]; repeat chew t H; auto.
      apply bind_Ok in H. destruct H as (r & _ & H).
      cbn [bind] in H. inversion H; subst; clear H. auto.
Qed.

End CertPhase2.

(** ** The count does not depend on the certificate *)

Lemma tfac_erase (lm : libm) (T : tables) (N t : Z) (fast feasible : bool)
    (c : Z) :
  tfac lm T N t fast feasible true = Ok c ->
  tfac lm T N t fast feasible false = Ok c.
Proof.
  unfold tfac. intros H. apply bind_Ok in H.
  destruct H as ([[[cnt E] q] v] & Hrun & H).
  apply tfac_run_sim in Hrun. destruct Hrun as [_ Hrun].
  rewrite Hrun. exact H.
Qed.

(** C10. Every record of a certificate satisfies m*(p+1) >= t: the
    certificate returned by a query with target t holds only such
    records, [fac_extend] appends a record only after checking it, and a
    verification that returns has re-checked every record. *)
Theorem certificate_records_reach_target (lm : libm) (T : tables)
    (N t : Z) (fuel : nat) (fast feasible : bool)
    (cnt : Z) (E : list Z) (q : Z) (v : fac) :
  tfac_run lm T N t fuel fast feasible true = Ok (cnt, E, q, Some v) ->
  (fac_t v = t /\ Forall (item_ok t) (fac_L v)) /\
  (forall v0 n m f p q0 c v1,
      fac_extend v0 n m f p q0 c = Ok v1 ->
      exists r, fac_L v1 = fac_L v0 ++ [r] /\
                it_m r = m /\ it_p r = p /\ m * (p + 1) >= fac_t v0) /\
  (forall v0 r,
      fac_verify T v0 = Ok r -> Forall (item_ok (fac_t v0)) (fac_L v0)).
Proof.
  intros H. apply tfac_run_sim in H. destruct H as [Hv _].
  split; [exact Hv|]. split.
  - intros v0 n m f p q0 c v1 Hext. apply fac_extend_spec in Hext.
    destruct Hext as (_ & _ & r & HL & _ & Hm & Hp & _ & Hr).
    exists r. unfold item_ok in Hr. rewrite Hm, Hp in Hr. auto.
  - intros v0 r. apply fac_verify_ok.
Qed.

Lemma certificate_records_reach_target_witness :
  exists cnt E q v,
    tfac_run exact_libm T17 30 8 (tfac_fuel 30) true false true
    = Ok (cnt, E, q, Some v) /\
    length (fac_L v) = 7%nat /\
    Forall (item_ok 8) (fac_L v).
Proof.
  assert (H : exists cnt E q v,
             tfac_run exact_libm T17 30 8 (tfac_fuel 30) true false true
             = Ok (cnt, E, q, Some v) /\ length (fac_L v) = 7%nat).
  { vm_compute. do 4 eexists. split; reflexivity. }
  destruct H as (cnt & E & q & v & H & Hlen).
  exists cnt, E, q, v. split; [exact H|]. split; [exact Hlen|].
  apply (certificate_records_reach_target exact_libm T17 30 8
           (tfac_fuel 30) true false cnt E q v H).
Defined.

(** ** What a returning exact run has checked *)

Lemma while_inv {S : Type} (Inv : S -> Prop) (cond : S -> bool)
    (body : S -> res S) :
  (forall s s', Inv s -> cond s = true -> body s = Ok s' -> Inv s') ->
  forall fuel s r, Inv s -> while_ fuel cond body s = Ok r ->
  Inv r /\ cond r = false.
Proof.
  intros Hb. induction fuel as [|k IH]; intros s r Hi H; simpl in H;
    [discriminate|].
  destruct (cond s) eqn:Ec.
  - apply bind_Ok in H. destruct H as (s' & Hs' & H). eauto.
  - injection H as <-. auto.
Qed.

Lemma eprod_snoc (P E : list Z) (i : Z) :
  1 <= i -> eprod P E i = eprod P E (i - 1) * P.[i] ^ E.[i].
Proof.
  intros Hi. unfold eprod.
  replace (Z.to_nat i) with (S (Z.to_nat (i - 1))) by lia.
  assert (Hgen : forall n lo,
             fold_right (fun i a => P.[i] ^ E.[i] * a) 1 (zrange lo (S n))
             = fold_right (fun i a => P.[i] ^ E.[i] * a) 1 (zrange lo n)
               * P.[lo + Z.of_nat n] ^ E.[lo + Z.of_nat n]).
  { induction n as [|n IH]; intros lo.
    - cbn [zrange fold_right Z.of_nat]. rewrite Z.add_0_r. ring.
    - change (zrange lo (S (S n))) with (lo :: zrange (lo + 1) (S n)).
      cbn [fold_right]. rewrite IH.
      change (zrange lo (S n)) with (lo :: zrange (lo + 1) n).
      cbn [fold_right].
      replace (lo + 1 + Z.of_nat n) with (lo + Z.of_nat (S n)) by lia.
      ring. }
  rewrite Hgen. replace (1 + Z.of_nat (Z.to_nat (i - 1))) with i by lia.
  reflexivity.
Qed.

(** The closing loop returns the product of the P[i]^E[i] for i up to
    maxpi, after checking that no E[i] is negative and that the product
    stays below t. *)
Lemma closing_spec (T : tables) (t : Z) (fuel : nat) (E : list Z)
    (maxpi q : Z) :
  closing T t fuel E maxpi = Ok q ->
  (forall i, 1 <= i <= maxpi -> 0 <= E.[i]) /\
  q = eprod (P T) E maxpi /\ (q = 1 \/ q < t).
Proof.
  intros H. unfold closing in H.
  apply bind_Ok in H. destruct H as ([i1 q1] & Hw & H).
  injection H as <-.
  destruct (Z.le_gt_cases 0 maxpi) as [Hm|Hm].
  2:{ destruct fuel as [|k]; simpl in Hw; [discriminate|].
      destruct (Z.leb_spec 1 maxpi); [lia|]. injection Hw as <- <-.
      split; [intros; lia|]. split; [|auto].
      unfold eprod. replace (Z.to_nat maxpi) with O by lia. reflexivity. }
  apply (while_inv
           (fun '(i, q) => 1 <= i <= maxpi + 1 /\
              (forall k, 1 <= k < i -> 0 <= E.[k]) /\
              q = eprod (P T) E (i - 1) /\ (q = 1 \/ q < t))) in Hw.
  - destruct Hw as [(Hi & Hnn & Hq & Hlt) Hc].
    apply Z.leb_gt in Hc. assert (i1 = maxpi + 1) by lia. subst i1.
    replace (maxpi + 1 - 1) with maxpi in Hq by lia.
    repeat split; auto. intros; apply Hnn; lia.
  - clear. intros [i q] [i' q'] (Hi & Hnn & Hq & Hlt) Hc Hb.
    apply Z.leb_le in Hc.
    apply bind_Ok in Hb. destruct Hb as (u & Ha & Hb).
    apply assert_Ok, Z.geb_le in Ha.
    apply bind_Ok in Hb. destruct Hb as ([e2 q2] & Hw & Hb).
    injection Hb as <- <-.
    apply (while_inv
             (fun '(e, q') => 0 <= e <= E.[i] /\
                q' = q * (P T).[i] ^ e /\ (q' = 1 \/ q' < t))) in Hw.
    + destruct Hw as [(He & Hq2 & Hlt2) Hc2].
      apply Z.ltb_ge in Hc2. assert (e2 = E.[i]) by lia. subst e2.
      split; [lia|]. split.
      { intros k Hk. destruct (Z.eq_dec k i); [subst; lia|apply Hnn; lia]. }
      split; auto.
      replace (i + 1 - 1) with i by lia.
      rewrite eprod_snoc by lia. congruence.
    + clear - Hlt. intros [e q1] [e' q1'] (He & Hq1 & Hlt1) Hc Hb.
      apply Z.ltb_lt in Hc.
      apply bind_Ok in Hb. destruct Hb as (u & Ha & Hb).
      apply assert_Ok, Z.ltb_lt in Ha.
      injection Hb as <- <-.
      split; [lia|]. split; auto.
      rewrite Hq1, Z.pow_add_r by lia. ring.
    + split; [lia|]. rewrite Z.pow_0_r. split; [lia|auto].
  - split; [lia|]. split; [intros; lia|].
    split; [|auto]. reflexivity.
Qed.

Ltac unbind H :=
  repeat (cbv zeta in H; cbn [bind] in H;
          match type of H with
          | bind _ _ = Ok _ =>
              let a := fresh "a" in let Ha := fresh "Ha" in
              apply bind_Ok in H; destruct H as (a & Ha & H); split_tuples
          end).

(** An exact run that returns has left a residue q below t (or 1), the
    product of the P[i]^E[i] up to the last index it kept, and no negative
    E[i] up to that index. *)
Lemma tfac_run_residue (lm : libm) (T : tables) (N t : Z) (fuel : nat)
    (fast verify : bool) (cnt : Z) (E : list Z) (q : Z) (v : option fac) :
  tfac_run lm T N t fuel fast false verify = Ok (cnt, E, q, v) ->
  (q = 1 \/ q < t) /\
  exists maxpi, q = eprod (P T) E maxpi /\
                forall i, 1 <= i <= maxpi -> 0 <= E.[i].
Proof.
  intros H. unfold tfac_run in H. unbind H.
  match goal with Hc : closing _ _ _ _ _ = Ok _ |- _ =>
    apply closing_spec in Hc; destruct Hc as (Hnn & Hq & Hlt) end.
  injection H as <- <- <- <-. split; [auto|]. eauto.
Qed.

(** A verification that returns has replayed every record against the
    valuations of N! and ended without a negative component. *)
Lemma fac_verify_nonneg (T : tables) (v : fac) (E : list Z) (c : Z) :
  fac_verify T v = Ok (E, c) ->
  exists s, fac_s T (fac_t v) = Ok s /\
            forall i, 1 <= i <= (PI T).[s - 1] -> 0 <= E.[i].
Proof.
  intros H. unfold fac_verify in H. unbind H.
  injection H as <- <-.
  match goal with Hs : fac_s _ _ = Ok ?s |- _ => exists s; split; [exact Hs|] end.
  match goal with Hn : assert (all_nonneg _ _) = Ok _ |- _ =>
    apply assert_Ok in Hn; apply all_nonneg_spec; exact Hn end.
Qed.

(** An exact run with verification returns only if the replay of its
    certificate returned. *)
Lemma tfac_run_verified (lm : libm) (T : tables) (N t : Z) (fuel : nat)
    (fast : bool) (cnt : Z) (E : list Z) (q : Z) (v : fac) :
  tfac_run lm T N t fuel fast false true = Ok (cnt, E, q, Some v) ->
  exists r, fac_verify T v = Ok r.
Proof.
  intros H. unfold tfac_run in H. unbind H.
  inversion H; subst; clear H.
  match goal with Hv : bind (fac_verify _ _) _ = Ok _ |- _ =>
    apply bind_Ok in Hv; destruct Hv as (r & Hr & _); eauto end.
Qed.

(** In feasibility mode the run ends after the first phase, with the
    count of that phase plus the bound on what the remaining E allows. *)
Lemma tfac_run_feasible (lm : libm) (T : tables) (N t : Z) (fuel : nat)
    (fast verify : bool) (cnt : Z) (E : list Z) (q : Z) (v : option fac) :
  tfac_run lm T N t fuel fast true verify = Ok (cnt, E, q, v) ->
  exists s maxm Ms E0 v0 cnt1,
    fac_s T t = Ok s /\
    phase1 lm T N t fuel s (PI T).[s - 1] maxm Ms E0 v0 = Ok (E, cnt1, v) /\
    cnt = cnt1 + feas_floor lm E (P T) (PI T).[s - 1] t /\
    (forall i, 1 <= i <= (PI T).[s - 1] -> 0 <= E.[i]).
Proof.
  intros H. unfold tfac_run in H. unbind H.
  inversion H; subst; clear H.
  match goal with Hp : phase1 _ _ _ _ _ _ _ _ _ _ _ = Ok _ |- _ =>
    pose proof Hp as Hnn; unfold phase1 in Hnn; unbind Hnn;
    inversion Hnn; subst; clear Hnn
  end.
  do 6 eexists. split; [eassumption|]. split; [eassumption|].
  split; [reflexivity|].
  match goal with Hn : assert (all_nonneg _ _) = Ok _ |- _ =>
    apply assert_Ok in Hn; apply all_nonneg_spec; exact Hn end.
Qed.

(** [while ( i && !E[i] ) i--;] stops at the last nonzero entry. *)
Lemma skip_zeros_spec (fuel : nat) (E : list Z) :
  forall i i', skip_zeros fuel E i = Ok i' ->
  0 <= i' /\ i' <= i /\ forall k, i' < k <= i -> E.[k] = 0.
Proof.
  unfold skip_zeros. induction fuel as [|n IH]; intros i i' H;
    simpl in H; [discriminate|].
  destruct (Z.eqb_spec i 0) as [->|Hi]; simpl in H.
  - injection H as <-. split; [lia|]. split; [lia|]. intros; lia.
  - destruct (Z.eqb_spec E.[i] 0) as [Hz|Hz]; simpl in H.
    + apply IH in H. destruct H as (H0 & Hle & Hk).
      split; [exact H0|]. split; [lia|]. intros k Hr.
      destruct (Z.eq_dec k i) as [->|]; [exact Hz|apply Hk; lia].
    + injection H as <-.
      destruct (Z.lt_ge_cases i 0) as [Hneg|Hpos].
      * exfalso. apply Hz. apply zget_out. lia.
      * split; [lia|]. split; [lia|]. intros; lia.
Qed.

Lemma eprod_zeros (P E : list Z) (i' i : Z) :
  0 <= i' <= i -> (forall k, i' < k <= i -> E.[k] = 0) ->
  eprod P E i = eprod P E i'.
Proof.
  intros Hi Hz.
  replace i with (i' + Z.of_nat (Z.to_nat (i - i'))) in * by lia.
  induction (Z.to_nat (i - i')) as [|n IH].
  - rewrite Z.add_0_r. reflexivity.
  - rewrite eprod_snoc by lia.
    rewrite (Hz (i' + Z.of_nat (S n))) by lia.
    rewrite Z.pow_0_r, Z.mul_1_r.
    replace (i' + Z.of_nat (S n) - 1) with (i' + Z.of_nat n) by lia.
    apply IH; [lia|]. intros k Hk. apply Hz. lia.
Qed.

(** In the standard variant the closing loop covers the whole vector: a
    run that returns has no negative E[i], and the product of all the
    P[i]^E[i] that remain is the residue q, below t (or 1). *)
Lemma tfac_run_residue_standard (lm : libm) (T : tables) (N t : Z)
    (fuel : nat) (verify : bool) (cnt : Z) (E : list Z) (q : Z)
    (v : option fac) :
  tfac_run lm T N t fuel false false verify = Ok (cnt, E, q, v) ->
  exists s, fac_s T t = Ok s /\
    (forall i, 1 <= i <= (PI T).[s - 1] -> 0 <= E.[i]) /\
    q = eprod (P T) E (PI T).[s - 1] /\ (q = 1 \/ q < t).
Proof.
  intros H. unfold tfac_run in H. cbn [negb] in H. unbind H.
  inversion H; subst; clear H.
  match goal with Hg : bind (greedy _ _ _ _ _ _ _ _ _ _) _ = Ok _ |- _ =>
    unbind Hg; inversion Hg; subst; clear Hg end.
  match goal with Hs : skip_zeros _ _ _ = Ok _ |- _ =>
    apply skip_zeros_spec in Hs; destruct Hs as (H0 & Hle & Hz) end.
  match goal with Hc : closing _ _ _ _ _ = Ok _ |- _ =>
    apply closing_spec in Hc; destruct Hc as (Hnn & Hq & Hlt) end.
  eexists. split; [eassumption|]. split; [|split; [|exact Hlt]].
  - intros i Hi.
    match goal with |- 0 <= ?E.[i] =>
      destruct (Z.le_gt_cases i a5) as [Hc|Hc];
        [apply Hnn; lia|rewrite Hz by lia; lia] end.
  - rewrite Hq. symmetry. apply eprod_zeros; auto.
Qed.

(** ** The product of the remaining prime powers *)

Lemma eprod_low (P E : list Z) (hi : Z) : hi <= 0 -> eprod P E hi = 1.
Proof.
  intros H. unfold eprod. replace (Z.to_nat hi) with O by lia. reflexivity.
Qed.

Lemma eprod_ext (P E E' : list Z) (hi : Z) :
  (forall i, 1 <= i <= hi -> E.[i] = E'.[i]) ->
  eprod P E hi = eprod P E' hi.
Proof.
  destruct (Z.le_gt_cases hi 0) as [H0|H0];
    [intros _; rewrite !eprod_low by lia; reflexivity|].
  replace hi with (Z.of_nat (Z.to_nat hi)) by lia.
  induction (Z.to_nat hi) as [|n IH]; intros H.
  - rewrite !eprod_low by lia. reflexivity.
  - rewrite (eprod_snoc P E), (eprod_snoc P E') by lia.
    replace (Z.of_nat (S n) - 1) with (Z.of_nat n) by lia.
    rewrite IH by (intros; apply H; lia).
    rewrite (H (Z.of_nat (S n))) by lia. reflexivity.
Qed.

Lemma eprod_pos (P E : list Z) (hi : Z) :
  (forall i, 1 <= i <= hi -> 1 <= P.[i]) -> nonneg_upto E hi ->
  1 <= eprod P E hi.
Proof.
  destruct (Z.le_gt_cases hi 0) as [H0|H0];
    [intros _ _; rewrite eprod_low by lia; lia|].
  replace hi with (Z.of_nat (Z.to_nat hi)) by lia.
  induction (Z.to_nat hi) as [|n IH]; intros HP HE.
  - rewrite eprod_low by lia. lia.
  - rewrite eprod_snoc by lia.
    replace (Z.of_nat (S n) - 1) with (Z.of_nat n) by lia.
    assert (1 <= eprod P E (Z.of_nat n)).
    { apply IH; [intros; apply HP; lia|intros i Hi; apply HE; lia]. }
    assert (0 < P.[Z.of_nat (S n)] ^ E.[Z.of_nat (S n)]).
    { apply Z.pow_pos_nonneg; [specialize (HP (Z.of_nat (S n))); lia|].
      apply HE; lia. }
    nia.
Qed.

Lemma zget_in_range (E : list Z) (i : Z) :
  E.[i] <> 0 -> 0 <= i < Z.of_nat (length E).
Proof.
  intros H. destruct (Z.lt_ge_cases i 0) as [Hn|Hn];
    [exfalso; apply H, zget_out; lia|].
  destruct (Z.lt_ge_cases i (Z.of_nat (length E))) as [Hl|Hl]; [lia|].
  exfalso. apply H, zget_out. lia.
Qed.

Lemma zget_zset_same (E : list Z) (i x : Z) :
  E.[i] <> 0 -> (zset E i x).[i] = x.
Proof.
  intros H. apply zget_in_range in H. rewrite zget_zset.
  destruct (Z.eqb_spec i i), (Z.leb_spec 0 i),
    (Z.ltb_spec i (Z.of_nat (length E))); simpl; lia.
Qed.

(** Taking k copies of P[i] out of E divides the product by P[i]^k. *)
Lemma eprod_zset (P E : list Z) (hi i k : Z) :
  1 <= i <= hi -> 1 <= k <= E.[i] ->
  eprod P (zset E i (E.[i] - k)) hi * P.[i] ^ k = eprod P E hi.
Proof.
  intros Hi Hk.
  replace hi with (i + Z.of_nat (Z.to_nat (hi - i))) by lia.
  induction (Z.to_nat (hi - i)) as [|n IH].
  - rewrite Z.add_0_r.
    rewrite (eprod_snoc P (zset E i (E.[i] - k))), (eprod_snoc P E) by lia.
    rewrite zget_zset_same by lia.
    rewrite (eprod_ext P (zset E i (E.[i] - k)) E (i - 1))
      by (intros; apply zget_zset_neq; lia).
    replace E.[i] with (E.[i] - k + k) at 2 by lia.
    rewrite Z.pow_add_r by lia. ring.
  - rewrite (eprod_snoc P (zset E i (E.[i] - k))), (eprod_snoc P E) by lia.
    replace (i + Z.of_nat (S n) - 1) with (i + Z.of_nat n) by lia.
    rewrite zget_zset_neq by lia. rewrite <- IH. ring.
Qed.

Lemma nonneg_upto_zset (E : list Z) (hi i x : Z) :
  nonneg_upto E hi -> 0 <= x -> nonneg_upto (zset E i x) hi.
Proof.
  intros HE Hx j Hj. rewrite zget_zset.
  destruct (_ && _)%bool; auto.
Qed.

(** Taking k copies of a factorization out of E divides the product by
    the k-th power of the number it stands for. *)
Lemma eprod_fsub (P : list Z) (hi k : Z) (f : list pp) :
  forall (b : Z) (E : list Z),
  descending b (entries f) -> b <= hi + 1 -> 1 <= k ->
  (forall x, In x (entries f) -> k * pp_e x <= E.[pp_pi x]) ->
  eprod P (fsub E k f) hi * fprod P f ^ k = eprod P E hi.
Proof.
  unfold fprod.
  induction f as [|x f IH]; intros b E Hd Hb Hk Hcap; simpl.
  - rewrite Z.pow_1_l by lia. ring.
  - simpl in Hd, Hcap. destruct (Z.eqb_spec (pp_pi x) 0) as [Hz|Hz].
    + simpl. rewrite Z.pow_1_l by lia. ring.
    + simpl in Hd. destruct Hd as (H1 & H2 & H3). cbn [pprod].
      assert (Hx : k * pp_e x <= E.[pp_pi x]) by (apply Hcap; simpl; auto).
      rewrite Z.pow_mul_l, <- Z.pow_mul_r by lia.
      rewrite Z.mul_assoc,
        (Z.mul_comm (eprod P _ hi)), <- Z.mul_assoc,
        (IH (pp_pi x)); auto; try lia.
      * rewrite Z.mul_comm, (Z.mul_comm (pp_e x)).
        apply eprod_zset; [lia|nia].
      * intros y Hy. rewrite zget_zset_neq; [apply Hcap; simpl; auto|].
        pose proof (descending_In _ _ _ H3 Hy). lia.
Qed.

Lemma nonneg_upto_fsub (hi k : Z) (f : list pp) :
  forall (b : Z) (E : list Z),
  descending b (entries f) -> nonneg_upto E hi ->
  (forall x, In x (entries f) -> k * pp_e x <= E.[pp_pi x]) ->
  nonneg_upto (fsub E k f) hi.
Proof.
  induction f as [|x f IH]; intros b E Hd HE Hcap; simpl; auto.
  simpl in Hd, Hcap. destruct (Z.eqb_spec (pp_pi x) 0) as [Hz|Hz]; auto.
  simpl in Hd. destruct Hd as (H1 & H2 & H3).
  apply (IH (pp_pi x)); auto.
  - apply nonneg_upto_zset; auto.
    specialize (Hcap x (or_introl eq_refl)). lia.
  - intros y Hy. rewrite zget_zset_neq; [apply Hcap; simpl; auto|].
    pose proof (descending_In _ _ _ H3 Hy). lia.
Qed.

(** What [fcnt] returns fits under every entry of the factorization. *)
Lemma fcnt_le_cap (E : list Z) (cap : Z) (f : list pp) : fcnt E cap f <= cap.
Proof. rewrite fcnt_fold. apply fold_min_le. Qed.

Lemma fcnt_fits (E : list Z) (cap : Z) (f : list pp) (x : pp) :
  In x (entries f) -> 1 <= pp_e x -> 1 <= fcnt E cap f ->
  fcnt E cap f * pp_e x <= E.[pp_pi x].
Proof.
  intros Hx He Hk.
  assert (Hq : fcnt E cap f <= E.[pp_pi x] ÷ pp_e x).
  { rewrite fcnt_fold. apply fold_min_In.
    apply (in_map (fun x => E.[pp_pi x] ÷ pp_e x)), Hx. }
  destruct (Z.lt_ge_cases E.[pp_pi x] 0) as [Hneg|Hpos].
  - pose proof (Z.quot_opp_l (- E.[pp_pi x]) (pp_e x) ltac:(lia)) as Ho.
    rewrite Z.opp_involutive in Ho.
    pose proof (Z.quot_pos (- E.[pp_pi x]) (pp_e x) ltac:(lia) ltac:(lia)).
    lia.
  - rewrite Z.quot_div_nonneg in Hq by lia.
    pose proof (Z.mul_div_le E.[pp_pi x] (pp_e x) ltac:(lia)). nia.
Qed.

Lemma fcnt_nonneg (E : list Z) (cap hi : Z) (f : list pp) (b : Z) :
  descending b (entries f) -> b <= hi + 1 -> nonneg_upto E hi -> 0 <= cap ->
  0 <= fcnt E cap f.
Proof.
  intros Hd Hb HE Hc. rewrite fcnt_fold. apply fold_min_lb; auto.
  intros y Hy. apply in_map_iff in Hy. destruct Hy as (x & <- & Hx).
  pose proof (descending_In _ _ _ Hd Hx) as [Hp He].
  apply Z.quot_pos; [apply HE|]; lia.
Qed.

(** ** The tables as the second phase reads them *)

Lemma odd_loop_prefix (fuel : nat) (P : list Z) :
  forall m M F M' F',
  odd_loop fuel P m M F = Ok (M', F') -> exists G, F' = F ++ G.
Proof.
  induction fuel as [|k IH]; intros m M F M' F' H; simpl in H;
    [discriminate|].
  destruct (m >? 1).
  - apply bind_Ok in H. destruct H as ([[q done] g] & _ & H).
    destruct (negb (q =? 1)).
    + eauto.
    + apply IH in H. destruct H as (G & ->).
      rewrite <- app_assoc. eauto.
  - injection H as <- <-. exists []. rewrite app_nil_r. reflexivity.
Qed.

Lemma even_loop_prefix (fuel : nat) :
  forall m M F M' F',
  even_loop fuel m M F = Ok (M', F') -> exists G, F' = F ++ G.
Proof.
  induction fuel as [|k IH]; intros m M F M' F' H; simpl in H;
    [discriminate|].
  destruct (m >? 1).
  - destruct (_ =? 0).
    + eauto.
    + apply IH in H. destruct H as (G & ->).
      rewrite <- app_assoc. eauto.
  - injection H as <- <-. exists []. rewrite app_nil_r. reflexivity.
Qed.

(** Offset 0 of the arena holds a sentinel. *)
Lemma setup_F_head (maxp maxm : Z) (T : tables) :
  setup maxp maxm = Ok T -> exists G, F T = pp0 :: G.
Proof.
  unfold setup. intros H.
  inv_bind H. inv_bind H. inv_bind H. inv_bind H. inv_bind H.
  destruct (fill_primes _ _ _ _) as [P0 PI1].
  apply bind_Ok in H. destruct H as (M0 & _ & H).
  apply bind_Ok in H. destruct H as ([M1 F1] & Hodd & H).
  apply bind_Ok in H. destruct H as ([M2 F2] & Heven & H).
  inv_bind H. injection H as <-. simpl.
  apply odd_loop_prefix in Hodd. destruct Hodd as (G1 & ->).
  apply even_loop_prefix in Heven. destruct Heven as (G2 & ->).
  simpl. eauto.
Qed.

Lemma FM_zero (maxp maxm : Z) (T : tables) (m : Z) :
  setup maxp maxm = Ok T -> (M T).[m] = 0 -> fpi (FM T m) = 0.
Proof.
  intros H Hz. apply setup_F_head in H. destruct H as (G & HF).
  unfold FM, fptr. rewrite Hz, HF. reflexivity.
Qed.

(** A nonzero M[m] leads to the factorization of m. *)
Lemma FM_spec (maxp maxm : Z) (T : tables) (m : Z) :
  setup maxp maxm = Ok T -> 1 <= m <= MAXM T -> (M T).[m] <> 0 ->
  (exists b, descending b (entries (FM T m))) /\
  fprod (P T) (FM T m) = m.
Proof.
  intros H Hm Hnz.
  destruct (setup_entries _ _ _ H) as (_ & _ & _ & _ & HE).
  destruct (HE m Hm) as [_ Hfac].
  destruct (Hfac Hnz) as (l & Hat & Hprod & [b Hd]).
  unfold fprod, FM. rewrite (fac_at_entries _ _ _ Hat).
  destruct Hat as (? & ? & _ & _ & Hl). rewrite entries_self in Hd; auto.
  split; [eauto|exact Hprod].
Qed.

(** Below the bound on the primes every m is smooth, so M[m] is set. *)
Lemma small_smooth (maxp maxm : Z) (T : tables) (m : Z) :
  setup maxp maxm = Ok T -> 1 <= m <= MAXP T -> m <= MAXM T ->
  (M T).[m] <> 0.
Proof.
  intros H Hm HM.
  destruct (setup_entries _ _ _ H) as (_ & _ & _ & _ & HE).
  destruct (HE m ltac:(lia)) as [Hiff _]. apply Hiff.
  intros p Hp Hdiv. apply Z.divide_pos_le in Hdiv; lia.
Qed.

Lemma descending_head (b : Z) (f : list pp) :
  descending b (entries f) -> descending (fpi f + 1) (entries f).
Proof.
  destruct f as [|x f]; simpl; auto.
  destruct (pp_pi x =? 0); simpl; auto.
  intros (H1 & H2 & H3). repeat split; auto; lia.
Qed.

(** The candidates: every m below s, then selected m from s to maxm. *)
Lemma build_Ms_get (T : tables) (t : Z) (fast : bool) (s maxpi maxm j : Z) :
  0 <= s ->
  (build_Ms T t fast s maxpi maxm).[j] <> 0 ->
  (1 <= j < s /\ (build_Ms T t fast s maxpi maxm).[j] = j) \/
  (let m := (build_Ms T t fast s maxpi maxm).[j] in
   s <= m <= maxm /\ fpi (FM T m) <> 0).
Proof.
  intros Hs Hnz. pose proof (zget_in_range _ _ Hnz) as Hr.
  unfold build_Ms in *. set (l2 := filter _ _) in *.
  assert (Hlen : length (zrange 0 (Z.to_nat s)) = Z.to_nat s).
  { clear. generalize 0. induction (Z.to_nat s); intros; simpl; auto. }
  assert (Hnth : forall n lo k, (k < n)%nat ->
             nth k (zrange lo n) 0 = lo + Z.of_nat k).
  { clear. induction n as [|n IH]; intros lo k Hk; [lia|].
    destruct k as [|k]; simpl; [lia|]. rewrite IH by lia. lia. }
  unfold zget in *. destruct (Z.ltb_spec j 0) as [|Hj]; [lia|].
  destruct (Z.lt_ge_cases j s) as [Hlt|Hge].
  - left. rewrite app_nth1 in * by lia. rewrite Hnth in * by lia. lia.
  - right. cbv zeta. rewrite app_nth2 in * by lia.
    rewrite Hlen in *. rewrite length_app, Hlen in Hr.
    assert (Hin : In (nth (Z.to_nat j - Z.to_nat s) l2 0) l2)
      by (apply nth_In; lia).
    apply filter_In in Hin. destruct Hin as [Hin Hc].
    apply zrange_In in Hin. apply andb_prop in Hc. destruct Hc as [Hc _].
    apply negb_true_iff, Z.eqb_neq in Hc. split; [lia|exact Hc].
Qed.

(** ** The standard second phase removes factors of size at least t *)

Lemma loop_inv {S R : Type} (Inv : S -> Prop) (Post : R -> Prop)
    (body : S -> res (S + R)) :
  (forall s x, Inv s -> body s = Ok x ->
     match x with inl s' => Inv s' | inr r => Post r end) ->
  forall fuel s r, Inv s -> loop fuel body s = Ok r -> Post r.
Proof.
  intros Hb. induction fuel as [|k IH]; intros s r Hi H; simpl in H;
    [discriminate|].
  apply bind_Ok in H. destruct H as (x & Hx & H).
  specialize (Hb _ _ Hi Hx). destruct x as [s'|r'].
  - eauto.
  - injection H as <-. exact Hb.
Qed.

Lemma removed_step (P : list Z) (hi t : Z) (E0 E E' : list Z) (d e w : Z) :
  (forall i, 1 <= i <= hi -> 1 <= P.[i]) ->
  removed P hi t E0 E d -> 0 <= t <= w -> 1 <= e ->
  nonneg_upto E' hi -> eprod P E' hi * w ^ e = eprod P E hi ->
  removed P hi t E0 E' (d + e).
Proof.
  intros HP (Hd & HE & Hle) Ht He HE' Heq.
  split; [lia|]. split; [exact HE'|].
  pose proof (eprod_pos P E' hi HP HE') as Hpos.
  assert (Hte : t ^ e <= w ^ e) by (apply Z.pow_le_mono_l; lia).
  assert (Ht0 : 0 <= t ^ d) by (apply Z.pow_nonneg; lia).
  assert (Ht1 : 0 <= t ^ e) by (apply Z.pow_nonneg; lia).
  rewrite Z.pow_add_r by lia.
  apply Z.le_trans with (t ^ d * eprod P E hi); [|exact Hle].
  rewrite <- Heq, <- Z.mul_assoc.
  apply Z.mul_le_mono_nonneg_l; [exact Ht0|].
  rewrite (Z.mul_comm (t ^ e)).
  apply Z.mul_le_mono_nonneg_l; lia.
Qed.

(** One use of the cofactor with factorization f for the prime P[i], e
    times, e as [fcnti] computes it. *)
Lemma greedy_step (P : list Z) (hi i : Z) (E : list Z) (f : list pp)
    (b e : Z) :
  1 <= i <= hi -> nonneg_upto E hi ->
  descending b (entries f) -> fpi f <= i ->
  e = fcnt E (if i >? fpi f then E.[i] else E.[i] ÷ (fe f + 1)) f ->
  e <> 0 ->
  1 <= e /\
  nonneg_upto (fsub (zset E i (E.[i] - e)) e f) hi /\
  eprod P (fsub (zset E i (E.[i] - e)) e f) hi * (P.[i] * fprod P f) ^ e
  = eprod P E hi.
Proof.
  intros Hi HE Hd Hf He Hnz.
  apply descending_head in Hd.
  set (e0 := if i >? fpi f then E.[i] else E.[i] ÷ (fe f + 1)) in *.
  assert (HEi : 0 <= E.[i]) by (apply HE; lia).
  assert (Hfe : (i >? fpi f) = false -> 1 <= fe f /\
                  exists f', f = mkpp i (fe f) :: f').
  { intros Hc. rewrite Z.gtb_ltb in Hc. apply Z.ltb_ge in Hc.
    assert (fpi f = i) by lia.
    destruct f as [|[xp xe] f']; simpl in *; [lia|]. subst xp.
    destruct (Z.eqb_spec i 0); [lia|]. simpl in Hd.
    split; [lia|eauto]. }
  assert (He0 : 0 <= e0 <= E.[i]).
  { unfold e0. destruct (i >? fpi f) eqn:Ec; [lia|].
    destruct (Hfe eq_refl) as [Hfe1 _].
    rewrite Z.quot_div_nonneg by lia.
    split; [apply Z.div_pos; lia|].
    apply Z.div_le_upper_bound; nia. }
  assert (He1 : 1 <= e).
  { assert (0 <= e); [|lia]. rewrite He.
    apply (fcnt_nonneg E e0 hi f (fpi f + 1)); auto; lia. }
  assert (Hle : e <= e0) by (rewrite He; apply fcnt_le_cap).
  split; [exact He1|].
  assert (Hcap : forall x, In x (entries f) ->
            e * pp_e x <= (zset E i (E.[i] - e)).[pp_pi x]).
  { intros x Hx. pose proof (descending_In _ _ _ Hd Hx) as [Hxp Hxe].
    destruct (Z.eq_dec (pp_pi x) i) as [Heq|Hne].
    - rewrite Heq, zget_zset_same by lia.
      assert (Hc : (i >? fpi f) = false) by (rewrite Z.gtb_ltb; apply Z.ltb_ge; lia).
      destruct (Hfe Hc) as (Hfe1 & f' & Hff).
      assert (Hxh : x = mkpp i (fe f)).
      { rewrite Hff in Hx, Hd. simpl in Hx, Hd.
        destruct (Z.eqb_spec i 0); [lia|]. simpl in Hx, Hd.
        destruct Hx as [<-|Hx]; [reflexivity|].
        destruct Hd as (_ & _ & Hd).
        pose proof (descending_In _ _ _ Hd Hx). lia. }
      rewrite Hxh. simpl. unfold e0 in Hle. rewrite Hc in Hle.
      rewrite Z.quot_div_nonneg in Hle by lia.
      pose proof (Z.mul_div_le E.[i] (fe f + 1) ltac:(lia)). nia.
    - rewrite zget_zset_neq by auto.
      rewrite He. apply fcnt_fits; auto. rewrite <- He. exact He1. }
  split.
  - apply (nonneg_upto_fsub hi e f (fpi f + 1)); auto.
    apply nonneg_upto_zset; auto. lia.
  - rewrite Z.pow_mul_l, (Z.mul_comm (P.[i] ^ e)), Z.mul_assoc.
    rewrite (eprod_fsub P hi e f (fpi f + 1)); auto; try lia.
    apply eprod_zset; lia.
Qed.

Section GreedySound.
Variables (T : tables) (maxp maxm0 : Z).
Hypothesis HT : setup maxp maxm0 = Ok T.
Variable t : Z.
Variable fuel : nat.

Lemma table_primes (i : Z) : 1 <= i <= MAXPI T -> 2 <= (P T).[i].
Proof.
  intros Hi. destruct (setup_entries _ _ _ HT) as (_ & _ & _ & [HP _] & _).
  apply Z.prime_ge_2, HP, Hi.
Qed.

(** A candidate that passes the test of the greedy loop for the prime
    P[i] is a cofactor m with P[i]*m >= t whose factorization is stored. *)
Lemma candidate_ok (fast : bool) (s maxpi maxm i j : Z) :
  1 <= t -> 0 <= s <= MAXP T -> s - 1 <= maxm <= MAXM T ->
  1 <= i <= MAXPI T ->
  t <= (P T).[i] * (build_Ms T t fast s maxpi maxm).[j] ->
  let m := (build_Ms T t fast s maxpi maxm).[j] in
  (exists b, descending b (entries (FM T m))) /\
  fprod (P T) (FM T m) = m.
Proof.
  intros Ht Hs Hm Hi Hge m. fold m in Hge.
  pose proof (table_primes i Hi) as HP.
  assert (Hm1 : 1 <= m) by nia.
  destruct (build_Ms_get T t fast s maxpi maxm j) as [[Hj Hmj]|Hsel];
    [lia|fold m; lia| |].
  - fold m in Hmj.
    apply (FM_spec maxp maxm0); auto; [lia|].
    apply (small_smooth maxp maxm0); auto; lia.
  - fold m in Hsel. cbv zeta in Hsel. destruct Hsel as [Hr Hnz].
    apply (FM_spec maxp maxm0); auto; [lia|].
    intros Hz. apply Hnz. apply (FM_zero maxp maxm0); auto.
Qed.

Lemma greedy_removed (s maxpi maxm numm : Z) (E0 E : list Z) (cnt : Z)
    (v : option fac) (d : Z) (E' : list Z) (cnt' : Z) (v' : option fac) :
  1 <= t -> 0 <= s <= MAXP T -> s - 1 <= maxm <= MAXM T ->
  0 <= maxpi <= MAXPI T ->
  removed (P T) maxpi t E0 E d ->
  greedy T t fuel s maxpi numm (build_Ms T t false s maxpi maxm) E cnt v
  = Ok (E', cnt', v') ->
  removed (P T) maxpi t E0 E' (d + (cnt' - cnt)).
Proof.
  intros Ht Hs Hm Hpi Hrem H. unfold greedy in H.
  apply bind_Ok in H. destruct H as (j0 & _ & H).
  set (Ms := build_Ms T t false s maxpi maxm) in *.
  apply (loop_inv
           (fun '(E1, cnt1, v1, pcnt, i, j) =>
              0 <= i <= maxpi /\
              removed (P T) maxpi t E0 E1 (d + (cnt1 - cnt)))
           (fun '(E1, cnt1, v1) =>
              removed (P T) maxpi t E0 E1 (d + (cnt1 - cnt)))) in H.
  - exact H.
  - clear H. intros [[[[[E1 cnt1] v1] pcnt] i] j] x [Hi Hr] Hb.
    destruct (Z.eqb_spec i 0) as [Hi0|Hi0].
    { injection Hb as <-. exact Hr. }
    apply bind_Ok in Hb. destruct Hb as (j' & Hw & Hb).
    apply (while_inv (fun _ => True)) in Hw; auto.
    destruct Hw as [_ Hc].
    destruct (Z.gtb_spec j' numm) as [Hjn|Hjn].
    { injection Hb as <-. exact Hr. }
    destruct (Z.leb_spec j' numm) as [_|]; [|lia]. simpl in Hc.
    apply orb_false_elim in Hc. destruct Hc as [Hc1 Hc2].
    apply Z.ltb_ge in Hc1. rewrite Z.gtb_ltb in Hc2. apply Z.ltb_ge in Hc2.
    destruct (candidate_ok false s maxpi maxm i j') as [[b Hd] Hprod];
      auto; try lia.
    fold Ms in Hd, Hprod.
    apply bind_Ok in Hb. destruct Hb as (e & He & Hb).
    unfold fcnti in He. inv_bind He. inv_bind He. injection He as He.
    destruct (Z.eqb_spec e 0) as [He0|He0].
    { destruct (pcnt <? 40).
      - apply bind_Ok in Hb. destruct Hb as (q & _ & Hb).
        destruct (q <? t); injection Hb as <-; auto.
      - injection Hb as <-. auto. }
    apply bind_Ok in Hb. destruct Hb as (v2 & _ & Hb).
    apply bind_Ok in Hb. destruct Hb as (i2 & Hsk & Hb).
    injection Hb as <-.
    apply skip_zeros_spec in Hsk. destruct Hsk as (Hi2 & Hi2' & _).
    split; [lia|].
    destruct Hr as (Hd0 & HE1 & Hle).
    destruct (greedy_step (P T) maxpi i E1 (FM T Ms.[j']) b e)
      as (He1 & HE2 & Heq); auto; try lia.
    replace (d + (cnt1 + e - cnt)) with (d + (cnt1 - cnt) + e) by lia.
    apply (removed_step (P T) maxpi t E0 E1 _ _ e
             ((P T).[i] * Ms.[j'])); auto.
    + intros k Hk. pose proof (table_primes k ltac:(lia)). lia.
    + split; auto.
    + lia.
    + rewrite <- Hprod at 2. exact Heq.
  - split; [lia|]. replace (d + (cnt - cnt)) with d by lia. exact Hrem.
Qed.

End GreedySound.

(** ** The feasibility bound and the standard variant *)

Lemma log_floor_loop (t x : Z) :
  2 <= t -> 1 <= x ->
  forall fuel k, 0 <= k -> t ^ k <= x ->
  (Z.to_nat (Z.log2 x - k) < fuel)%nat ->
  exists K, while_ fuel (fun k => t ^ (k + 1) <=? x)
              (fun k => Ok (k + 1)) k = Ok K /\
            k <= K /\ x < t ^ (K + 1).
Proof.
  intros Ht Hx. induction fuel as [|n IH]; intros k Hk Hle Hf; [lia|].
  simpl. destruct (Z.leb_spec (t ^ (k + 1)) x) as [Hc|Hc].
  - cbn [bind].
    assert (Hlog : k + 1 <= Z.log2 x).
    { apply Z.log2_le_pow2; [lia|].
      apply Z.le_trans with (t ^ (k + 1)); [|exact Hc].
      apply Z.pow_le_mono_l. lia. }
    destruct (IH (k + 1)) as (K & HK & HkK & HxK); auto; try lia.
    exists K. split; [exact HK|]. split; [lia|exact HxK].
  - exists k. split; [reflexivity|]. split; [lia|exact Hc].
Qed.

(** The exact floor of the logarithm is a sound bound. *)
Lemma exact_feas_sound (P : list Z) (hi t : Z) :
  2 <= t -> (forall i, 1 <= i <= hi -> 1 <= P.[i]) ->
  feas_sound exact_libm P hi t.
Proof.
  intros Ht HP E d HE Hd Hle. cbn [feas_floor exact_libm].
  pose proof (eprod_pos P E hi HP HE) as Hpos.
  unfold log_floor.
  destruct (log_floor_loop t (eprod P E hi) Ht Hpos
              (Z.to_nat (Z.log2 (eprod P E hi)) + 2) 0)
    as (K & HK & HK0 & HxK); try lia.
  rewrite HK.
  destruct (Z.le_gt_cases d K) as [|Hgt]; [assumption|exfalso].
  assert (t ^ (K + 1) <= t ^ d) by (apply Z.pow_le_mono_r; lia).
  lia.
Qed.

Ltac replay H :=
  repeat (cbv zeta in H; cbn [bind negb] in H;
          match type of H with
          | bind ?c _ = Ok _ =>
              match goal with Hc : c = Ok _ |- _ => rewrite Hc in H end
          end).

(** In the standard variant the exact count is at most what the
    feasibility mode returns, for tables built by [setup] and a bound
    [feas_floor] that is sound. *)
Lemma feasible_bound_standard (lm : libm) (T : tables) (maxp maxm N t : Z)
    (v1 v2 : bool) (cf ce : Z) :
  setup maxp maxm = Ok T ->
  feas_sound lm (P T) (PI T).[s_of t - 1] t ->
  tfac lm T N t false true v1 = Ok cf ->
  tfac lm T N t false false v2 = Ok ce ->
  ce <= cf.
Proof.
  intros HT Hfs H1 H2.
  assert (H1' : tfac lm T N t false true false = Ok cf)
    by (destruct v1; [apply tfac_erase|]; exact H1).
  assert (H2' : tfac lm T N t false false false = Ok ce)
    by (destruct v2; [apply tfac_erase|]; exact H2).
  clear H1 H2. unfold tfac in *.
  apply bind_Ok in H1'. destruct H1' as ([[[c1 E1] q1] w1] & H1 & Hc1).
  apply bind_Ok in H2'. destruct H2' as ([[[c2 E2] q2] w2] & H2 & Hc2).
  injection Hc1 as <-. injection Hc2 as <-.
  unfold tfac_run in H1, H2. cbn [negb] in H1, H2.
  unbind H1. replay H2.
  inversion H1; subst; clear H1.
  cbv zeta in H2. cbn [bind negb] in H2. unbind H2.
  inversion H2; subst; clear H2.
  match goal with Hg : bind (greedy _ _ _ _ _ _ _ _ _ _) _ = Ok _ |- _ =>
    unbind Hg; inversion Hg; subst; clear Hg end.
  (* the preconditions *)
  apply assert_Ok in Ha, Ha3, Ha4.
  apply andb_prop in Ha. destruct Ha as [Ha Hp4].
  apply andb_prop in Ha. destruct Ha as [Ha Hp3].
  apply andb_prop in Ha. destruct Ha as [Hp1 Hp2].
  apply Z.geb_le in Hp1. rewrite Z.gtb_ltb in Hp3.
  apply Z.ltb_lt in Hp2, Hp3, Hp4. apply Z.leb_le in Ha3, Ha4.
  assert (Ht : 1 <= t) by lia.
  rewrite fac_s_spec in Ha0 by exact Ht.
  destruct (Z.leb_spec (s_of t) (MAXP T)) as [Hs|Hs]; [|discriminate].
  injection Ha0 as <-.
  assert (Hs0 : 0 <= s_of t).
  { unfold s_of. pose proof (Z.sqrt_nonneg t).
    destruct (_ <? _); lia. }
  pose proof (setup_PI_bound _ _ _ HT (s_of t - 1)) as HPI.
  (* the vector after the first phase *)
  assert (HE1 : nonneg_upto E1 (PI T).[s_of t - 1]).
  { unfold phase1 in Ha5. unbind Ha5. inversion Ha5; subst; clear Ha5.
    match goal with Hn : assert (all_nonneg _ _) = Ok _ |- _ =>
      apply assert_Ok in Hn; intros i Hi;
      apply (all_nonneg_spec _ _ Hn); exact Hi end. }
  match goal with Hg : greedy _ _ _ _ _ _ _ _ _ _ = Ok _ |- _ =>
    apply (greedy_removed T maxp maxm HT t _ _ _ (t - 1) _ E1 _ _ _ 0)
      in Hg; auto; try lia end.
  2:{ split; [lia|]. split; [exact HE1|]. rewrite Z.pow_0_r. lia. }
  match goal with Hr : removed _ _ _ _ _ _ |- _ =>
    destruct Hr as (Hd & HE2 & Hle) end.
  match goal with |- ?c <= z + _ =>
    assert (Hb : c - z <= feas_floor lm E1 (P T) (PI T).[s_of t - 1] t);
      [|lia] end.
  replace (0 + (c2 - z)) with (c2 - z) in * by lia.
  apply Hfs; auto.
  assert (Hpos : 1 <= eprod (P T) E2 (PI T).[s_of t - 1]).
  { apply eprod_pos; auto. intros k Hk.
    pose proof (table_primes T maxp maxm HT k ltac:(lia)). lia. }
  assert (Htd : 0 <= t ^ (c2 - z)) by (apply Z.pow_nonneg; lia).
  nia.
Qed.

(** ** The loops of [setup] end within their fuel *)

Lemma sieve_mark_runs (pi p maxm : Z) :
  1 <= p ->
  forall fuel q M, (Z.to_nat (maxm + 1 - q) < fuel)%nat ->
  sieve_mark fuel pi p q maxm M <> Fuel.
Proof.
  intros Hp. induction fuel as [|k IH]; intros q M Hf; [lia|].
  simpl. destruct (Z.leb_spec q maxm); [|discriminate].
  unfold assert. destruct (_ <=? INT32_MAX); cbn [bind]; [|discriminate].
  apply IH. lia.
Qed.

Lemma sieve_runs (maxpi maxm : Z) (P : list Z) :
  (forall i, 1 <= i <= maxpi -> 1 <= P.[i]) ->
  forall fuel pi M, 1 <= pi -> (Z.to_nat (maxpi + 1 - pi) < fuel)%nat ->
  sieve fuel pi maxpi maxm P M <> Fuel.
Proof.
  intros HP. induction fuel as [|k IH]; intros pi M Hpi Hf; [lia|].
  simpl. destruct (Z.leb_spec pi maxpi); [|discriminate].
  pose proof (sieve_mark_runs pi P.[pi] maxm (HP pi ltac:(lia))
                (Z.to_nat maxm + 1) P.[pi] M) as Hm.
  specialize (HP pi ltac:(lia)).
  destruct (sieve_mark _ _ _ _ _ _); cbn [bind]; try discriminate.
  - apply IH; lia.
  - apply Hm. lia.
Qed.

Lemma factor_odd_runs (P M : list Z) (hi : Z) :
  (forall i, 1 <= i <= hi -> 2 <= P.[i]) ->
  forall fuel q done g,
  (forall x, 1 <= x <= q -> largest_idx P hi x M.[x]) ->
  1 <= q -> (Z.to_nat q <= fuel)%nat ->
  factor_odd fuel P M q done g <> Fuel.
Proof.
  intros HP. induction fuel as [|k IH]; intros q done g HM Hq Hf; [lia|].
  simpl. destruct (Z.eqb_spec M.[q] 0) as [Hz|Hz]; [discriminate|].
  destruct (HM q ltac:(lia)) as [[Hv|[Hv Hd]] _]; [contradiction|].
  pose proof (HP _ Hv) as Hp2.
  unfold assert. destruct (negb _); cbn [bind]; [|discriminate].
  destruct Hd as [c Hc].
  pose proof (Z.quot_mul c P.[M.[q]] ltac:(lia)) as Hquot.
  rewrite <- Hc in Hquot.
  assert (Hc1 : 1 <= c < q) by nia.
  destruct (M.[q] =? pp_pi g); rewrite Hquot;
    (apply IH; [intros; apply HM; lia|lia|lia]).
Qed.

Lemma odd_loop_runs (P : list Z) (hi : Z) :
  (forall i, 1 <= i <= hi -> 2 <= P.[i]) ->
  forall fuel m M F,
  (forall x, 1 <= x <= m -> largest_idx P hi x M.[x]) ->
  0 <= m < 2 * Z.of_nat fuel ->
  odd_loop fuel P m M F <> Fuel.
Proof.
  intros HP. induction fuel as [|k IH]; intros m M F HM Hf; simpl.
  - lia.
  - destruct (Z.gtb_spec m 1) as [Hm|Hm]; [|discriminate].
    pose proof (factor_odd_runs P M hi HP (Z.to_nat m) m []
                  (mk_pp M.[m] 0) HM ltac:(lia) ltac:(lia)) as Hfo.
    destruct (factor_odd _ _ _ _ _ _) as [[[q done] g]| |]; cbn [bind];
      [|discriminate|contradiction].
    assert (HM' : forall v x, 1 <= x <= m - 2 ->
              largest_idx P hi x (zset M m v).[x]).
    { intros v x Hx. rewrite zget_zset_neq by lia. apply HM. lia. }
    destruct (negb (q =? 1)); apply IH; auto; lia.
Qed.

Lemma even_loop_runs :
  forall fuel m M F,
  0 <= m < 2 * Z.of_nat fuel -> even_loop fuel m M F <> Fuel.
Proof.
  induction fuel as [|k IH]; intros m M F Hf; simpl.
  - lia.
  - destruct (Z.gtb_spec m 1) as [Hm|Hm]; [|discriminate].
    destruct (_ =? 0); apply IH; lia.
Qed.

(** [setup] returns or aborts: none of its loops is cut off. *)
Lemma setup_runs (maxp maxm : Z) : setup maxp maxm <> Fuel.
Proof.
  unfold setup.
  set (B := sint32 maxp).
  set (hi := primecount_pi B).
  set (mm := if Z.land maxm 1 =? 0 then maxm + 1 else maxm).
  unfold assert.
  destruct (Z.leb_spec maxp MAXP_init) as [Ha|]; cbn [bind]; [|discriminate].
  destruct (Z.leb_spec hi MAXPI_init) as [Ha0|]; cbn [bind]; [|discriminate].
  destruct (Z.leb_spec mm MAXM_init) as [Ha1|]; cbn [bind]; [|discriminate].
  destruct (Z.leb_spec 0 mm) as [Hmm0|]; cbn [andb bind]; [|discriminate].
  destruct (Z.ltb_spec mm (B * B)) as [HmmB|]; cbn [bind]; [|discriminate].
  destruct (Z.leb_spec 0 (B + 1)) as [Ha3|]; cbn [bind]; [|discriminate].
  destruct (fill_primes (primes_upto B) 1 (zset (calloc (hi + 1)) 0 1)
              (calloc (B + 1))) as [P0 PI1] eqn:EP.
  pose proof (setup_P B (calloc (B + 1))) as HPeq.
  fold hi in HPeq. rewrite EP in HPeq. simpl in HPeq. subst P0.
  assert (Hmodd : mm mod 2 = 1).
  { unfold mm. rewrite land_1.
    destruct (Z.eqb_spec (maxm mod 2) 0); zlia. }
  assert (Hmm1 : 1 <= mm) by zlia.
  assert (Hhi : 0 <= hi) by (unfold hi, primecount_pi; lia).
  pose proof (prime_table_setup B) as HT. fold hi in HT.
  assert (HP2 : forall i, 1 <= i <= hi -> 2 <= (1 :: primes_upto B).[i]).
  { intros i Hi. apply Z.prime_ge_2, (proj1 HT), Hi. }
  pose proof (sieve_runs hi mm (1 :: primes_upto B)
                ltac:(intros i Hi; specialize (HP2 i Hi); lia)
                (Z.to_nat hi + 1) 1 (calloc (mm + 1)) ltac:(lia)
                ltac:(lia)) as Hsv.
  destruct (sieve _ _ _ _ _ _) as [M0| |] eqn:Hsieve; cbn [bind];
    [|discriminate|contradiction].
  apply sieve_spec in Hsieve; try lia.
  2:{ intros i Hi. specialize (HP2 i Hi). lia. }
  2:{ apply calloc_length. lia. }
  2:{ intros q Hq. rewrite zget_calloc. split; [auto|]. intros j Hj. lia. }
  2:{ apply zget_calloc. }
  destruct Hsieve as (HlenM0 & HM00 & HL0).
  replace (Z.max (1 - 1) hi) with hi in HL0 by lia.
  pose proof (odd_loop_runs (1 :: primes_upto B) hi HP2 (Z.to_nat mm) mm
                M0 [pp0] HL0 ltac:(lia)) as Hodd.
  destruct (odd_loop _ _ _ _ _) as [[M1 F1]| |]; cbn [bind];
    [|discriminate|contradiction].
  pose proof (even_loop_runs (Z.to_nat mm) (mm - 1) (zset M1 1 (foff F1))
                (F1 ++ [pp0]) ltac:(lia)) as Hev.
  destruct (even_loop _ _ _ _) as [[M2 F2]| |]; cbn [bind];
    [|discriminate|contradiction].
  destruct (_ <? _); cbn [bind]; discriminate.
Qed.

(** ** The tables P and PI *)

Lemma zrange_snoc (lo : Z) (k : nat) :
  zrange lo (S k) = zrange lo k ++ [lo + Z.of_nat k].
Proof.
  revert lo. induction k as [|k IH]; intros lo.
  - simpl. rewrite Z.add_0_r. reflexivity.
  - change (zrange lo (S (S k))) with (lo :: zrange (lo + 1) (S k)).
    rewrite IH. cbn [zrange app]. do 3 f_equal. lia.
Qed.

Lemma zrange_app (lo : Z) (a b : nat) :
  zrange lo (a + b) = zrange lo a ++ zrange (lo + Z.of_nat a) b.
Proof.
  revert lo. induction a as [|a IH]; intros lo.
  - simpl. rewrite Z.add_0_r. reflexivity.
  - cbn [zrange app Nat.add]. rewrite IH. do 3 f_equal. lia.
Qed.

Lemma primes_upto_low (n : Z) : n <= 1 -> primes_upto n = [].
Proof.
  intros H. unfold primes_upto.
  replace (Z.to_nat (n - 1)) with O by lia. reflexivity.
Qed.

Lemma primes_upto_snoc (n : Z) :
  2 <= n ->
  primes_upto n = primes_upto (n - 1) ++ (if is_prime n then [n] else []).
Proof.
  intros H. unfold primes_upto.
  replace (Z.to_nat (n - 1)) with (S (Z.to_nat (n - 1 - 1))) by lia.
  rewrite zrange_snoc, filter_app.
  replace (2 + Z.of_nat (Z.to_nat (n - 1 - 1))) with n by lia.
  cbn [filter]. destruct (is_prime n); reflexivity.
Qed.

Lemma primes_upto_split (n B : Z) :
  1 <= n <= B ->
  primes_upto B
  = primes_upto n ++ filter is_prime (zrange (n + 1) (Z.to_nat (B - n))).
Proof.
  intros H. unfold primes_upto.
  replace (Z.to_nat (B - 1)) with (Z.to_nat (n - 1) + Z.to_nat (B - n))%nat
    by lia.
  rewrite zrange_app, filter_app.
  replace (2 + Z.of_nat (Z.to_nat (n - 1))) with (n + 1) by lia.
  reflexivity.
Qed.

Lemma primecount_low (n : Z) : n <= 1 -> primecount_pi n = 0.
Proof.
  intros H. unfold primecount_pi. rewrite primes_upto_low by lia.
  reflexivity.
Qed.

Lemma primecount_step (n : Z) :
  2 <= n ->
  primecount_pi n = primecount_pi (n - 1) + (if is_prime n then 1 else 0).
Proof.
  intros H. unfold primecount_pi. rewrite (primes_upto_snoc n H).
  rewrite length_app. destruct (is_prime n); simpl; lia.
Qed.

Lemma primecount_nonneg (n : Z) : 0 <= primecount_pi n.
Proof. unfold primecount_pi. lia. Qed.

Lemma primecount_mono (n n' : Z) :
  n <= n' -> primecount_pi n <= primecount_pi n'.
Proof.
  intros H. replace n' with (n + Z.of_nat (Z.to_nat (n' - n))) by lia.
  induction (Z.to_nat (n' - n)) as [|k IH].
  - rewrite Z.add_0_r. lia.
  - destruct (Z.le_gt_cases (n + Z.of_nat (S k)) 1) as [Hl|Hl].
    + rewrite (primecount_low (n + Z.of_nat (S k))) in * by lia.
      rewrite (primecount_low (n + Z.of_nat k)) in IH by lia. exact IH.
    + rewrite (primecount_step (n + Z.of_nat (S k))) by lia.
      replace (n + Z.of_nat (S k) - 1) with (n + Z.of_nat k) by lia.
      destruct (is_prime _); lia.
Qed.

(** The n-th prime sits at position pi(p). *)
Lemma nth_prime (B p : Z) :
  Z.prime p -> p <= B ->
  1 <= primecount_pi p <= primecount_pi B /\
  (1 :: primes_upto B).[primecount_pi p] = p.
Proof.
  intros Hp HB. pose proof (Z.prime_ge_2 _ Hp) as H2.
  assert (Hip : is_prime p = true) by (apply is_prime_spec; exact Hp).
  pose proof (primecount_step p H2) as Hs. rewrite Hip in Hs.
  pose proof (primecount_nonneg (p - 1)).
  split; [split; [lia|apply primecount_mono; lia]|].
  rewrite zget_cons by lia. unfold zget.
  destruct (Z.ltb_spec (primecount_pi p - 1) 0); [lia|].
  rewrite (primes_upto_split p B) by lia.
  rewrite (primes_upto_snoc p H2), Hip.
  rewrite app_nth1.
  - rewrite app_nth2.
    + unfold primecount_pi in *.
      replace (Z.to_nat (Z.of_nat (length (primes_upto p)) - 1) -
               length (primes_upto (p - 1)))%nat with O by lia.
      reflexivity.
    + unfold primecount_pi in *. lia.
  - rewrite length_app. simpl. unfold primecount_pi in *. lia.
Qed.

Lemma fill_primes_app (l1 l2 : list Z) :
  forall n P PI,
  fill_primes (l1 ++ l2) n P PI
  = fill_primes l2 (n + Z.of_nat (length l1))
      (fst (fill_primes l1 n P PI)) (snd (fill_primes l1 n P PI)).
Proof.
  induction l1 as [|p l1 IH]; intros n P PI.
  - simpl. rewrite Z.add_0_r. reflexivity.
  - cbn [app fill_primes length]. rewrite IH. f_equal. lia.
Qed.

Lemma fill_primes_snd_length (ps : list Z) :
  forall n P PI, length (snd (fill_primes ps n P PI)) = length PI.
Proof.
  induction ps as [|p ps IH]; intros n P PI; simpl; auto.
  rewrite IH. apply zset_length.
Qed.

Lemma is_prime_ge_2 (x : Z) : is_prime x = true -> 2 <= x.
Proof. intros H. apply is_prime_spec in H. apply Z.prime_ge_2, H. Qed.

(** After the first loop PI[p] is the index of p for the primes p up to
    the bound, and still zero elsewhere. *)
Lemma fill_primes_PI (PI0 : list Z) (P0 : list Z) :
  (forall x, PI0.[x] = 0) ->
  forall (k : nat) (B : Z), Z.to_nat (B - 1) = k ->
  B < Z.of_nat (length PI0) ->
  forall x, (snd (fill_primes (primes_upto B) 1 P0 PI0)).[x]
            = if is_prime x && (x <=? B) then primecount_pi x else 0.
Proof.
  intros H0. induction k as [|k IH]; intros B Hk HB x.
  - rewrite primes_upto_low by lia. simpl. rewrite H0.
    destruct (is_prime x) eqn:Ex; simpl; auto.
    apply is_prime_ge_2 in Ex. destruct (Z.leb_spec x B); auto. lia.
  - assert (HB2 : 2 <= B) by lia.
    rewrite (primes_upto_snoc B HB2), fill_primes_app.
    specialize (IH (B - 1) ltac:(lia) ltac:(lia)).
    set (r := fill_primes (primes_upto (B - 1)) 1 P0 PI0) in *.
    pose proof (fill_primes_snd_length (primes_upto (B - 1)) 1 P0 PI0)
      as Hlen. fold r in Hlen.
    destruct (is_prime B) eqn:EB; cbn [fill_primes snd].
    + rewrite zget_zset. destruct (Z.eqb_spec x B) as [->|Hne].
      * rewrite EB.
        destruct (Z.leb_spec 0 B), (Z.leb_spec B B),
          (Z.ltb_spec B (Z.of_nat (length (snd r)))); cbn [andb]; try lia.
        rewrite (primecount_step B HB2), EB. unfold primecount_pi. lia.
      * simpl. rewrite IH.
        destruct (Z.leb_spec x (B - 1)), (Z.leb_spec x B); auto; lia.
    + rewrite IH. destruct (Z.eqb_spec x B) as [->|Hne].
      * rewrite EB. reflexivity.
      * destruct (Z.leb_spec x (B - 1)), (Z.leb_spec x B); auto; lia.
Qed.

Lemma fill_pi_app (l1 l2 : list Z) :
  forall PI, fill_pi (l1 ++ l2) PI = fill_pi l2 (fill_pi l1 PI).
Proof. induction l1 as [|n l1 IH]; intros PI; simpl; auto. Qed.

(** The second loop turns PI into the prime-counting function. *)
Lemma fill_pi_count (PI1 : list Z) (B : Z) :
  (forall x, PI1.[x]
             = if is_prime x && (x <=? B) then primecount_pi x else 0) ->
  B < Z.of_nat (length PI1) ->
  forall k : nat, Z.of_nat k <= B ->
  length (fill_pi (zrange 1 k) PI1) = length PI1 /\
  (forall x, 0 <= x <= Z.of_nat k ->
             (fill_pi (zrange 1 k) PI1).[x] = primecount_pi x) /\
  (forall x, Z.of_nat k < x -> (fill_pi (zrange 1 k) PI1).[x] = PI1.[x]).
Proof.
  intros H1 HB. induction k as [|k IH]; intros Hk.
  - simpl. split; [reflexivity|]. split; [|reflexivity].
    intros x Hx. assert (x = 0) by lia. subst x. rewrite H1.
    reflexivity.
  - destruct (IH ltac:(lia)) as (Hlen & Hlo & Hhi).
    rewrite zrange_snoc, fill_pi_app.
    set (PIk := fill_pi (zrange 1 k) PI1) in *.
    set (n := 1 + Z.of_nat k).
    assert (Hn : PIk.[n] = if is_prime n then primecount_pi n else 0).
    { rewrite Hhi by lia. rewrite H1.
      destruct (Z.leb_spec n B); [|lia]. rewrite andb_true_r.
      reflexivity. }
    assert (Hpc : primecount_pi n
                  = primecount_pi (n - 1) + if is_prime n then 1 else 0).
    { destruct (Z.eq_dec n 1) as [->|].
      - rewrite !primecount_low by lia. reflexivity.
      - apply primecount_step. lia. }
    pose proof (primecount_nonneg (n - 1)) as Hnn.
    cbn [fill_pi]. rewrite Hn.
    destruct (is_prime n) eqn:En.
    + destruct (Z.eqb_spec (primecount_pi n) 0) as [Hz|Hz]; [lia|].
      split; [exact Hlen|]. split.
      * intros x Hx. destruct (Z.eq_dec x n) as [->|Hne].
        -- exact Hn.
        -- apply Hlo. lia.
      * intros x Hx. apply Hhi. lia.
    + rewrite Z.eqb_refl. split; [rewrite zset_length; exact Hlen|].
      split.
      * intros x Hx. rewrite zget_zset.
        destruct (Z.eqb_spec x n) as [->|Hne].
        -- destruct (Z.leb_spec 0 n),
             (Z.ltb_spec n (Z.of_nat (length PIk))); simpl; try lia.
           rewrite Hlo by lia. lia.
        -- simpl. apply Hlo. lia.
      * intros x Hx. rewrite zget_zset_neq by lia. apply Hhi. lia.
Qed.

Lemma setup_PI (maxp maxm : Z) (T : tables) :
  setup maxp maxm = Ok T ->
  forall n, (PI T).[n] = if n <=? MAXP T then primecount_pi n else 0.
Proof.
  unfold setup. intros H.
  set (B := sint32 maxp) in *.
  set (hi := primecount_pi B) in *.
  inv_bind H. inv_bind H. inv_bind H. inv_bind H. inv_bind H.
  destruct (fill_primes (primes_upto B) 1 (zset (calloc (hi + 1)) 0 1)
              (calloc (B + 1))) as [P0 PI1] eqn:EP.
  apply bind_Ok in H. destruct H as (M0 & _ & H).
  apply bind_Ok in H. destruct H as ([M1 F1] & _ & H).
  apply bind_Ok in H. destruct H as ([M2 F2] & _ & H).
  inv_bind H. injection H as <-. simpl.
  apply Z.leb_le in Ha3.
  assert (HPI1 : forall x, PI1.[x]
             = if is_prime x && (x <=? B) then primecount_pi x else 0).
  { intros x. change PI1 with (snd (P0, PI1)). rewrite <- EP.
    apply (fill_primes_PI _ _ ltac:(intros; apply zget_calloc)
             (Z.to_nat (B - 1)) B eq_refl).
    rewrite calloc_length; lia. }
  assert (Hlen : Z.of_nat (length PI1) = B + 1).
  { change PI1 with (snd (P0, PI1)). rewrite <- EP.
    rewrite fill_primes_snd_length. apply calloc_length. lia. }
  intros n.
  destruct (Z.lt_ge_cases B 0) as [HBn|HBp].
  { assert (HB : B = -1) by lia.
    replace (Z.to_nat B) with O by lia. simpl. rewrite HPI1.
    destruct (is_prime n) eqn:En; simpl.
    - apply is_prime_ge_2 in En.
      destruct (Z.leb_spec n B); [lia|reflexivity].
    - destruct (Z.leb_spec n B); auto. rewrite primecount_low; lia. }
  destruct (fill_pi_count PI1 B HPI1 ltac:(lia) (Z.to_nat B) ltac:(lia))
    as (_ & Hlo & Hhi).
  destruct (Z.leb_spec n B) as [Hle|Hgt].
  - destruct (Z.lt_ge_cases n 0) as [Hneg|Hpos].
    + rewrite zget_out by lia. rewrite primecount_low; lia.
    + apply Hlo. lia.
  - rewrite Hhi by lia. rewrite HPI1.
    destruct (Z.leb_spec n B); [lia|]. rewrite andb_false_r. reflexivity.
Qed.

Lemma NoDup_zrange (len : nat) : forall lo, NoDup (zrange lo len).
Proof.
  induction len as [|k IH]; intros lo; simpl; constructor; auto.
  rewrite zrange_In. lia.
Qed.

Lemma NoDup_primes_upto (n : Z) : NoDup (primes_upto n).
Proof. apply NoDup_filter, NoDup_zrange. Qed.

(** The parameters [setup] stores, and the table P it builds. *)
Lemma setup_shape (maxp maxm : Z) (T : tables) :
  setup maxp maxm = Ok T ->
  MAXP T = sint32 maxp /\ MAXPI T = primecount_pi (MAXP T) /\
  P T = 1 :: primes_upto (MAXP T) /\
  maxp <= MAXP_init /\ MAXPI T <= MAXPI_init /\ MAXM T <= MAXM_init /\
  0 <= MAXM T < MAXP T * MAXP T /\ -1 <= MAXP T.
Proof.
  unfold setup. intros H.
  set (B := sint32 maxp) in *.
  set (hi := primecount_pi B) in *.
  inv_bind H. inv_bind H. inv_bind H. inv_bind H. inv_bind H.
  destruct (fill_primes (primes_upto B) 1 (zset (calloc (hi + 1)) 0 1)
              (calloc (B + 1))) as [P0 PI1] eqn:EP.
  pose proof (setup_P B (calloc (B + 1))) as HPeq.
  fold hi in HPeq. rewrite EP in HPeq. simpl in HPeq. subst P0.
  apply bind_Ok in H. destruct H as (M0 & _ & H).
  apply bind_Ok in H. destruct H as ([M1 F1] & _ & H).
  apply bind_Ok in H. destruct H as ([M2 F2] & _ & H).
  inv_bind H. injection H as <-. simpl.
  apply andb_prop in Ha2. destruct Ha2 as [Hmm0 HmmB].
  apply Z.leb_le in Ha, Ha0, Ha1, Ha3, Hmm0. apply Z.ltb_lt in HmmB.
  repeat split; auto; lia.
Qed.

(** PI inverts P. *)
Lemma table_index (maxp maxm : Z) (T : tables) (i : Z) :
  setup maxp maxm = Ok T -> 1 <= i <= MAXPI T ->
  (PI T).[(P T).[i]] = i.
Proof.
  intros H Hi.
  destruct (setup_entries _ _ _ H) as (_ & _ & _ & [HP _] & _).
  destruct (setup_shape _ _ _ H) as (_ & Hhi & HPl & _).
  destruct (HP i Hi) as [Hpr Hle].
  rewrite (setup_PI _ _ _ H).
  destruct (Z.leb_spec (P T).[i] (MAXP T)); [|lia].
  destruct (nth_prime (MAXP T) _ Hpr Hle) as [Hk Hnth].
  rewrite <- HPl, <- Hhi in *.
  set (k := primecount_pi (P T).[i]) in *.
  rewrite HPl in Hnth.
  rewrite !zget_cons in Hnth by lia. unfold zget in Hnth.
  destruct (Z.ltb_spec (k - 1) 0), (Z.ltb_spec (i - 1) 0); try lia.
  apply (proj1 (NoDup_nth _ 0) (NoDup_primes_upto (MAXP T))) in Hnth;
    unfold primecount_pi in Hhi; lia.
Qed.

(** P is strictly increasing, so P[i] is at least i+1. *)
Lemma table_increasing (maxp maxm : Z) (T : tables) (i j : Z) :
  setup maxp maxm = Ok T -> 1 <= i -> i < j -> j <= MAXPI T ->
  (P T).[i] < (P T).[j].
Proof.
  intros H Hi Hij Hj.
  destruct (setup_entries _ _ _ H) as (_ & _ & _ & [HP _] & _).
  destruct (Z.lt_ge_cases (P T).[i] (P T).[j]) as [|Hge]; [assumption|].
  exfalso.
  pose proof (table_index _ _ _ i H ltac:(lia)) as Hi'.
  pose proof (table_index _ _ _ j H ltac:(lia)) as Hj'.
  rewrite (setup_PI _ _ _ H) in Hi', Hj'.
  destruct (HP i ltac:(lia)) as [_ Hle1]. destruct (HP j ltac:(lia)) as [_ Hle2].
  destruct (Z.leb_spec (P T).[i] (MAXP T)); [|lia].
  destruct (Z.leb_spec (P T).[j] (MAXP T)); [|lia].
  pose proof (primecount_mono _ _ Hge). lia.
Qed.

Lemma table_lower (maxp maxm : Z) (T : tables) (i : Z) :
  setup maxp maxm = Ok T -> 1 <= i <= MAXPI T -> i + 1 <= (P T).[i].
Proof.
  intros H Hi.
  replace i with (1 + Z.of_nat (Z.to_nat (i - 1))) in * by lia.
  induction (Z.to_nat (i - 1)) as [|k IH].
  - destruct (setup_entries _ _ _ H) as (_ & _ & _ & [HP _] & _).
    pose proof (Z.prime_ge_2 _ (proj1 (HP (1 + Z.of_nat 0) Hi))). lia.
  - specialize (IH ltac:(lia)).
    pose proof (table_increasing _ _ _ (1 + Z.of_nat k) (1 + Z.of_nat (S k))
                  H ltac:(lia) ltac:(lia) ltac:(lia)).
    lia.
Qed.

(** ** What [setup] leaves in the tables *)

(** X1. [setup] returns only for a prime bound of at most 310248233 whose
    32-bit value is at least 2 and has at most 2^24 - 1 primes below it;
    it stores that value as MAXP and the number of primes up to it as
    MAXPI, and it stores as MAXM the cofactor bound made odd (maxm itself
    or maxm + 1), which must stay below 2^31 and below MAXP^2. *)
Theorem setup_limits (maxp maxm : Z) (T : tables) :
  setup maxp maxm = Ok T ->
  maxp <= MAXP_init /\ MAXP T = sint32 maxp /\ 2 <= MAXP T /\
  MAXPI T = primecount_pi (MAXP T) /\ MAXPI T <= MAXPI_init /\
  MAXM T mod 2 = 1 /\ maxm <= MAXM T <= maxm + 1 /\
  MAXM T <= MAXM_init /\ MAXM T < MAXP T * MAXP T.
Proof.
  intros H.
  destruct (setup_shape _ _ _ H) as (H1 & H2 & _ & H4 & H5 & H6 & H7 & _).
  destruct (setup_entries _ _ _ H) as (HB & Hodd & Hm & _).
  repeat split; auto; lia.
Qed.

Lemma setup_limits_witness :
  exists T, setup 5 10 = Ok T /\
    5 <= MAXP_init /\ MAXP T = sint32 5 /\ 2 <= MAXP T /\
    MAXPI T = primecount_pi (MAXP T) /\ MAXPI T <= MAXPI_init /\
    MAXM T mod 2 = 1 /\ 10 <= MAXM T <= 10 + 1 /\
    MAXM T <= MAXM_init /\ MAXM T < MAXP T * MAXP T.
Proof.
  eexists. split; [vm_compute; reflexivity|].
  apply (setup_limits 5 10). vm_compute. reflexivity.
Defined.

(** X2. After [setup], P[0] = 1 and P[1..MAXPI] are the primes up to MAXP
    in increasing order, and PI inverts P: PI[P[i]] = i for every index,
    and P[PI[p]] = p for every prime p up to MAXP. *)
Theorem prime_tables_inverse (maxp maxm : Z) (T : tables) :
  setup maxp maxm = Ok T ->
  (P T).[0] = 1 /\
  (forall i, 1 <= i <= MAXPI T ->
     Z.prime (P T).[i] /\ (P T).[i] <= MAXP T /\ (PI T).[(P T).[i]] = i) /\
  (forall p, Z.prime p -> p <= MAXP T ->
     1 <= (PI T).[p] <= MAXPI T /\ (P T).[(PI T).[p]] = p) /\
  (forall i j, 1 <= i -> i < j -> j <= MAXPI T -> (P T).[i] < (P T).[j]).
Proof.
  intros H.
  destruct (setup_entries _ _ _ H) as (_ & _ & _ & [HP _] & _).
  destruct (setup_shape _ _ _ H) as (_ & Hhi & HPl & _).
  split; [rewrite HPl; reflexivity|]. split; [|split].
  - intros i Hi. destruct (HP i Hi) as [Hpr Hle].
    split; [exact Hpr|]. split; [exact Hle|].
    apply (table_index maxp maxm); auto.
  - intros p Hp Hle. rewrite (setup_PI _ _ _ H).
    destruct (Z.leb_spec p (MAXP T)); [|lia].
    destruct (nth_prime (MAXP T) p Hp Hle) as [Hk Hnth].
    rewrite Hhi, HPl. split; [exact Hk|exact Hnth].
  - intros i j Hi Hij Hj. apply (table_increasing maxp maxm); auto.
Qed.

Lemma prime_tables_inverse_witness :
  exists T, setup 5 10 = Ok T /\
    (P T).[0] = 1 /\
    (forall i, 1 <= i <= MAXPI T ->
       Z.prime (P T).[i] /\ (P T).[i] <= MAXP T /\ (PI T).[(P T).[i]] = i) /\
    (forall p, Z.prime p -> p <= MAXP T ->
       1 <= (PI T).[p] <= MAXPI T /\ (P T).[(PI T).[p]] = p) /\
    (forall i j, 1 <= i -> i < j -> j <= MAXPI T -> (P T).[i] < (P T).[j]).
Proof.
  eexists. split; [vm_compute; reflexivity|].
  apply (prime_tables_inverse 5 10). vm_compute. reflexivity.
Defined.

(** X3. After [setup], [pi(n)] is the number of primes up to n for every
    n >= 0: for n <= MAXP it is the entry PI[n] of the table, above MAXP
    the value of primecount; in particular it does not decrease with
    n. *)
Theorem pi_counts_primes (maxp maxm : Z) (T : tables) :
  setup maxp maxm = Ok T ->
  forall n, 0 <= n ->
    pi T n = Z.of_nat (length (primes_upto n)) /\
    (n <= MAXP T -> (PI T).[n] = Z.of_nat (length (primes_upto n))) /\
    NoDup (primes_upto n) /\
    (forall p, In p (primes_upto n) <-> Z.prime p /\ p <= n) /\
    (forall n', n <= n' -> pi T n <= pi T n').
Proof.
  intros H.
  assert (Hpi : forall n, pi T n = primecount_pi n).
  { intros n. unfold pi. rewrite (setup_PI _ _ _ H).
    destruct (n <=? MAXP T); reflexivity. }
  intros n Hn. split; [apply Hpi|]. split.
  { intros Hle. pose proof (Hpi n) as Hn1. unfold pi in Hn1.
    destruct (Z.leb_spec n (MAXP T)); [exact Hn1|lia]. }
  split; [apply NoDup_primes_upto|].
  split; [intros p; apply primes_upto_In|].
  intros n' Hn'. rewrite !Hpi. apply primecount_mono, Hn'.
Qed.

(** The theorem on the tables of [setup (5, 10)] at n = 4, an entry of
    the table PI. *)
Lemma pi_counts_primes_witness :
  exists T, setup 5 10 = Ok T /\ 4 <= MAXP T /\
    (PI T).[4] = Z.of_nat (length (primes_upto 4)) /\ (PI T).[4] = 2.
Proof.
  assert (HT : exists T, setup 5 10 = Ok T /\ (4 <=? MAXP T) = true /\
                         (PI T).[4] = 2)
    by (vm_compute; eexists; repeat split; reflexivity).
  destruct HT as (T & HT & Hle & H4). apply Z.leb_le in Hle.
  exists T. split; [exact HT|]. split; [exact Hle|].
  split; [|exact H4].
  apply (pi_counts_primes 5 10 T HT 4); [lia|exact Hle].
Defined.

Lemma descending_length (l : list pp) :
  forall b, descending b l -> Z.of_nat (length l) <= Z.max 0 (b - 1).
Proof.
  induction l as [|x l IH]; intros b H; simpl length; [lia|].
  simpl in H. destruct H as (H1 & H2 & H3). specialize (IH _ H3). lia.
Qed.

Lemma pprod_divide_pow (P : list Z) (l : list pp) (y : pp) :
  In y l -> (P.[pp_pi y] ^ pp_e y | pprod P l).
Proof.
  induction l as [|x l IH]; simpl; [tauto|]. intros [->|H].
  - apply Z.divide_mul_l, Z.divide_refl.
  - apply Z.divide_mul_r; auto.
Qed.

Lemma zfact_pos (k : nat) : 1 <= zfact k.
Proof.
  induction k as [|k IH]; [simpl; lia|].
  change (zfact (S k)) with (Z.of_nat (S k) * zfact k). nia.
Qed.

Lemma zfact_le (n m : nat) : (n <= m)%nat -> zfact n <= zfact m.
Proof.
  induction 1 as [|m Hle IH]; [lia|].
  change (zfact (S m)) with (Z.of_nat (S m) * zfact m).
  pose proof (zfact_pos m). nia.
Qed.

(** A product of k distinct primes of the table is at least (k+1)!. *)
Lemma pprod_fact (P : list Z) (hi : Z) (l : list pp) :
  (forall i, 1 <= i <= hi -> i + 1 <= P.[i]) ->
  forall b, descending b l -> b <= hi + 1 ->
  zfact (S (length l)) <= pprod P l.
Proof.
  intros HP. induction l as [|x l IH]; intros b Hd Hb; [simpl; lia|].
  simpl in Hd. destruct Hd as (H1 & H2 & H3).
  specialize (IH _ H3 ltac:(lia)).
  pose proof (descending_length _ _ H3) as Hlen.
  pose proof (HP (pp_pi x) ltac:(lia)) as Hp.
  assert (Hpw : P.[pp_pi x] <= P.[pp_pi x] ^ pp_e x).
  { replace (P.[pp_pi x]) with (P.[pp_pi x] ^ 1) at 1 by apply Z.pow_1_r.
    apply Z.pow_le_mono_r; lia. }
  cbn [pprod]. change (length (x :: l)) with (S (length l)).
  change (zfact (S (S (length l))))
    with (Z.of_nat (S (S (length l))) * zfact (S (length l))).
  pose proof (zfact_pos (S (length l))).
  apply Z.mul_le_mono_nonneg; lia.
Qed.

(** X4. Every factorization that [setup] stores has at most 11 entries,
    each with a prime index from 1 to MAXPI and an exponent from 1 to 30:
    no entry overflows the bit fields of [struct pp], and [fac_extend]
    copies such a factorization with its sentinel into the 12 slots of a
    record whenever m*(p+1) >= t. *)
Theorem stored_factorization_fits (maxp maxm : Z) (T : tables) (m : Z) :
  setup maxp maxm = Ok T -> 1 <= m <= MAXM T -> (M T).[m] <> 0 ->
  (length (entries (FM T m)) <= 11)%nat /\
  (forall x, In x (entries (FM T m)) ->
     1 <= pp_pi x <= MAXPI T /\ 1 <= pp_e x <= 30) /\
  (forall v n p q c, m * (p + 1) >= fac_t v ->
     exists v', fac_extend v n m (FM T m) p q c = Ok v').
Proof.
  intros H Hm Hnz.
  destruct (FM_spec _ _ _ m H Hm Hnz) as [[b Hd] Hprod].
  destruct (setup_shape _ _ _ H) as (_ & Hhi & HPl & _ & _ & HM31 & _).
  unfold fprod in Hprod. set (l := entries (FM T m)) in *.
  assert (Hent : forall x, In x l ->
            1 <= pp_pi x <= MAXPI T /\ 1 <= pp_e x <= 30).
  { intros x Hx. pose proof (descending_In _ _ _ Hd Hx) as [Hpi He].
    pose proof (pprod_divide_pow (P T) l x Hx) as Hdiv.
    rewrite Hprod in Hdiv.
    destruct (Z.le_gt_cases (pp_pi x) (MAXPI T)) as [Hle|Hgt].
    - pose proof (table_primes T maxp maxm H (pp_pi x) ltac:(lia)) as Hp2.
      apply Z.divide_pos_le in Hdiv; [|lia].
      assert (Hlt : (P T).[pp_pi x] ^ pp_e x < 2 ^ 31)
        by (unfold MAXM_init in HM31; lia).
      assert (He0 : 0 <= pp_e x) by lia.
      pose proof (pow_bound_31 _ _ Hp2 He0 Hlt).
      lia.
    - exfalso. rewrite zget_out in Hdiv.
      + rewrite Z.pow_0_l in Hdiv by lia.
        apply Z.divide_0_l in Hdiv. lia.
      + right. rewrite HPl. simpl length.
        unfold primecount_pi in Hhi. lia. }
  assert (Hd' : descending (MAXPI T + 1) l).
  { destruct l as [|x l']; [exact I|]. simpl in Hd |- *.
    destruct (Hent x (or_introl eq_refl)). repeat split; try tauto; lia. }
  assert (Hlen : (length l <= 11)%nat).
  { pose proof (pprod_fact (P T) (MAXPI T) l
                  (fun i Hi => table_lower maxp maxm T i H Hi)
                  _ Hd' ltac:(lia)) as Hf.
    rewrite Hprod in Hf.
    destruct (Nat.le_gt_cases (length l) 11) as [|Hgt]; [assumption|].
    exfalso.
    assert (Hf13 : zfact 13 <= zfact (S (length l)))
      by (apply zfact_le; lia).
    assert (zfact 13 = 6227020800) by (vm_compute; reflexivity).
    unfold MAXM_init in HM31. lia. }
  split; [exact Hlen|]. split; [exact Hent|].
  intros v n p q c Hge. unfold fac_extend.
  destruct (Z.geb_spec (m * (p + 1)) (fac_t v)) as [_|]; [|lia].
  cbn [assert bind]. fold l.
  destruct (Nat.leb_spec (length (l ++ [pp0])) 12) as [_|Hgt].
  - cbn [assert bind]. eauto.
  - rewrite length_app in Hgt. simpl in Hgt. lia.
Qed.

Lemma stored_factorization_fits_witness :
  exists T, setup 5 10 = Ok T /\
    (length (entries (FM T 10)) <= 11)%nat /\
    exists v', fac_extend (fac_alloc 30 8) 3 10 (FM T 10) 4 5 1 = Ok v'.
Proof.
  eexists. split; [vm_compute; reflexivity|].
  match goal with |- (length (entries (FM ?T _)) <= _)%nat /\ _ =>
    assert (HT : setup 5 10 = Ok T) by (vm_compute; reflexivity);
    destruct (stored_factorization_fits 5 10 T 10 HT
                ltac:(vm_compute; split; discriminate)
                ltac:(vm_compute; discriminate)) as (H1 & _ & H3)
  end.
  split; [exact H1|]. apply H3. vm_compute. discriminate.
Defined.

(** X5. [setup] ends for every pair of arguments: the sieve, the
    factoring of each odd m and the passes over the odd and the even m
    all stop within the rounds their bounds allow, so a call either stops
    at an assertion or returns its tables. *)
Theorem setup_ends (maxp maxm : Z) :
  setup maxp maxm = Abort \/ exists T, setup maxp maxm = Ok T.
Proof.
  pose proof (setup_runs maxp maxm) as H.
  destruct (setup maxp maxm) as [T| |]; [right; eauto|left; reflexivity|].
  contradiction.
Qed.

(** ** The helpers [cdiv], [fcnti] and [fac_s] *)

Lemma fold_min_attained (l : list Z) (e : Z) :
  fold_right Z.min e l = e \/ In (fold_right Z.min e l) l.
Proof.
  induction l as [|y l IH]; simpl; [auto|].
  destruct (Z.min_spec y (fold_right Z.min e l)) as [[_ ->]|[_ ->]]; auto.
  destruct IH; auto.
Qed.

Lemma entries_below_head (f : list pp) (b : Z) (x : pp) :
  descending b (entries f) -> In x (entries f) ->
  1 <= pp_pi x <= fpi f /\ 1 <= pp_e x /\
  (pp_pi x = fpi f -> pp_e x = fe f).
Proof.
  intros Hd Hx. apply descending_head in Hd.
  pose proof (descending_In _ _ _ Hd Hx) as [Hp He].
  split; [lia|]. split; [lia|]. intros Heq.
  destruct f as [|y f]; simpl in *; [tauto|].
  destruct (Z.eqb_spec (pp_pi y) 0); simpl in *; [tauto|].
  destruct Hx as [<-|Hx]; [reflexivity|].
  destruct Hd as (_ & _ & Hd).
  pose proof (descending_In _ _ _ Hd Hx). lia.
Qed.

(** X6. [fcnti(E,i,f)] stops at its assertion when the leading prime
    index of f is above i; otherwise it returns the largest e such that
    e copies of P[i]*m fit into E (m the number with factorization f,
    which may contain P[i]): e copies fit and e+1 do not. *)
Theorem fcnti_largest (E : list Z) (i : Z) (f : list pp) (b : Z) :
  nonneg E -> 1 <= i -> f <> [] -> descending b (entries f) ->
  (i < fpi f -> fcnti E i f = Abort) /\
  (fpi f <= i ->
   exists e, fcnti E i f = Ok e /\ 0 <= e /\
             uses E i f e /\ ~ uses E i f (e + 1)).
Proof.
  intros HE Hi Hf Hd. unfold fcnti.
  destruct f as [|x0 f0] eqn:Ef; [congruence|]. rewrite <- Ef in *.
  assert (Hlen : (length f =? 0)%nat = false) by (rewrite Ef; reflexivity).
  rewrite Hlen. cbn [negb assert bind].
  split.
  { intros Hlt. destruct (Z.leb_spec (fpi f) i); [lia|]. reflexivity. }
  intros Hle. destruct (Z.leb_spec (fpi f) i); [|lia]. cbn [bind].
  set (a := if fpi f =? i then fe f else 0).
  set (e0 := if i >? fpi f then E.[i] else E.[i] ÷ (fe f + 1)).
  pose proof (HE i) as HEi.
  assert (Ha : 0 <= a /\ e0 = E.[i] / (1 + a)).
  { unfold a, e0. rewrite Z.gtb_ltb.
    destruct (Z.eqb_spec (fpi f) i) as [Heq|Hne],
      (Z.ltb_spec (fpi f) i); try lia.
    - assert (Hin : In x0 (entries f)).
      { rewrite Ef in *. simpl in *.
        destruct (Z.eqb_spec (pp_pi x0) 0); [lia|]. left; reflexivity. }
      destruct (entries_below_head f b x0 Hd Hin) as (_ & He & Hfe).
      assert (fe f = pp_e x0) by (rewrite Ef; reflexivity).
      rewrite Z.quot_div_nonneg by lia.
      split; [lia|]. f_equal. lia.
    - split; [lia|]. rewrite Z.div_1_r. reflexivity. }
  destruct Ha as [Ha0 He0].
  assert (Hq : forall x, In x (entries f) ->
             E.[pp_pi x] ÷ pp_e x = E.[pp_pi x] / pp_e x /\
             0 <= E.[pp_pi x] / pp_e x).
  { intros x Hx. destruct (entries_below_head f b x Hd Hx) as (_ & He & _).
    rewrite Z.quot_div_nonneg by (try apply HE; lia).
    split; [reflexivity|]. apply Z.div_pos; [apply HE|lia]. }
  exists (fcnt E e0 f). split; [reflexivity|].
  rewrite fcnt_fold.
  set (qs := map (fun x => E.[pp_pi x] ÷ pp_e x) (entries f)).
  set (e := fold_right Z.min e0 qs).
  assert (He0' : 0 <= e0) by (rewrite He0; apply Z.div_pos; lia).
  assert (Hle0 : e <= e0) by apply fold_min_le.
  assert (Hnn : 0 <= e).
  { apply fold_min_lb; auto. intros y Hy. apply in_map_iff in Hy.
    destruct Hy as (x & <- & Hx). destruct (Hq x Hx) as [-> ?]. lia. }
  split; [exact Hnn|]. split.
  - split.
    + pose proof (Z.mul_div_le E.[i] (1 + a) ltac:(lia)). nia.
    + intros x Hx _. destruct (Hq x Hx) as [Hqx Hq0].
      destruct (entries_below_head f b x Hd Hx) as (_ & He & _).
      assert (e <= E.[pp_pi x] / pp_e x).
      { rewrite <- Hqx. apply fold_min_In.
        apply (in_map (fun x => E.[pp_pi x] ÷ pp_e x)), Hx. }
      pose proof (Z.mul_div_le E.[pp_pi x] (pp_e x) ltac:(lia)). nia.
  - intros [H1 H2].
    destruct (fold_min_attained qs e0) as [Heq|Hin].
    + change (fold_right Z.min e0 qs) with e in Heq.
      rewrite Heq, He0 in H1.
      pose proof (Z.mul_succ_div_gt E.[i] (1 + a) ltac:(lia)). lia.
    + change (fold_right Z.min e0 qs) with e in Hin.
      apply in_map_iff in Hin.
      destruct Hin as (x & Hex & Hx). destruct (Hq x Hx) as [Hqx Hq0].
      destruct (entries_below_head f b x Hd Hx) as (Hp & He & Hfe).
      rewrite Hqx in Hex.
      pose proof (Z.mul_succ_div_gt E.[pp_pi x] (pp_e x) ltac:(lia)) as Hgt.
      destruct (Z.eq_dec (pp_pi x) i) as [Hxi|Hxi].
      * assert (Hfi : fpi f = i) by lia.
        assert (Haf : a = pp_e x).
        { unfold a. rewrite Hfi, Z.eqb_refl. symmetry. apply Hfe. lia. }
        rewrite Hxi in *. nia.
      * specialize (H2 x Hx Hxi). nia.
Qed.

Lemma fcnti_largest_witness :
  let E := [0; 5; 3] in
  let f := [mkpp 2 1; mkpp 1 2; pp0] in
  fcnti E 2 f = Ok 1 /\
  (fpi f <= 2 ->
   exists e, fcnti E 2 f = Ok e /\ 0 <= e /\
             uses E 2 f e /\ ~ uses E 2 f (e + 1)).
Proof.
  split; [reflexivity|].
  apply (fcnti_largest [0; 5; 3] 2 [mkpp 2 1; mkpp 1 2; pp0] 3).
  - intros i. unfold zget. destruct (i <? 0); [lia|].
    destruct (Z.to_nat i) as [|[|[|[|n]]]]; simpl; lia.
  - lia.
  - discriminate.
  - simpl. lia.
Defined.

Lemma s_of_spec (t : Z) :
  1 <= t ->
  (s_of t - 1) * (s_of t - 2) < t <= s_of t * (s_of t - 1) /\ 2 <= s_of t.
Proof.
  intros Ht. unfold s_of.
  pose proof (Z.sqrt_spec t ltac:(lia)) as Hs. cbv zeta in Hs.
  pose proof (Z.sqrt_nonneg t) as Hs0.
  set (s := Z.sqrt t) in *.
  assert (1 <= s) by nia.
  destruct (Z.ltb_spec ((s + 1) * s) t); nia.
Qed.

Lemma s_of_unique (t s : Z) :
  (s - 1) * (s - 2) < t <= s * (s - 1) -> 2 <= s -> 1 <= t -> s = s_of t.
Proof.
  intros H1 H2 Ht. destruct (s_of_spec t Ht) as [H3 H4].
  destruct (Z.lt_trichotomy s (s_of t)) as [Hlt|[Heq|Hgt]]; [|exact Heq|].
  - exfalso. assert (s * (s - 1) <= (s_of t - 1) * (s_of t - 2)) by nia. lia.
  - exfalso. assert (s_of t * (s_of t - 1) <= (s - 1) * (s - 2)) by nia. lia.
Qed.

Lemma fac_s_Ok_pos (T : tables) (t s : Z) : fac_s T t = Ok s -> 1 <= t.
Proof.
  intros H. destruct (Z.le_gt_cases 1 t) as [|Hlt]; [assumption|]. exfalso.
  unfold fac_s in H.
  destruct (Z.leb_spec 0 t) as [H0|H0]; [|discriminate H].
  replace t with 0 in H by lia. discriminate H.
Qed.

(** X7. For 0 <= t < 2^62, where the square root is that of a
    nonnegative number and s(s-1) stays within [int64_t]: [fac_s(t)]
    returns s exactly when t >= 1 and s is the least integer from 2 on
    with s(s-1) >= t and s is at most MAXP; for t = 0 and for s above
    MAXP it stops at an assertion. *)
Theorem fac_s_least (T : tables) (t s : Z) :
  0 <= t < 2 ^ 62 ->
  (fac_s T t = Ok s <->
   1 <= t /\ (s - 1) * (s - 2) < t <= s * (s - 1) /\ 2 <= s <= MAXP T) /\
  (t = 0 -> fac_s T t = Abort).
Proof.
  intros Hr. split; [split|].
  - intros H. pose proof (fac_s_Ok_pos T t s H) as Ht.
    rewrite fac_s_spec in H by exact Ht.
    destruct (Z.leb_spec (s_of t) (MAXP T)); [|discriminate H].
    injection H as <-. pose proof (s_of_spec t Ht). lia.
  - intros (Ht & Hs & H2 & Hm).
    rewrite fac_s_spec by exact Ht.
    rewrite <- (s_of_unique t s Hs H2 Ht).
    destruct (Z.leb_spec s (MAXP T)); [reflexivity|lia].
  - intros ->. reflexivity.
Qed.

(** The theorem at t = 30 on the tables for primes up to 17: s = 6. *)
Lemma fac_s_least_witness :
  fac_s T17 30 = Ok 6 /\
  ((fac_s T17 30 = Ok 6 <->
    1 <= 30 /\ (6 - 1) * (6 - 2) < 30 <= 6 * (6 - 1) /\ 2 <= 6 <= MAXP T17) /\
   (30 = 0 -> fac_s T17 30 = Abort)).
Proof.
  split; [vm_compute; reflexivity|].
  apply (fac_s_least T17 30 6). lia.
Defined.

(** X8. [cdiv(a,b)] is the ceiling of a/b for b > 0 and a > -b, as long
    as the sum a+b-1 stays within [int64_t]: the least q with
    a <= q*b. *)
Theorem cdiv_ceiling (a b : Z) :
  0 < b -> - b < a -> a + b - 1 <= INT64_MAX ->
  a <= cdiv a b * b /\ forall q, a <= q * b -> cdiv a b <= q.
Proof.
  intros Hb Ha Hs. unfold INT64_MAX in Hs.
  rewrite cdiv_small by lia.
  rewrite Z.quot_div_nonneg by lia.
  pose proof (Z.mul_div_le (a + b - 1) b Hb).
  pose proof (Z.mul_succ_div_gt (a + b - 1) b Hb).
  split; [nia|]. intros q Hq. nia.
Qed.

Lemma cdiv_ceiling_witness :
  cdiv 7 3 = 3 /\
  7 <= cdiv 7 3 * 3 /\ forall q, 7 <= q * 3 -> cdiv 7 3 <= q.
Proof.
  split; [vm_compute; reflexivity|].
  apply (cdiv_ceiling 7 3); [lia|lia|vm_compute; discriminate].
Defined.

(** ** What a verification that returns has checked *)

Lemma verify_item_checks (T : tables) (N sqrtN t maxp : Z)
    (st st' : list Z * Z * Z * Z * Z) (r : fac_item) :
  verify_item T N sqrtN t maxp st r = Ok st' ->
  it_n r <> 0 /\ it_p r < it_q r <= N /\ t <= it_m r * (it_p r + 1) /\
  (maxp < it_q r ->
   maxp <= it_p r /\
   if it_q r <=? sqrtN
   then N ÷ it_q r + N ÷ (it_q r * it_q r) = it_n r /\
        N ÷ (it_p r + 1) + N ÷ ((it_p r + 1) * (it_p r + 1)) = it_n r
   else N ÷ (it_p r + 1) = it_n r /\ N ÷ it_q r = it_n r).
Proof.
  unfold verify_item. destruct st as [[[[E cnt] lastp] lastpi] nextpi].
  intros H. inv_bind H. inv_bind H.
  apply andb_prop in Ha. destruct Ha as [Ha Hq].
  apply andb_prop in Ha. destruct Ha as [Hn Hp].
  apply negb_true_iff, Z.eqb_neq in Hn.
  apply Z.ltb_lt in Hp. apply Z.leb_le in Hq. apply Z.geb_le in Ha0.
  split; [exact Hn|]. split; [lia|]. split; [lia|]. intros Hbig.
  destruct (Z.leb_spec (it_q r) maxp) as [|_]; [lia|].
  inv_bind H. apply Z.gtb_lt in Ha.
  split; [lia|].
  apply bind_Ok in H. destruct H as (u & Hu & _).
  destruct (it_q r <=? sqrtN).
  - inv_bind Hu. apply assert_Ok in Hu.
    apply Z.eqb_eq in Ha1, Hu. auto.
  - apply assert_Ok in Hu. apply andb_prop in Hu.
    destruct Hu as [H1 H2]. apply Z.eqb_eq in H1, H2. auto.
Qed.

Lemma verify_items_checks (T : tables) (N sqrtN t maxp : Z)
    (L : list fac_item) (r : fac_item) :
  forall st st',
  verify_items T N sqrtN t maxp st L = Ok st' -> In r L ->
  exists st1 st2, verify_item T N sqrtN t maxp st1 r = Ok st2.
Proof.
  induction L as [|x L IH]; intros st st' H Hin; [destruct Hin|].
  simpl in H. apply bind_Ok in H. destruct H as (st1 & Hx & H).
  destruct Hin as [->|Hin]; eauto.
Qed.

(** X9. A verification that returns has checked every record of the
    certificate: its multiplicity n is not 0, its interval of primes is
    p < q <= N, and m*p' >= t for everything p' above p >= 0.  If the
    interval lies above the primes tracked in E (q above P[PI[s-1]]), it
    lies wholly above them and the valuation the record assumes is the
    same at every p' of the interval: N/p' + N/p'^2 = n if q is at most
    the square root of N, N/p' = n otherwise. *)
Theorem verified_records (T : tables) (v : fac) (E : list Z) (c : Z)
    (r : fac_item) :
  fac_verify T v = Ok (E, c) -> In r (fac_L v) -> 0 <= it_p r ->
  it_n r <> 0 /\ it_p r < it_q r <= fac_N v /\
  (forall p', it_p r < p' -> fac_t v <= it_m r * p') /\
  (forall s, fac_s T (fac_t v) = Ok s ->
     (P T).[(PI T).[s - 1]] < it_q r ->
     (P T).[(PI T).[s - 1]] <= it_p r /\
     forall p', it_p r < p' <= it_q r ->
       (if it_q r <=? Z.sqrt (fac_N v)
        then fac_N v / p' + fac_N v / (p' * p')
        else fac_N v / p') = it_n r).
Proof.
  intros H Hin Hp0. unfold fac_verify in H.
  apply bind_Ok in H. destruct H as (s & Hs & H).
  apply bind_Ok in H. destruct H as (E0 & _ & H).
  apply bind_Ok in H. destruct H as (st & Hv & _).
  destruct (verify_items_checks _ _ _ _ _ _ r _ _ Hv Hin)
    as (st1 & st2 & Hr).
  apply verify_item_checks in Hr.
  destruct Hr as (Hn & Hpq & Hm & Hbig).
  pose proof (fac_s_Ok_pos _ _ _ Hs) as Ht.
  split; [exact Hn|]. split; [exact Hpq|]. split.
  { intros p' Hp'. nia. }
  intros s' Hs' Hq. rewrite Hs in Hs'. injection Hs' as <-.
  destruct (Hbig Hq) as [Hle Hval]. split; [exact Hle|].
  intros p' Hp'.
  set (N := fac_N v) in *.
  assert (HN : 1 <= N) by lia.
  assert (Hd1 : N / it_q r <= N / p')
    by (apply Z.div_le_compat_l; lia).
  assert (Hd2 : N / p' <= N / (it_p r + 1))
    by (apply Z.div_le_compat_l; lia).
  rewrite !Z.quot_div_nonneg in Hval by nia.
  destruct (it_q r <=? Z.sqrt N).
  - assert (Hd3 : N / (it_q r * it_q r) <= N / (p' * p'))
      by (apply Z.div_le_compat_l; nia).
    assert (Hd4 : N / (p' * p') <= N / ((it_p r + 1) * (it_p r + 1)))
      by (apply Z.div_le_compat_l; nia).
    lia.
  - lia.
Qed.

Lemma verified_records_witness :
  let v := cert_30_8 in
  let r := mkItem 7 2 [mkpp 1 1; pp0] 4 5 1 in
  fac_verify T17 v = Ok ([0; 10; 7], 31) /\ In r (fac_L v) /\
  it_n r <> 0 /\ it_p r < it_q r <= fac_N v /\
  (forall p', it_p r < p' -> fac_t v <= it_m r * p') /\
  (forall s, fac_s T17 (fac_t v) = Ok s ->
     (P T17).[(PI T17).[s - 1]] < it_q r ->
     (P T17).[(PI T17).[s - 1]] <= it_p r /\
     forall p', it_p r < p' <= it_q r ->
       (if it_q r <=? Z.sqrt (fac_N v)
        then fac_N v / p' + fac_N v / (p' * p')
        else fac_N v / p') = it_n r).
Proof.
  intros v r.
  assert (Hv : fac_verify T17 v = Ok ([0; 10; 7], 31))
    by (vm_compute; reflexivity).
  assert (Hin : In r (fac_L v)) by (vm_compute; left; reflexivity).
  assert (Hp : 0 <= it_p r) by (simpl; lia).
  split; [exact Hv|]. split; [exact Hin|].
  exact (verified_records T17 v _ _ r Hv Hin Hp).
Defined.

(** ** The records of the standard second phase *)

Lemma entries_fend (f : list pp) : entries (fend f) = [].
Proof.
  induction f as [|x f IH]; [reflexivity|]. simpl.
  destruct (pp_pi x =? 0) eqn:E; [|exact IH]. simpl. rewrite E. reflexivity.
Qed.

Lemma total_n_snoc (L : list fac_item) (r : fac_item) :
  total_n (L ++ [r]) = total_n L + it_n r.
Proof.
  unfold total_n. induction L as [|x L IH]; simpl; [lia|].
  rewrite IH. lia.
Qed.

Lemma greedy_records (T : tables) (t : Z) (fuel : nat)
    (s maxpi numm : Z) (Ms E : list Z) (cnt : Z) (v0 : option fac)
    (E' : list Z) (cnt' : Z) (v' : option fac) :
  greedy T t fuel s maxpi numm Ms E cnt v0 = Ok (E', cnt', v') ->
  exists L, Forall bare L /\ total_n L = cnt' - cnt /\
    forall v2, v' = Some v2 ->
    exists v1, v0 = Some v1 /\ fac_L v2 = fac_L v1 ++ L.
Proof.
  intros H. unfold greedy in H.
  apply bind_Ok in H. destruct H as (j0 & _ & H).
  apply (loop_inv
           (fun '(E1, cnt1, v, pcnt, i, j) =>
              exists L, Forall bare L /\ total_n L = cnt1 - cnt /\
                forall v2, v = Some v2 ->
                exists v1, v0 = Some v1 /\ fac_L v2 = fac_L v1 ++ L)
           (fun '(E1, cnt1, v) =>
              exists L, Forall bare L /\ total_n L = cnt1 - cnt /\
                forall v2, v = Some v2 ->
                exists v1, v0 = Some v1 /\ fac_L v2 = fac_L v1 ++ L)) in H.
  - exact H.
  - clear H. intros [[[[[E1 cnt1] v] pcnt] i] j] x Hinv Hb.
    destruct (i =? 0); [injection Hb as <-; exact Hinv|].
    apply bind_Ok in Hb. destruct Hb as (j' & _ & Hb).
    destruct (j' >? numm); [injection Hb as <-; exact Hinv|].
    apply bind_Ok in Hb. destruct Hb as (e & _ & Hb).
    destruct (Z.eqb_spec e 0) as [He0|He0].
    { destruct (pcnt <? 40).
      - apply bind_Ok in Hb. destruct Hb as (q & _ & Hb).
        destruct (q <? t); injection Hb as <-; exact Hinv.
      - injection Hb as <-. exact Hinv. }
    apply bind_Ok in Hb. destruct Hb as (v2 & Hext & Hb).
    apply bind_Ok in Hb. destruct Hb as (i2 & _ & Hb).
    injection Hb as <-.
    destruct Hinv as (L & HL & Hsum & Hv).
    exists (L ++ [mkItem e Ms.[j'] [pp0] ((P T).[i] - 1) (P T).[i] 1]).
    split; [|split].
    + apply Forall_app. split; [exact HL|]. constructor; [|constructor].
      unfold bare. simpl. repeat split; auto; lia.
    + rewrite total_n_snoc. simpl. lia.
    + intros v3 ->. destruct v as [v1|]; simpl in Hext; [|discriminate].
      apply bind_Ok in Hext. destruct Hext as (v4 & Hext & Hv4).
      injection Hv4 as ->.
      destruct (Hv v1 eq_refl) as (v5 & -> & HL1).
      exists v5. split; [reflexivity|].
      unfold fac_extend_mp, fac_extend in Hext.
      inv_bind Hext. inv_bind Hext. injection Hext as <-. simpl.
      rewrite entries_fend, HL1, <- app_assoc. reflexivity.
  - exists []. split; [constructor|]. split; [unfold total_n; simpl; lia|].
    intros v2 ->. exists v2. rewrite app_nil_r. auto.
Qed.

(** X10. In the standard variant every record that the second phase adds
    to the certificate is for one prime (q = p + 1, c = 1), has a nonzero
    multiplicity and holds an empty factorization, whatever its cofactor:
    [f] has been advanced to the terminator before [fac_extend_mp] copies
    from it, so a replay that subtracts x times the stored factorization
    changes nothing.  The multiplicities of these records add up to what
    the second phase added to the count. *)
Theorem standard_records_bare (lm : libm) (T : tables) (N t : Z)
    (fuel : nat) (verify : bool) (cnt : Z) (E : list Z) (q : Z) (v : fac) :
  tfac_run lm T N t fuel false false verify = Ok (cnt, E, q, Some v) ->
  exists s maxm Ms E0 E1 cnt1 v1 L,
    phase1 lm T N t fuel s (PI T).[s - 1] maxm Ms E0
      (Some (fac_alloc N t)) = Ok (E1, cnt1, Some v1) /\
    fac_L v = fac_L v1 ++ L /\ Forall bare L /\
    total_n L = cnt - cnt1 /\
    forall r, In r L -> forall E2 x, fsub E2 x (it_f r) = E2.
Proof.
  intros H. unfold tfac_run in H. cbn [negb] in H. unbind H.
  inversion H; subst; clear H.
  match goal with Hg : bind (greedy _ _ _ _ _ _ _ _ _ _) _ = Ok _ |- _ =>
    unbind Hg; inversion Hg; subst; clear Hg end.
  match goal with Hg : greedy _ _ _ _ _ _ _ _ _ _ = Ok _ |- _ =>
    apply greedy_records in Hg; destruct Hg as (L & HL & Hsum & Hv) end.
  destruct (Hv v eq_refl) as (v1 & -> & HLv).
  destruct verify.
  - do 8 eexists. split; [eassumption|]. split; [exact HLv|].
    split; [exact HL|]. split; [exact Hsum|].
    intros r Hr E2 x. rewrite Forall_forall in HL.
    destruct (HL r Hr) as (-> & _). reflexivity.
  - exfalso.
    match goal with Hp : phase1 _ _ _ _ _ _ _ _ _ _ None = Ok _ |- _ =>
      pose proof Hp as Hn; apply phase1_sim in Hn; [|exact I];
      destruct Hn as [_ Hn]; rewrite Hp in Hn; discriminate Hn
    end.
Qed.

Lemma standard_records_bare_witness :
  exists cnt E q v,
    tfac_run exact_libm T17 30 8 (tfac_fuel 30) false false true
    = Ok (cnt, E, q, Some v) /\
    exists s maxm Ms E0 E1 cnt1 v1 L,
      phase1 exact_libm T17 30 8 (tfac_fuel 30) s (PI T17).[s - 1] maxm Ms
        E0 (Some (fac_alloc 30 8)) = Ok (E1, cnt1, Some v1) /\
      fac_L v = fac_L v1 ++ L /\ Forall bare L /\
      total_n L = cnt - cnt1 /\
      forall r, In r L -> forall E2 x, fsub E2 x (it_f r) = E2.
Proof.
  assert (H : exists cnt E q v,
             tfac_run exact_libm T17 30 8 (tfac_fuel 30) false false true
             = Ok (cnt, E, q, Some v)).
  { vm_compute. do 4 eexists. reflexivity. }
  destruct H as (cnt & E & q & v & H).
  exists cnt, E, q, v. split; [exact H|].
  apply (standard_records_bare exact_libm T17 30 8 (tfac_fuel 30) true
           cnt E q v H).
Defined.

(** ** The records of the fast second phase *)

Lemma entries_all_nz (f : list pp) :
  Forall (fun x => pp_pi x <> 0) (entries f).
Proof.
  induction f as [|x f IH]; simpl; [constructor|].
  destruct (Z.eqb_spec (pp_pi x) 0); [constructor|].
  constructor; assumption.
Qed.

Lemma last_item_snoc (L : list fac_item) (r : fac_item) (N t : Z) :
  last_item (mkFac (L ++ [r]) N t) = r.
Proof. unfold last_item. simpl. apply last_last. Qed.

(** X11. The record that [fac_extend_mp2] appends for the factor
    m * P[i]^2 names the cofactor m * P[i] and the prime P[i], and the
    factorization it stores multiplies out to P[i] times that of f: it is
    the factorization of the cofactor it names when f is that of m.  The
    call stops at an assertion unless f->pi < i <= MAXPI. *)
Theorem extend_mp2_record (T : tables) (v : fac) (n m : Z) (f : list pp)
    (i : Z) (v' : fac) :
  fac_extend_mp2 T v n m f i = Ok v' -> 0 <= fpi f -> MAXPI T < 2 ^ 24 ->
  let r := last_item v' in
  fpi f < i <= MAXPI T /\ fac_L v' = fac_L v ++ [r] /\
  it_n r = n /\ it_m r = m * (P T).[i] /\
  it_p r = (P T).[i] - 1 /\ it_q r = (P T).[i] /\ it_c r = 1 /\
  fac_t v <= it_m r * it_q r /\
  fprod (P T) (it_f r) = (P T).[i] * fprod (P T) f.
Proof.
  intros H Hf Hmax. unfold fac_extend_mp2 in H. inv_bind H.
  apply andb_prop in Ha. destruct Ha as [Hi1 Hi2].
  apply Z.gtb_lt in Hi1. apply Z.leb_le in Hi2.
  cbv zeta in H. inv_bind H.
  assert (Hmk : mk_pp i 1 = mkpp i 1).
  { unfold mk_pp. rewrite !Z.mod_small by lia. reflexivity. }
  assert (He : entries (mk_pp i 1 :: entries f ++ [pp0])
               = mkpp i 1 :: entries f).
  { rewrite Hmk. cbn [entries pp_pi]. destruct (Z.eqb_spec i 0); [lia|].
    rewrite (entries_nz _ []) by apply entries_all_nz. reflexivity. }
  unfold fac_extend_mp, fac_extend in H. rewrite He in H.
  inv_bind H. inv_bind H.
  injection H as <-. apply Z.geb_le in Ha0.
  cbv zeta. rewrite last_item_snoc. cbn [fac_L it_n it_m it_p it_q it_c it_f].
  repeat (split; [first [lia|reflexivity]|]).
  unfold fprod. rewrite <- Hmk, He.
  cbn [pprod pp_pi pp_e]. rewrite Z.pow_1_r. reflexivity.
Qed.

Lemma extend_mp2_record_witness :
  exists v', fac_extend_mp2 T17 (fac_alloc 100 30) 2 4 (FM T17 4) 2 = Ok v' /\
    let r := last_item v' in
    fpi (FM T17 4) < 2 <= MAXPI T17 /\
    fac_L v' = fac_L (fac_alloc 100 30) ++ [r] /\
    it_n r = 2 /\ it_m r = 4 * (P T17).[2] /\
    it_p r = (P T17).[2] - 1 /\ it_q r = (P T17).[2] /\ it_c r = 1 /\
    fac_t (fac_alloc 100 30) <= it_m r * it_q r /\
    fprod (P T17) (it_f r) = (P T17).[2] * fprod (P T17) (FM T17 4).
Proof.
  eexists. split; [vm_compute; reflexivity|].
  apply (extend_mp2_record T17 (fac_alloc 100 30) 2 4 (FM T17 4) 2).
  - vm_compute. reflexivity.
  - vm_compute. discriminate.
  - vm_compute. reflexivity.
Defined.

(** X12. [fac_extend_m] splits the leading prime p off the number q with
    factorization f: the record it appends names the prime p and the
    cofactor q/p, and p times the product of the factorization it stores
    is the product of f.  When f is the factorization of q, the cofactor
    times the prime is q again and the stored factorization is that of the
    cofactor. *)
Theorem extend_m_record (T : tables) (v : fac) (n q : Z) (f : list pp)
    (v' : fac) :
  fac_extend_m T v n q f = Ok v' ->
  1 <= fpi f < 2 ^ 24 -> 1 <= fe f < 2 ^ 8 ->
  let r := last_item v' in
  let p := (P T).[fpi f] in
  fac_L v' = fac_L v ++ [r] /\ it_n r = n /\ it_m r = q ÷ p /\
  it_p r = p - 1 /\ it_q r = p /\ it_c r = 1 /\
  p * fprod (P T) (it_f r) = fprod (P T) f /\
  (fprod (P T) f = q ->
   it_m r * it_q r = q /\ fprod (P T) (it_f r) = it_m r).
Proof.
  intros H Hpi He. destruct f as [|x f]; [simpl in Hpi; lia|].
  cbn [fpi fe] in *. unfold fac_extend_m in H. cbn [fpi fe tl] in H.
  cbv zeta in H. apply bind_Ok in H. destruct H as (m' & Hm' & H).
  unfold divz in Hm'.
  destruct (Z.eqb_spec (P T).[pp_pi x] 0) as [|Hp0]; [discriminate|].
  injection Hm' as <-.
  assert (Hmk : mk_pp (pp_pi x) (pp_e x - 1) = mkpp (pp_pi x) (pp_e x - 1)).
  { unfold mk_pp. rewrite !Z.mod_small by lia. reflexivity. }
  rewrite Hmk in H. cbn [pp_e] in H.
  unfold fac_extend_mp, fac_extend in H. inv_bind H. inv_bind H.
  injection H as <-.
  cbv zeta. rewrite last_item_snoc. cbn [fac_L it_n it_m it_p it_q it_c it_f].
  repeat (split; [first [lia|reflexivity]|]).
  set (p := (P T).[pp_pi x]) in *.
  assert (Hx : fprod (P T) (x :: f) = p ^ pp_e x * fprod (P T) f).
  { unfold fprod. cbn [entries]. destruct (Z.eqb_spec (pp_pi x) 0); [lia|].
    reflexivity. }
  assert (Hprod : p * fprod (P T)
                        (entries (if pp_e x - 1 =? 0 then f
                                  else mkpp (pp_pi x) (pp_e x - 1) :: f)
                         ++ [pp0])
                  = fprod (P T) (x :: f)).
  { rewrite Hx. unfold fprod at 1.
    rewrite (entries_nz _ []) by apply entries_all_nz.
    destruct (Z.eqb_spec (pp_e x - 1) 0) as [He1|He1].
    - replace (pp_e x) with 1 by lia. rewrite Z.pow_1_r. reflexivity.
    - cbn [entries pp_pi]. destruct (Z.eqb_spec (pp_pi x) 0); [lia|].
      cbn [pprod pp_pi pp_e]. fold p.
      replace (pp_e x) with (Z.succ (pp_e x - 1)) at 2 by lia.
      rewrite Z.pow_succ_r by lia. unfold fprod. ring. }
  split; [exact Hprod|].
  intros Hq. rewrite <- Hq, <- Hprod.
  rewrite (Z.mul_comm p), Z.quot_mul by exact Hp0.
  split; [ring|reflexivity].
Qed.

Lemma extend_m_record_witness :
  let f := [mkpp 2 1; mkpp 1 2; pp0] in
  exists v', fac_extend_m T17 (fac_alloc 30 8) 3 12 f = Ok v' /\
    let r := last_item v' in
    let p := (P T17).[fpi f] in
    fac_L v' = fac_L (fac_alloc 30 8) ++ [r] /\ it_n r = 3 /\
    it_m r = 12 ÷ p /\ it_p r = p - 1 /\ it_q r = p /\ it_c r = 1 /\
    p * fprod (P T17) (it_f r) = fprod (P T17) f /\
    (fprod (P T17) f = 12 ->
     it_m r * it_q r = 12 /\ fprod (P T17) (it_f r) = it_m r).
Proof.
  intros f. eexists. split; [vm_compute; reflexivity|].
  apply (extend_m_record T17 (fac_alloc 30 8) 3 12 f).
  - vm_compute. reflexivity.
  - simpl. lia.
  - simpl. lia.
Defined.

(** ** The counter [tfac] *)

Lemma table_primes_PI (T : tables) (maxp maxm : Z) (x : Z) :
  setup maxp maxm = Ok T ->
  forall i, 1 <= i <= (PI T).[x] ->
            Z.prime (P T).[i] /\ (P T).[i] < 2 ^ 31.
Proof.
  intros HT i Hi. pose proof (setup_PI_bound _ _ _ HT x).
  apply (table_primes_small maxp maxm T HT). lia.
Qed.

(** X14. The second phase of the standard variant is paid for.  On
    tables built by [setup], an exact run that returns has gone through
    [fac_s], the valuations E0 of N! and the first phase on them, with
    the cofactors Ms of the standard variant and the certificate that
    verify asks for; after the first phase it has counted cnt - cnt1
    factors, and t to that power times the residue q is at most the
    product P^E1 that the first phase left; q is the product of what
    remains, no valuation is negative, and q is 1 or below t. *)
Theorem standard_run_accounts (lm : libm) (T : tables) (maxp maxm N t : Z)
    (fuel : nat) (verify : bool) (cnt : Z) (E : list Z) (q : Z)
    (v : option fac) :
  setup maxp maxm = Ok T ->
  tfac_run lm T N t fuel false false verify = Ok (cnt, E, q, v) ->
  exists s E0 E1 cnt1 v1,
    fac_s T t = Ok s /\
    valuations T N (PI T).[s - 1] = Ok E0 /\
    phase1 lm T N t fuel s (PI T).[s - 1]
      (build_Ms T t false s (PI T).[s - 1] (t - 1)).[
         Z.of_nat (length (build_Ms T t false s (PI T).[s - 1] (t - 1))) - 1]
      (build_Ms T t false s (PI T).[s - 1] (t - 1)) E0
      (if verify then Some (fac_alloc N t) else None)
    = Ok (E1, cnt1, v1) /\
    nonneg_upto E1 (PI T).[s - 1] /\ nonneg_upto E (PI T).[s - 1] /\
    cnt1 <= cnt /\ q = eprod (P T) E (PI T).[s - 1] /\ (q = 1 \/ q < t) /\
    t ^ (cnt - cnt1) * q <= eprod (P T) E1 (PI T).[s - 1].
Proof.
  intros HT H.
  destruct (tfac_run_residue_standard _ _ _ _ _ _ _ _ _ _ H)
    as (s & Hs & HE & Hq & Hqt).
  unfold tfac_run in H. cbn [negb] in H. unbind H.
  inversion H; subst; clear H.
  match goal with Hg : bind (greedy _ _ _ _ _ _ _ _ _ _) _ = Ok _ |- _ =>
    unbind Hg; inversion Hg; subst; clear Hg end.
  match goal with Hs' : fac_s T t = Ok ?s' |- _ =>
    rewrite Hs in Hs'; injection Hs' as <- end.
  apply assert_Ok in Ha, Ha3, Ha4.
  apply Z.leb_le in Ha3, Ha4.
  pose proof (fac_s_Ok_pos _ _ _ Hs) as Ht.
  pose proof Hs as Hs2. rewrite fac_s_spec in Hs2 by exact Ht.
  destruct (Z.leb_spec (s_of t) (MAXP T)) as [Hle|Hle]; [|discriminate].
  injection Hs2 as Hs2. pose proof (s_of_spec t Ht) as [_ Hs0].
  pose proof (setup_PI_bound _ _ _ HT (s - 1)) as HPI.
  match goal with Hp : phase1 _ _ _ _ _ _ _ _ _ _ _ = Ok (?E1, ?c1, _) |- _ =>
    assert (HE1 : nonneg_upto E1 (PI T).[s - 1]);
      [pose proof Hp as Hp'; unfold phase1 in Hp'; unbind Hp';
       inversion Hp'; subst; clear Hp';
       match goal with Hn : assert (all_nonneg _ _) = Ok _ |- _ =>
         apply assert_Ok in Hn; intros i Hi;
         apply (all_nonneg_spec _ _ Hn); exact Hi end|]
  end.
  match goal with Hg : greedy _ _ _ _ _ _ _ _ _ _ = Ok _ |- _ =>
    apply (greedy_removed T maxp maxm HT t _ _ _ (t - 1) _ l _ _ _ 0)
      in Hg; auto; try lia end.
  2:{ split; [lia|]. split; [exact HE1|]. rewrite Z.pow_0_r. lia. }
  match goal with Hr : removed _ _ _ _ _ _ |- _ =>
    destruct Hr as (Hd & _ & Hrem) end.
  do 5 eexists. split; [exact Hs|]. split; [eassumption|].
  split; [eassumption|].
  split; [exact HE1|]. split; [exact HE|]. split; [lia|].
  split; [reflexivity|]. split; [exact Hqt|].
  match type of Hrem with t ^ (0 + ?d) * _ <= _ =>
    replace (0 + d) with d in Hrem by lia end.
  exact Hrem.
Qed.

Lemma standard_run_accounts_witness :
  exists cnt E q v,
    tfac_run exact_libm T17 100 30 (tfac_fuel 100) false false false
    = Ok (cnt, E, q, v) /\
    exists s E0 E1 cnt1 v1,
      fac_s T17 30 = Ok s /\
      valuations T17 100 (PI T17).[s - 1] = Ok E0 /\
      phase1 exact_libm T17 100 30 (tfac_fuel 100) s (PI T17).[s - 1]
        (build_Ms T17 30 false s (PI T17).[s - 1] (30 - 1)).[
           Z.of_nat (length (build_Ms T17 30 false s (PI T17).[s - 1]
                               (30 - 1))) - 1]
        (build_Ms T17 30 false s (PI T17).[s - 1] (30 - 1)) E0
        (if false then Some (fac_alloc 100 30) else None)
      = Ok (E1, cnt1, v1) /\
      nonneg_upto E1 (PI T17).[s - 1] /\ nonneg_upto E (PI T17).[s - 1] /\
      cnt1 <= cnt /\ q = eprod (P T17) E (PI T17).[s - 1] /\
      (q = 1 \/ q < 30) /\
      30 ^ (cnt - cnt1) * q <= eprod (P T17) E1 (PI T17).[s - 1].
Proof.
  assert (H : exists cnt E q v,
             tfac_run exact_libm T17 100 30 (tfac_fuel 100) false false false
             = Ok (cnt, E, q, v)).
  { vm_compute. do 4 eexists. reflexivity. }
  destruct H as (cnt & E & q & v & H).
  exists cnt, E, q, v. split; [exact H|].
  apply (standard_run_accounts exact_libm T17 17 201 100 30 (tfac_fuel 100)
           false cnt E q v);
    [vm_compute; reflexivity|exact H].
Defined.

(** X15. [tfac] returns no count when t is at most the integer square
    root of N: the crossover point mid is then 0 and (t-1)/mid divides by
    zero.  The assertion at the head of [tfac] lets two such calls through,
    N = 10 and N = 11 with t = 3. *)
Theorem tfac_small_target (lm : libm) (T : tables) (N t : Z)
    (fast feasible verify : bool) (c : Z) :
  t <= Z.sqrt N -> 0 <= pow_mcutoff lm t ->
  tfac lm T N t fast feasible verify <> Ok c.
Proof.
  intros Hts Hpm H. unfold tfac in H.
  apply bind_Ok in H. destruct H as ([[[cnt E] q] v] & H & _).
  unfold tfac_run in H. unbind H.
  match goal with Hs : fac_s T t = Ok _ |- _ =>
    pose proof (fac_s_Ok_pos _ _ _ Hs) as Ht end.
  match goal with Hp : phase1 _ _ _ _ _ _ _ _ _ _ _ = Ok _ |- _ =>
    unfold phase1 in Hp; apply bind_Ok in Hp; destruct Hp as (m & _ & Hp);
    apply bind_Ok in Hp; destruct Hp as (u & _ & Hp);
    apply bind_Ok in Hp; destruct Hp as (d & Hd & Hp);
    cbv zeta in Hp; apply bind_Ok in Hp; destruct Hp as (pl & Hpl & _)
  end.
  unfold divz in Hd. destruct (Z.eqb_spec (Z.sqrt N) 0); [discriminate|].
  injection Hd as <-.
  assert (Hd0 : (t - 1) ÷ Z.sqrt N = 0).
  { rewrite Z.quot_div_nonneg by lia. apply Z.div_small. lia. }
  rewrite Hd0 in Hpl. rewrite min_spec in Hpl.
  replace (Z.min (pow_mcutoff lm t) 0) with 0 in Hpl by lia.
  rewrite Z.mul_0_r in Hpl.
  destruct (Z.geb_spec 0 t); [lia|]. discriminate Hpl.
Qed.

Lemma tfac_small_target_witness :
  tfac exact_libm T17 10 3 false false false <> Ok 9.
Proof.
  apply (tfac_small_target exact_libm T17 10 3 false false false 9).
  - vm_compute. discriminate.
  - vm_compute. discriminate.
Defined.

Lemma phase1_same (lm : libm) (T : tables) (N t : Z) (fuel : nat)
    (s maxpi maxm maxm' : Z) (Ms Ms' E : list Z) (v : option fac)
    (r r' : list Z * Z * option fac) :
  phase1 lm T N t fuel s maxpi maxm Ms E v = Ok r ->
  phase1 lm T N t fuel s maxpi maxm' Ms' E v = Ok r' ->
  r = r'.
Proof.
  unfold phase1. intros H H'.
  apply bind_Ok in H. destruct H as (m & Hm & H).
  apply bind_Ok in H'. destruct H' as (m' & Hm' & H').
  rewrite Hm in Hm'. injection Hm' as <-.
  apply bind_Ok in H. destruct H as (u & _ & H).
  apply bind_Ok in H'. destruct H' as (u' & _ & H').
  rewrite H in H'. injection H' as <-. reflexivity.
Qed.

(** X16. The feasibility count does not depend on the variant: the two
    variants share the first phase, and in feasibility mode [tfac]
    returns after it, so a call with the fast flag and a call without it
    return the same value when both return. *)
Theorem feasible_same_variants (lm : libm) (T : tables) (N t : Z)
    (v1 v2 : bool) (c1 c2 : Z) :
  tfac lm T N t true true v1 = Ok c1 ->
  tfac lm T N t false true v2 = Ok c2 ->
  c1 = c2.
Proof.
  intros H1 H2.
  assert (H1' : tfac lm T N t true true false = Ok c1)
    by (destruct v1; [apply tfac_erase|]; exact H1).
  assert (H2' : tfac lm T N t false true false = Ok c2)
    by (destruct v2; [apply tfac_erase|]; exact H2).
  clear H1 H2. unfold tfac in *.
  apply bind_Ok in H1'. destruct H1' as ([[[k1 E1] q1] w1] & H1 & Hc1).
  apply bind_Ok in H2'. destruct H2' as ([[[k2 E2] q2] w2] & H2 & Hc2).
  injection Hc1 as <-. injection Hc2 as <-.
  unfold tfac_run in H1, H2. cbn [negb] in H1, H2.
  unbind H1. unbind H2.
  inversion H1; subst; clear H1. inversion H2; subst; clear H2.
  repeat match goal with
         | Ha : fac_s T t = Ok ?x, Hb : fac_s T t = Ok ?y |- _ =>
             rewrite Ha in Hb; injection Hb as <-
         | Ha : valuations T N ?m = Ok ?x, Hb : valuations T N ?m = Ok ?y
           |- _ => rewrite Ha in Hb; injection Hb as <-
         end.
  match goal with
  | Ha : phase1 _ _ _ _ _ _ _ _ _ _ _ = Ok _,
    Hb : phase1 _ _ _ _ _ _ _ _ _ _ _ = Ok _ |- _ =>
      pose proof (phase1_same _ _ _ _ _ _ _ _ _ _ _ _ _ _ _ Ha Hb) as Heq;
      injection Heq as <- <- <-
  end.
  reflexivity.
Qed.

Lemma feasible_same_variants_witness :
  exists c1 c2,
    tfac exact_libm T17 40 11 true true false = Ok c1 /\
    tfac exact_libm T17 40 11 false true false = Ok c2 /\ c1 = c2.
Proof.
  assert (H1 : exists c, tfac exact_libm T17 40 11 true true false = Ok c)
    by (vm_compute; eexists; reflexivity).
  assert (H2 : exists c, tfac exact_libm T17 40 11 false true false = Ok c)
    by (vm_compute; eexists; reflexivity).
  destruct H1 as [c1 H1]. destruct H2 as [c2 H2].
  exists c1, c2. split; [exact H1|]. split; [exact H2|].
  apply (feasible_same_variants exact_libm T17 40 11 false false c1 c2);
    [exact H1|exact H2].
Defined.

(** X27. The certificate does not feed back into the count: when the
    call of [tfac] that builds and verifies a certificate returns c, the
    call with the same N, t, variant and mode that builds none returns c
    too. *)
Theorem count_without_certificate (lm : libm) (T : tables) (N t : Z)
    (fast feasible : bool) (c : Z) :
  tfac lm T N t fast feasible true = Ok c ->
  tfac lm T N t fast feasible false = Ok c.
Proof. apply tfac_erase. Qed.

Lemma count_without_certificate_witness :
  tfac exact_libm T17 30 8 true false true = Ok 31 /\
  tfac exact_libm T17 30 8 true false false = Ok 31.
Proof.
  assert (H : tfac exact_libm T17 30 8 true false true = Ok 31)
    by (vm_compute; reflexivity).
  split; [exact H|].
  apply (count_without_certificate exact_libm T17 30 8 true false 31 H).
Defined.

(** ** The search [tbound] in both modes *)

Section TboundModes.
Variable lm : libm.
Variable T : tables.
Variables (N : Z) (fast verify : bool).

Local Abbreviation goodv := (good_t lm T N fast verify).
Local Abbreviation badv := (bad_t lm T N fast verify).
Local Abbreviation good0 := (good_t lm T N fast false).
Local Abbreviation bad0 := (bad_t lm T N fast false).

(** A target at which the feasibility count stays below N. *)
Local Abbreviation refuted :=
  (fun x => exists c, tfac lm T N x fast true false = Ok c /\ c < N).

Lemma good_erase (x : Z) : goodv x -> good0 x.
Proof.
  intros (c & Hc & Hn). exists c. split; [|exact Hn]. unfold count in *.
  destruct verify; [apply tfac_erase|]; exact Hc.
Qed.

Lemma bad_erase (x : Z) : badv x -> bad0 x.
Proof.
  intros (c & Hc & Hn). exists c. split; [|exact Hn]. unfold count in *.
  destruct verify; [apply tfac_erase|]; exact Hc.
Qed.

(** The part of [tbound] that follows the bisection in exhaustive mode. *)
Local Abbreviation exhaustive_rest :=
  (fun tmin : Z =>
     cnt <- tfac lm T N ((2 * N) ÷ 5) fast true false ;;
     _ <- assert (cnt <? N) ;;
     tmax <- upper lm T N fast
               (Z.to_nat ((2 * N) ÷ 5 - tmin) + 1) tmin ((2 * N) ÷ 5)
               (tmin + 1) ;;
     _ <- assert (tmax >? tmin) ;;
     tmin' <- exhaust lm T N fast
                (zrange (tmin + 1) (Z.to_nat (tmax - tmin - 1))) tmin ;;
     _ <- (if verify then _ <- tfac lm T N tmin' fast false verify ;; Ok tt
           else Ok tt) ;;
     Ok tmin').

Lemma tbound_exhaustive_unfold (a b : Z) :
  tbound lm T N fast verify a b true
  = bind (tbound lm T N fast verify a b false) exhaustive_rest.
Proof.
  unfold tbound.
  destruct (assert _) as [u| |]; cbn [bind]; try reflexivity.
  destruct (cdivz (wrap64 (a * N)) b) as [t0| |]; cbn [bind];
    try reflexivity.
  destruct (count lm T N fast verify t0) as [c0| |] eqn:E0; cbn [bind];
    try reflexivity.
  destruct (descend lm T N fast verify (Z.to_nat t0 + 1) t0 c0)
    as [[t1 c1]| |] eqn:Ed; cbn [bind]; try reflexivity.
  destruct (bisect lm T N fast verify _ t1 _ t1 c1)
    as [[tmn tmx]| |] eqn:Eb; cbn [bind]; try reflexivity.
  destruct (Z.ltb_spec tmx ((2 * N) ÷ 5)) as [Hlt|Hge]; cbn [assert bind];
    [|reflexivity].
  cbn [negb].
  destruct (descend_spec _ _ _ _ _ _ _ _ _ _ E0 Ed) as (Hc1 & Hn1 & _).
  apply (bisect_spec lm T N fast verify ((2 * N) ÷ 5)) in Eb;
    auto; try lia.
  - destruct Eb as (_ & [Heq|[_ Hlt']] & Hw); [lia|].
    replace tmx with (tmn + 1) by lia. reflexivity.
  - exists c1. split; auto.
Qed.

Lemma upper_spec (fuel : nat) :
  forall low high tmax0 tmax,
  0 <= low ->
  upper lm T N fast fuel low high tmax0 = Ok tmax ->
  tmax = tmax0 \/ (low < tmax <= high /\ refuted tmax).
Proof.
  induction fuel as [|k IH]; intros low high tmax0 tmax Hlow H;
    simpl in H; [discriminate|].
  destruct (Z.ltb_spec low (high - 1)) as [Hw|Hw].
  - apply bind_Ok in H. destruct H as (c & Hc & H).
    assert (Hmid : low < (low + high) ÷ 2 < high).
    { rewrite Z.quot_div_nonneg by lia. zlia. }
    destruct (Z.ltb_spec c N) as [Hlt|Hge].
    + apply IH in H; [|lia]. right.
      destruct H as [->|[Hr1 Hr2]].
      * split; [lia|]. exists c. split; auto.
      * split; [lia|exact Hr2].
    + apply IH in H; [|lia].
      destruct H as [->|[Hr1 Hr2]]; [left; reflexivity|].
      right. split; [lia|exact Hr2].
  - injection H as <-. left. reflexivity.
Qed.

Lemma exhaust_spec (ts : list Z) :
  forall r0 r,
  exhaust lm T N fast ts r0 = Ok r ->
  r0 <= r /\ (r = r0 \/ (In r ts /\ good0 r)) /\
  forall x, In x ts -> r < x -> bad0 x.
Proof.
  induction ts as [|x ts IH]; intros r0 r H; simpl in H.
  - injection H as <-. split; [lia|]. split; [left; reflexivity|].
    intros x Hx. destruct Hx.
  - apply bind_Ok in H. destruct H as (c & Hc & H).
    apply IH in H. destruct H as (Hle & Hr & Hbad).
    destruct (Z.geb_spec c N) as [Hge|Hlt].
    + rewrite max_spec in *. split; [lia|]. split.
      * destruct Hr as [Hr|[Hin Hg]]; [|right; split; [right|]; assumption].
        destruct (Z.max_spec r0 x) as [[_ Hm]|[_ Hm]]; rewrite Hm in Hr.
        -- right. split; [left; congruence|]. exists c. subst r.
           split; [exact Hc|lia].
        -- left. exact Hr.
      * intros y [<-|Hy] Hlt; [lia|]. apply Hbad; assumption.
    + split; [lia|]. split.
      * destruct Hr as [Hr|[Hin Hg]]; [left; exact Hr|].
        right. split; [right|]; assumption.
      * intros y [<-|Hy] Hry; [|apply Hbad; assumption].
        exists c. split; [exact Hc|exact Hlt].
Qed.

Lemma tbound_exhaustive_spec (a b r : Z) :
  tbound lm T N fast verify a b true = Ok r ->
  exists tmin tmax,
    tbound lm T N fast verify a b false = Ok tmin /\
    tmin <= r < tmax /\ tmax <= (2 * N) ÷ 5 /\
    (r = tmin \/ good0 r) /\
    (tmax = tmin + 1 \/ refuted tmax) /\
    forall x, r < x < tmax -> bad0 x.
Proof.
  intros H. rewrite tbound_exhaustive_unfold in H.
  apply bind_Ok in H. destruct H as (tmin & Ht & H).
  pose proof (tbound_spec _ _ _ _ _ _ _ _ Ht) as [Hg Hb].
  assert (Hpos : 3 <= tmin).
  { destruct Hg as (c & Hc & _). apply tfac_Ok_pre in Hc. lia. }
  assert (Hhi : tmin + 1 < (2 * N) ÷ 5).
  { unfold tbound in Ht. unbind Ht.
    match goal with Ha : assert (_ <? (2 * N) ÷ 5) = Ok _ |- _ =>
      apply assert_Ok, Z.ltb_lt in Ha end.
    match goal with Hbs : bisect _ _ _ _ _ _ _ _ _ _ = Ok _ |- _ =>
      rename Hbs into Eb end.
    cbn [negb] in Ht. injection Ht as <-.
    match goal with
    | Hd : descend _ _ _ _ _ _ _ _ = Ok _, Hc : count _ _ _ _ _ _ = Ok _
      |- _ =>
        destruct (descend_spec _ _ _ _ _ _ _ _ _ _ Hc Hd) as (Hc1 & Hn1 & _)
    end.
    apply (bisect_spec lm T N fast verify ((2 * N) ÷ 5)) in Eb;
      auto; try lia.
    eexists. split; eauto. }
  unbind H. injection H as <-.
  match goal with Hu : upper _ _ _ _ _ _ _ _ = Ok ?tm |- _ =>
    rename tm into tmax; apply upper_spec in Hu; [|lia];
    rename Hu into Hup
  end.
  match goal with Hx : exhaust _ _ _ _ _ _ = Ok _ |- _ =>
    apply exhaust_spec in Hx; destruct Hx as (Hle & Hr & Hbad) end.
  match goal with Ha : assert (_ >? tmin) = Ok _ |- _ =>
    apply assert_Ok, Z.gtb_lt in Ha; rename Ha into Hgt end.
  exists tmin, tmax. split; [exact Ht|].
  assert (Hrt : forall x,
            In x (zrange (tmin + 1) (Z.to_nat (tmax - tmin - 1)))
            <-> tmin < x < tmax).
  { intros x. rewrite zrange_In. lia. }
  split; [|split; [|split; [|split]]].
  - split; [exact Hle|].
    destruct Hr as [->|[Hin _]]; [lia|]. apply Hrt in Hin. lia.
  - destruct Hup as [->|[Hr1 _]]; lia.
  - destruct Hr as [Hr|[_ Hg0]]; [left; exact Hr|right; exact Hg0].
  - destruct Hup as [Hu|[_ Hu]]; [left; exact Hu|right; exact Hu].
  - intros x Hx. apply Hbad; [apply Hrt|]; lia.
Qed.

(** The loops of the exhaustive mode are not cut short by their fuel. *)
Hypothesis tfac_runs : forall x fe ve, tfac lm T N x fast fe ve <> Fuel.

Lemma upper_runs (fuel : nat) :
  forall low high tmax,
  0 <= low -> (Z.to_nat (high - low) < fuel)%nat ->
  upper lm T N fast fuel low high tmax <> Fuel.
Proof.
  induction fuel as [|k IH]; intros low high tmax Hlow Hf; [lia|]. simpl.
  destruct (Z.ltb_spec low (high - 1)) as [Hw|Hw]; [|discriminate].
  assert (Hmid : low < (low + high) ÷ 2 < high).
  { rewrite Z.quot_div_nonneg by lia. zlia. }
  destruct (tfac lm T N ((low + high) ÷ 2) fast true false) as [c| |] eqn:E;
    cbn [bind]; [|discriminate|exfalso; exact (tfac_runs _ _ _ E)].
  destruct (c <? N); apply IH; lia.
Qed.

Lemma exhaust_runs (ts : list Z) :
  forall r0, exhaust lm T N fast ts r0 <> Fuel.
Proof.
  induction ts as [|x ts IH]; intros r0; simpl; [discriminate|].
  destruct (tfac lm T N x fast false false) as [c| |] eqn:E;
    cbn [bind]; [apply IH|discriminate|exfalso; exact (tfac_runs _ _ _ E)].
Qed.

Lemma tbound_runs_both (a b : Z) (ex : bool) :
  tbound lm T N fast verify a b ex <> Fuel.
Proof.
  assert (Hh : tbound lm T N fast verify a b false <> Fuel).
  { apply tbound_runs. intros x. apply tfac_runs. }
  destruct ex; [|exact Hh].
  rewrite tbound_exhaustive_unfold.
  destruct (tbound lm T N fast verify a b false) as [tmin| |] eqn:Et;
    cbn [bind]; [|discriminate|contradiction].
  pose proof (tbound_spec _ _ _ _ _ _ _ _ Et) as [(c & Hc & _) _].
  apply tfac_Ok_pre in Hc.
  destruct (tfac lm T N ((2 * N) ÷ 5) fast true false) as [c0| |] eqn:E0;
    cbn [bind]; [|discriminate|exfalso; exact (tfac_runs _ _ _ E0)].
  unfold assert. destruct (c0 <? N); cbn [bind]; [|discriminate].
  destruct (upper lm T N fast _ tmin ((2 * N) ÷ 5) (tmin + 1))
    as [tmax| |] eqn:Eu; cbn [bind];
    [|discriminate|exfalso; revert Eu; apply upper_runs; lia].
  destruct (tmax >? tmin); cbn [bind]; [|discriminate].
  destruct (exhaust lm T N fast _ tmin) as [r| |] eqn:Ex; cbn [bind];
    [|discriminate|exfalso; revert Ex; apply exhaust_runs].
  destruct verify; cbn [bind]; [|discriminate].
  destruct (tfac lm T N r fast false true) as [c1| |] eqn:E1;
    cbn [bind]; [discriminate|discriminate|
                 exfalso; exact (tfac_runs _ _ _ E1)].
Qed.

End TboundModes.

Lemma tfac_range_abort (lm : libm) (T : tables) (N t : Z)
    (fast feasible verify : bool) :
  ~ (10 <= N < MAXN /\ N < 4 * t /\ 2 * t < N) ->
  tfac lm T N t fast feasible verify = Abort.
Proof.
  intros H. unfold tfac, tfac_run.
  destruct (Z.geb_spec N 10), (Z.ltb_spec N MAXN), (Z.gtb_spec (4 * t) N),
    (Z.ltb_spec (2 * t) N); try reflexivity.
  exfalso. apply H. lia.
Qed.

(** X17. A value that [tbound] returns, in either mode, is never 0: it is
    a target t with N/4 < t < 2N/5 at which the exact count reaches N.
    A search that finds no such t stops at an assertion instead of
    returning. *)
Theorem tbound_result (lm : libm) (T : tables) (N : Z) (fast verify : bool)
    (a b : Z) (ex : bool) (r : Z) :
  tbound lm T N fast verify a b ex = Ok r ->
  r <> 0 /\ 10 <= N /\ N < 4 * r /\ r < (2 * N) ÷ 5 /\
  good_t lm T N fast false r.
Proof.
  intros H.
  assert (Hex : exists tmin tmax,
             tbound lm T N fast verify a b false = Ok tmin /\
             tmin <= r < tmax /\ tmax <= (2 * N) ÷ 5 /\
             (r = tmin \/ good_t lm T N fast false r)).
  { destruct ex.
    - apply tbound_exhaustive_spec in H.
      destruct H as (tmin & tmax & H1 & H2 & H3 & H4 & _).
      exists tmin, tmax. auto.
    - exists r, (r + 1). split; [exact H|]. split; [lia|]. split; [|auto].
      unfold tbound in H. unbind H.
      match goal with Ha : assert (_ <? (2 * N) ÷ 5) = Ok _ |- _ =>
        apply assert_Ok, Z.ltb_lt in Ha; rename Ha into Hlt end.
      cbn [negb] in H. injection H as <-.
      match goal with
      | Hd : descend _ _ _ _ _ _ _ _ = Ok _, Hc : count _ _ _ _ _ _ = Ok _,
        Eb : bisect _ _ _ _ _ _ _ _ _ _ = Ok _ |- _ =>
          destruct (descend_spec _ _ _ _ _ _ _ _ _ _ Hc Hd)
            as (Hc1 & Hn1 & _);
          apply (bisect_spec lm T N fast verify ((2 * N) ÷ 5)) in Eb;
            auto; try lia
      end.
      eexists. split; eauto. }
  destruct Hex as (tmin & tmax & Ht & Hr & Hmax & Hg).
  pose proof (tbound_spec _ _ _ _ _ _ _ _ Ht) as [Hgood _].
  apply good_erase in Hgood.
  assert (Hg0 : good_t lm T N fast false r)
    by (destruct Hg as [->|Hg]; assumption).
  destruct Hg0 as (c & Hc & Hn). pose proof (tfac_Ok_pre _ _ _ _ _ _ _ _ Hc).
  repeat split; try lia. exists c. split; assumption.
Qed.

Lemma tbound_result_witness :
  tbound exact_libm T17 40 false false 1 3 false = Ok 12 /\
  tbound exact_libm T17 40 true false 1 3 false = Abort /\
  12 <> 0 /\ 10 <= 40 /\ 40 < 4 * 12 /\ 12 < (2 * 40) ÷ 5 /\
  good_t exact_libm T17 40 false false 12.
Proof.
  split; [vm_compute; reflexivity|]. split; [vm_compute; reflexivity|].
  apply (tbound_result exact_libm T17 40 false false 1 3 false 12).
  vm_compute. reflexivity.
Defined.

(** X18. In exhaustive mode [tbound] returns the largest target below
    tmax at which the exact count reaches N: the value r it returns is at
    least the value tmin of the heuristic search, the exact count at r is
    at least N, the exact count is below N at every t with r < t < tmax,
    and tmax <= 2N/5 is a target that the feasibility count refutes, or
    tmin + 1. *)
Theorem tbound_exhaustive (lm : libm) (T : tables) (N : Z)
    (fast verify : bool) (a b r : Z) :
  tbound lm T N fast verify a b true = Ok r ->
  exists tmin tmax,
    tbound lm T N fast verify a b false = Ok tmin /\
    tmin <= r < tmax /\ tmax <= (2 * N) ÷ 5 /\
    good_t lm T N fast false r /\
    (tmax = tmin + 1 \/
     exists c, tfac lm T N tmax fast true false = Ok c /\ c < N) /\
    forall x, r < x < tmax -> bad_t lm T N fast false x.
Proof.
  intros H. apply tbound_exhaustive_spec in H.
  destruct H as (tmin & tmax & Ht & Hr & Hmax & Hg & Hu & Hbad).
  exists tmin, tmax. split; [exact Ht|]. split; [exact Hr|].
  split; [exact Hmax|]. split; [|split; [exact Hu|exact Hbad]].
  destruct Hg as [->|Hg]; [|exact Hg].
  apply tbound_spec in Ht. destruct Ht as [Hgood _].
  apply good_erase in Hgood. exact Hgood.
Qed.

Lemma tbound_exhaustive_witness :
  exists tmin tmax,
    tbound exact_libm T17 80 true false 1 3 false = Ok tmin /\
    tmin <= 21 < tmax /\ tmax <= (2 * 80) ÷ 5 /\
    good_t exact_libm T17 80 true false 21 /\
    (tmax = tmin + 1 \/
     exists c, tfac exact_libm T17 80 tmax true true false = Ok c /\ c < 80)
    /\ forall x, 21 < x < tmax -> bad_t exact_libm T17 80 true false x.
Proof.
  apply (tbound_exhaustive exact_libm T17 80 true false 1 3 21).
  vm_compute. reflexivity.
Defined.

(** X19. At the lowest ratio that [tbound] accepts, b = 4a, the search
    stops at the assertion of [tfac] for every N that 4 divides: the first
    target is N/4, and [tfac] requires 4t > N. *)
Theorem tbound_quarter (lm : libm) (T : tables) (N : Z)
    (fast verify : bool) (a : Z) (ex : bool) :
  0 < a -> N mod 4 = 0 ->
  tbound lm T N fast verify a (4 * a) ex = Abort.
Proof.
  intros Ha Hmod. unfold tbound, assert.
  destruct (_ && _)%bool; cbn [bind]; [|reflexivity].
  unfold cdivz, divz.
  destruct (Z.eqb_spec (4 * a) 0); [lia|]. cbn [bind].
  unfold count. rewrite tfac_range_abort; [reflexivity|].
  intros (HN & H4 & _).
  assert (Hq : N = 4 * (N / 4))
    by (pose proof (Z.div_mod N 4 ltac:(lia)); lia).
  assert (Hd : (a * N + 4 * a - 1) / (4 * a) = N / 4).
  { symmetry. apply Z.div_unique with (r := 4 * a - 1); [lia|].
    rewrite Hq at 1. ring. }
  pose proof (wrap64_range (a * N)) as Hr1.
  pose proof (wrap64_le (a * N) ltac:(nia)) as Hw1.
  pose proof (wrap64_le (wrap64 (a * N) + 4 * a - 1) ltac:(lia)) as Hw2.
  set (v := wrap64 (wrap64 (a * N) + 4 * a - 1)) in *.
  destruct (Z.le_gt_cases 0 v) as [Hv|Hv].
  - rewrite Z.quot_div_nonneg in H4 by lia.
    assert (v / (4 * a) <= (a * N + 4 * a - 1) / (4 * a))
      by (apply Z.div_le_mono; lia).
    lia.
  - assert (v ÷ (4 * a) <= 0).
    { rewrite <- (Z.opp_involutive v), Z.quot_opp_l by lia.
      pose proof (Z.quot_pos (- v) (4 * a) ltac:(lia) ltac:(lia)). lia. }
    lia.
Qed.

Lemma tbound_quarter_witness :
  tbound exact_libm T17 40 false false 1 (4 * 1) false = Abort.
Proof. apply (tbound_quarter exact_libm T17 40 false false 1 false); [lia|reflexivity]. Defined.

(** X20. [tbound] ends in both modes when the calls of [tfac] it makes
    end: the descent, the bisection, the binary search for the upper
    bound and the exhaustive pass all stop, so the search returns or
    stops at an assertion. *)
Theorem tbound_ends (lm : libm) (T : tables) (N : Z) (fast verify : bool)
    (a b : Z) (ex : bool) :
  (forall x fe ve, tfac lm T N x fast fe ve <> Fuel) ->
  tbound lm T N fast verify a b ex = Abort \/
  exists r, tbound lm T N fast verify a b ex = Ok r.
Proof.
  intros Hruns.
  pose proof (tbound_runs_both lm T N fast verify Hruns a b ex) as H.
  destruct (tbound lm T N fast verify a b ex) as [r| |];
    [right; eauto|left; reflexivity|contradiction].
Qed.

Lemma tbound_ends_witness :
  tbound exact_libm T17 15 false false 1 3 true = Abort \/
  exists r, tbound exact_libm T17 15 false false 1 3 true = Ok r.
Proof.
  apply (tbound_ends exact_libm T17 15 false false 1 3 true).
  intros x fe ve.
  assert (Hx : x = 4 \/ x = 5 \/ x = 6 \/ x = 7 \/
               ~ (10 <= 15 < MAXN /\ 15 < 4 * x /\ 2 * x < 15)) by lia.
  destruct Hx as [->|[->|[->|[->|Hx]]]];
    [destruct fe, ve; vm_compute; discriminate ..|].
  rewrite tfac_range_abort by exact Hx. discriminate.
Defined.

(** ** [main]: the sizes of the tables *)

Lemma s_of_mono (t t' : Z) : 1 <= t <= t' -> s_of t <= s_of t'.
Proof.
  intros Ht.
  destruct (s_of_spec t ltac:(lia)) as [H1 H2].
  destruct (s_of_spec t' ltac:(lia)) as [H3 H4].
  destruct (Z.le_gt_cases (s_of t) (s_of t')) as [|Hgt]; [assumption|].
  exfalso.
  assert (s_of t' * (s_of t' - 1) <= (s_of t - 1) * (s_of t - 2)) by nia.
  lia.
Qed.

Lemma sint32_small (z : Z) : 0 <= z < 2 ^ 31 -> sint32 z = z.
Proof.
  intros H. unfold sint32. rewrite Z.mod_small by lia. lia.
Qed.

Lemma main_setup_Ok (lm : libm) (fast : bool) (minN maxN t0 : Z)
    (T : tables) :
  main_setup lm fast minN maxN t0 = Ok (Some T) ->
  1 <= 2 * maxN ÷ 5 ->
  14 <= minN /\ maxN <= MAXN /\
  setup (s_of (2 * maxN ÷ 5))
        (if fast then pow_0625 lm (2 * maxN ÷ 5) else 2 * maxN ÷ 5 - 1)
  = Ok T /\
  MAXP T = s_of (2 * maxN ÷ 5).
Proof.
  intros H Hmaxt. unfold main_setup in H.
  destruct (Z.ltb_spec minN 14) as [|Hmin]; [discriminate|].
  destruct (Z.gtb_spec maxN MAXN) as [|Hmax]; [discriminate|].
  cbn [orb] in H.
  destruct (negb (t0 =? 0) && (4 * t0 <=? maxN)); [discriminate|].
  cbv zeta in H. rewrite fac_s_spec in H by exact Hmaxt.
  change (MAXP initial_tables) with MAXP_init in H.
  destruct (Z.leb_spec (s_of (2 * maxN ÷ 5)) MAXP_init) as [Hs|];
    [|discriminate].
  cbn [bind] in H.
  destruct (_ || _)%bool.
  { apply bind_Ok in H. destruct H as (u & _ & H). discriminate. }
  apply bind_Ok in H. destruct H as (T' & HT & H). injection H as ->.
  split; [exact Hmin|]. split; [exact Hmax|]. split; [exact HT|].
  destruct (setup_shape _ _ _ HT) as (HP & _).
  rewrite HP. apply sint32_small.
  destruct (s_of_spec _ Hmaxt) as [_ Hs2]. unfold MAXP_init in Hs. lia.
Qed.

(** X21. The tables that [main] sets up for the range minN..maxN are
    large enough for every call of [tfac] with N <= maxN and
    t <= 2*maxN/5: the precondition that [tfac] asserts holds for every
    such N and t with 2t < N < 4t (for the fast variant, when pow does
    not decrease from t to 2*maxN/5). *)
Theorem main_tables_suffice (lm : libm) (fast : bool) (minN maxN t0 : Z)
    (T : tables) (N t : Z) :
  main_setup lm fast minN maxN t0 = Ok (Some T) ->
  10 <= N <= maxN -> N < MAXN -> 2 * t < N < 4 * t ->
  t <= 2 * maxN ÷ 5 ->
  (fast = true -> pow_0625 lm t <= pow_0625 lm (2 * maxN ÷ 5)) ->
  code_pre lm T N t fast.
Proof.
  intros H HN HN2 Ht Hle Hpow.
  assert (Hmaxt : 1 <= 2 * maxN ÷ 5) by lia.
  destruct (main_setup_Ok _ _ _ _ _ _ H Hmaxt) as (_ & _ & HT & HP).
  destruct (setup_entries _ _ _ HT) as (_ & _ & Hm & _).
  unfold code_pre, MAXN in *. split; [lia|]. split; [lia|]. split.
  - rewrite HP. apply s_of_mono. lia.
  - unfold maxm_of. destruct fast.
    + specialize (Hpow eq_refl). lia.
    + lia.
Qed.

Lemma main_tables_suffice_witness :
  exists T, main_setup exact_libm false 14 100 0 = Ok (Some T) /\
            code_pre exact_libm T 100 30 false.
Proof.
  eexists. split; [vm_compute; reflexivity|].
  apply (main_tables_suffice exact_libm false 14 100 0 _ 100 30).
  - vm_compute. reflexivity.
  - lia.
  - unfold MAXN. lia.
  - lia.
  - vm_compute. discriminate.
  - discriminate.
Defined.

Lemma fac_s_runs (T : tables) (t : Z) : fac_s T t <> Fuel.
Proof.
  destruct (Z.le_gt_cases 1 t) as [Ht|Ht].
  - rewrite fac_s_spec by exact Ht. destruct (_ <=? _); discriminate.
  - unfold fac_s. destruct (Z.leb_spec 0 t); [|discriminate].
    replace t with 0 by lia. discriminate.
Qed.

(** X22. In the standard variant a target above 2N/5 + 1 makes [tfac]
    stop at an assertion on the tables that [main] sets up for the single
    N, although 2t < N < 4t allows targets up to N/2: the tables hold the
    cofactors up to 2N/5 only. *)
Theorem main_target_too_large (lm : libm) (minN N t0 : Z) (T : tables)
    (t : Z) (feasible verify : bool) :
  main_setup lm false minN N t0 = Ok (Some T) ->
  2 * N ÷ 5 + 1 < t ->
  tfac lm T N t false feasible verify = Abort.
Proof.
  intros H Ht.
  destruct (Z.le_gt_cases 10 N) as [HN|HN];
    [|apply tfac_range_abort; lia].
  assert (Hmaxt : 1 <= 2 * N ÷ 5).
  { rewrite Z.quot_div_nonneg by lia. zlia. }
  destruct (main_setup_Ok _ _ _ _ _ _ H Hmaxt) as (_ & _ & HT & HP).
  destruct (setup_entries _ _ _ HT) as (_ & _ & Hm & _).
  unfold tfac, tfac_run.
  destruct (Z.geb_spec N 10) as [_|_]; [|reflexivity].
  destruct (Z.ltb_spec N MAXN) as [HN2|_]; [|reflexivity].
  cbn [andb].
  destruct (_ && _)%bool; [|reflexivity]. cbn [assert bind].
  pose proof (fac_s_runs T t) as Hs.
  destruct (fac_s T t) as [s| |]; cbn [bind];
    [|reflexivity|contradiction].
  pose proof (valuations_runs T N (PI T).[s - 1]
                ltac:(unfold MAXN in HN2; lia)
                (table_primes_PI T _ _ _ HT)) as Hv.
  destruct (valuations T N (PI T).[s - 1]) as [E| |]; cbn [bind];
    [|reflexivity|contradiction].
  cbn [negb].
  destruct (Z.leb_spec t (MAXM T + 1)) as [|_]; [lia|]. reflexivity.
Qed.

Lemma main_target_too_large_witness :
  exists T, main_setup exact_libm false 100 100 45 = Ok (Some T) /\
            tfac exact_libm T 100 45 false false false = Abort.
Proof.
  eexists. split; [vm_compute; reflexivity|].
  apply (main_target_too_large exact_libm 100 100 45).
  - vm_compute. reflexivity.
  - vm_compute. reflexivity.
Defined.

(** ** [main]: the sweep and the hint file *)

Lemma ratio_ok_pos (a b : Z) : ratio_ok a b = true -> 0 < a /\ 0 < b.
Proof.
  unfold ratio_ok. intros H.
  apply andb_prop in H. destruct H as [H _].
  apply andb_prop in H. destruct H as [H _].
  apply andb_prop in H. destruct H as [H1 H2].
  rewrite Z.gtb_ltb in H1, H2. apply Z.ltb_lt in H1, H2. lia.
Qed.

Lemma tbound_good (lm : libm) (T : tables) (N : Z) (fast verify : bool)
    (a b : Z) (ex : bool) (r : Z) :
  tbound lm T N fast verify a b ex = Ok r -> good_t lm T N fast verify r.
Proof.
  intros H. destruct ex; [|apply tbound_spec in H; tauto].
  pose proof (tbound_exhaustive_spec _ _ _ _ _ _ _ _ H)
    as (tmin & tmax & Ht & _ & _ & Hg & _).
  apply tbound_spec in Ht. destruct Ht as [Hgt _].
  destruct Hg as [->|Hg]; [exact Hgt|].
  destruct verify; [|exact Hg].
  rewrite tbound_exhaustive_unfold in H.
  apply bind_Ok in H. destruct H as (tm & _ & H). unbind H.
  injection H as <-.
  match goal with Hv : bind (tfac _ _ _ _ _ _ true) _ = Ok _ |- _ =>
    apply bind_Ok in Hv; destruct Hv as (c1 & Hc1 & _) end.
  destruct Hg as (c & Hc & Hn). unfold count in Hc.
  pose proof (tfac_erase _ _ _ _ _ _ _ Hc1) as Hc2.
  rewrite Hc in Hc2. injection Hc2 as <-.
  exists c. split; [exact Hc1|exact Hn].
Qed.

Lemma mul64_Ok (x y z : Z) :
  mul64 x y = Ok z -> z = x * y /\ - INT64_MAX - 1 <= z <= INT64_MAX.
Proof.
  unfold mul64. intros H. inv_bind H. injection H as <-.
  apply andb_prop in Ha. destruct Ha as [H1 H2].
  apply Z.leb_le in H1, H2. lia.
Qed.

Lemma mul64_in (x y : Z) :
  - INT64_MAX - 1 <= x * y <= INT64_MAX -> mul64 x y = Ok (x * y).
Proof.
  intros H. unfold mul64.
  destruct (Z.leb_spec (- INT64_MAX - 1) (x * y)); [|lia].
  destruct (Z.leb_spec (x * y) INT64_MAX); [|lia]. reflexivity.
Qed.

Section MainProofs.
Variable lm : libm.
Variable T : tables.
Variables (fast exhaustive verify : bool).
Variables (a b : Z).
Variables (minN maxN : Z).
Hypothesis ratio_pos : 0 < a.

Local Abbreviation cov := (covered lm T fast a b verify).

Lemma covered_cons (h : Z * Z) (hs : list (Z * Z)) (n : Z) :
  cov hs n -> cov (h :: hs) n.
Proof.
  intros (N & t & Hin & H). exists N, t. split; [right; exact Hin|exact H].
Qed.

Lemma covered_head (N t : Z) (hs : list (Z * Z)) (n : Z) :
  0 < a -> good_t lm T N fast verify t -> 0 <= b * t ->
  N <= n <= (b * t) ÷ a -> cov ((N, t) :: hs) n.
Proof.
  intros Ha Hg Hbt Hn. exists N, t. split; [left; reflexivity|].
  split; [lia|]. split; [|exact Hg].
  rewrite Z.quot_div_nonneg in Hn by lia.
  pose proof (Z.mul_div_le (b * t) a Ha). nia.
Qed.

(** One round of the sweep that goes on: the ratio is positive, the
    target is good for N, and the next N is above N. *)
Lemma sweep_round (N t : Z) :
  tbound lm T N fast verify a b exhaustive = Ok t ->
  a * N <= b * t ->
  0 < a /\ 10 <= N /\ good_t lm T N fast verify t /\ N <= (b * t) ÷ a.
Proof.
  intros Ht Hle.
  pose proof (tbound_good _ _ _ _ _ _ _ _ _ Ht) as Hg.
  assert (HN : 10 <= N /\ 3 <= t).
  { destruct Hg as (c & Hc & _). apply tfac_Ok_pre in Hc. lia. }
  split; [exact ratio_pos|]. split; [lia|]. split; [exact Hg|].
  rewrite Z.quot_div_nonneg by nia.
  apply Z.div_le_lower_bound; lia.
Qed.

Lemma sweep_spec (fuel : nat) :
  forall N N' hs,
  sweep lm T fast exhaustive verify a b maxN fuel N = Ok (N', hs) ->
  N <= N' /\ forall n, N <= n < N' -> cov hs n.
Proof.
  induction fuel as [|k IH]; intros N N' hs H; simpl in H; [discriminate|].
  destruct (N <=? maxN).
  2:{ injection H as <- <-. split; [lia|]. intros; lia. }
  apply bind_Ok in H. destruct H as (t & Ht & H).
  apply bind_Ok in H. destruct H as (bt & Hbt & H).
  apply bind_Ok in H. destruct H as (aN & HaN & H).
  apply mul64_Ok in Hbt, HaN. destruct Hbt as [-> _]. destruct HaN as [-> _].
  destruct (Z.ltb_spec (b * t) (a * N)) as [|Hge].
  { injection H as <- <-. split; [lia|]. intros; lia. }
  apply bind_Ok in H. destruct H as (N1 & HN1 & H).
  unfold divz in HN1. destruct (a =? 0); [discriminate|].
  injection HN1 as <-.
  apply bind_Ok in H. destruct H as ([N2 hs2] & Hrec & H).
  injection H as <- <-.
  destruct (sweep_round N t Ht Hge) as (Ha & HN & Hg & Hnext).
  apply IH in Hrec. destruct Hrec as [Hle Hcov].
  split; [lia|]. intros n Hn.
  destruct (Z.le_gt_cases n ((b * t) ÷ a)).
  - apply covered_head; auto; nia.
  - apply covered_cons, Hcov. lia.
Qed.

Lemma sweep_runs (fuel : nat) :
  (forall N, minN <= N <= maxN ->
     tbound lm T N fast verify a b exhaustive <> Fuel) ->
  forall N, minN <= N -> (Z.to_nat (maxN + 1 - N) < fuel)%nat ->
  sweep lm T fast exhaustive verify a b maxN fuel N <> Fuel.
Proof.
  intros Hruns. induction fuel as [|k IH]; intros N Hmin Hf; [lia|].
  simpl. destruct (Z.leb_spec N maxN) as [HN|HN]; [|discriminate].
  pose proof (Hruns N ltac:(lia)) as Ht.
  destruct (tbound lm T N fast verify a b exhaustive) as [t| |] eqn:Et;
    cbn [bind]; [|discriminate|contradiction].
  unfold mul64, assert.
  destruct (_ && _)%bool; cbn [bind]; [|discriminate].
  destruct (_ && _)%bool; cbn [bind]; [|discriminate].
  destruct (Z.ltb_spec (b * t) (a * N)) as [|Hge]; [discriminate|].
  unfold divz. destruct (a =? 0); cbn [bind]; [discriminate|].
  destruct (sweep_round N t Et Hge) as (_ & _ & _ & Hnext).
  specialize (IH ((b * t) ÷ a + 1) ltac:(lia) ltac:(lia)).
  destruct (sweep lm T fast exhaustive verify a b maxN k _)
    as [[N2 hs2]| |]; cbn [bind]; [discriminate|discriminate|contradiction].
Qed.

Lemma read_hints_spec (hints : list (Z * Z)) :
  forall minV maxV mV MV,
  read_hints lm T fast verify a b minN maxN hints minV maxV
  = Ok (Some (mV, MV)) ->
  (minV = 0 ->
   (mV = 0 /\ MV = maxV) \/
   (mV <> 0 /\ mV <= minN /\ forall n, mV <= n <= MV -> cov hints n)) /\
  (minV <> 0 ->
   mV = minV /\ maxV <= MV /\ forall n, maxV < n <= MV -> cov hints n).
Proof.
  pose proof ratio_pos as Ha. induction hints as [|[N t] rest IH];
    intros minV maxV mV MV H; simpl in H.
  { injection H as <- <-. split.
    - intros ->. left. auto.
    - intros _. split; [reflexivity|]. split; [lia|]. intros; lia. }
  apply bind_Ok in H. destruct H as (bt & Hbt & H).
  apply bind_Ok in H. destruct H as (aN & HaN & H).
  apply mul64_Ok in Hbt, HaN. destruct Hbt as [-> _]. destruct HaN as [-> _].
  destruct (Z.ltb_spec (b * t) (a * N)) as [|Hge]; [discriminate|].
  apply bind_Ok in H. destruct H as (cnt & Hcnt & H).
  destruct (Z.ltb_spec cnt N) as [|Hc]; [discriminate|].
  assert (Hg : good_t lm T N fast verify t)
    by (exists cnt; split; [exact Hcnt|lia]).
  assert (HN : 10 <= N) by (apply tfac_Ok_pre in Hcnt; lia).
  assert (Hnext : N <= (b * t) ÷ a).
  { rewrite Z.quot_div_nonneg by nia. apply Z.div_le_lower_bound; lia. }
  destruct (Z.eqb_spec minV 0) as [Hz|Hz].
  - destruct (Z.gtb_spec N minN) as [|HNm]; [discriminate|].
    apply bind_Ok in H. destruct H as (V & HV & H).
    unfold divz in HV. destruct (a =? 0); [discriminate|].
    injection HV as <-.
    split; [intros _|intros Hne; contradiction]. right.
    destruct (Z.geb_spec ((b * t) ÷ a) maxN) as [Hend|Hgo].
    + injection H as <- <-. split; [lia|]. split; [lia|].
      intros n Hn. apply covered_head; auto; nia.
    + apply IH in H. destruct H as [_ H].
      destruct (H ltac:(lia)) as (-> & Hle & Hcov).
      split; [lia|]. split; [lia|]. intros n Hn.
      destruct (Z.le_gt_cases n ((b * t) ÷ a)).
      * apply covered_head; auto; nia.
      * apply covered_cons, Hcov. lia.
  - destruct (Z.gtb_spec N (maxV + 1)) as [|HNV]; [discriminate|].
    apply bind_Ok in H. destruct H as (aV & HaV & H).
    apply mul64_Ok in HaV. destruct HaV as [-> _].
    destruct (Z.leb_spec (b * t) (a * maxV)) as [|Hext]; [discriminate|].
    apply bind_Ok in H. destruct H as (V & HV & H).
    unfold divz in HV. destruct (a =? 0); [discriminate|].
    injection HV as <-.
    assert (HVle : maxV <= (b * t) ÷ a).
    { rewrite Z.quot_div_nonneg by nia. apply Z.div_le_lower_bound; lia. }
    split; [intros Heq; contradiction|intros _].
    destruct (Z.geb_spec ((b * t) ÷ a) maxN) as [Hend|Hgo].
    + injection H as <- <-. split; [reflexivity|]. split; [lia|].
      intros n Hn. apply covered_head; auto; nia.
    + apply IH in H. destruct H as [_ H].
      destruct (H Hz) as (-> & Hle & Hcov).
      split; [reflexivity|]. split; [lia|]. intros n Hn.
      destruct (Z.le_gt_cases n ((b * t) ÷ a)).
      * apply covered_head; auto; nia.
      * apply covered_cons, Hcov. lia.
Qed.

(** The lines that a sweep writes from N on are accepted when they are
    read back with the range verified so far ending at N - 1. *)
Lemma sweep_read_back (fuel : nat) :
  forall N N' hs minV,
  sweep lm T fast exhaustive verify a b maxN fuel N = Ok (N', hs) ->
  maxN < N' -> N <= maxN -> minV <> 0 ->
  read_hints lm T fast verify a b minN maxN hs minV (N - 1)
  = Ok (Some (minV, N' - 1)).
Proof.
  induction fuel as [|k IH]; intros N N' hs minV H Hend HN Hz;
    simpl in H; [discriminate|].
  destruct (Z.leb_spec N maxN) as [_|]; [|lia].
  apply bind_Ok in H. destruct H as (t & Ht & H).
  apply bind_Ok in H. destruct H as (bt & Hbt & H).
  apply bind_Ok in H. destruct H as (aN & HaN & H).
  pose proof Hbt as Hbt'. pose proof HaN as HaN'.
  apply mul64_Ok in Hbt', HaN'.
  destruct Hbt' as [-> Hbr]. destruct HaN' as [-> Har].
  destruct (Z.ltb_spec (b * t) (a * N)) as [|Hge].
  { injection H as <- <-. lia. }
  apply bind_Ok in H. destruct H as (N1 & HN1 & H).
  apply bind_Ok in H. destruct H as ([N2 hs2] & Hrec & H).
  injection H as <- <-.
  destruct (sweep_round N t Ht Hge) as (Ha & HN10 & Hg & Hnext).
  destruct Hg as (c & Hc & Hcn). unfold count in Hc.
  cbn [read_hints]. rewrite Hbt, HaN. cbn [bind].
  destruct (Z.ltb_spec (b * t) (a * N)) as [|_]; [lia|].
  rewrite Hc. cbn [bind].
  destruct (Z.ltb_spec c N) as [|_]; [lia|].
  destruct (Z.eqb_spec minV 0) as [|_]; [contradiction|].
  destruct (Z.gtb_spec N (N - 1 + 1)) as [|_]; [lia|].
  rewrite mul64_in by nia. cbn [bind].
  destruct (Z.leb_spec (b * t) (a * (N - 1))) as [|_]; [nia|].
  rewrite HN1. cbn [bind].
  unfold divz in HN1. destruct (a =? 0); [discriminate|].
  injection HN1 as <-.
  destruct (Z.geb_spec ((b * t) ÷ a) maxN) as [Hlast|Hgo].
  - destruct k as [|k']; simpl in Hrec; [discriminate|].
    destruct (Z.leb_spec ((b * t) ÷ a + 1) maxN) as [|_]; [lia|].
    injection Hrec as <- <-.
    replace ((b * t) ÷ a + 1 - 1) with ((b * t) ÷ a) by lia. reflexivity.
  - apply (IH _ _ _ minV) in Hrec; try lia.
    replace ((b * t) ÷ a + 1 - 1) with ((b * t) ÷ a) in Hrec by lia.
    exact Hrec.
Qed.

End MainProofs.








